(** * SkillSaw-II: the extraction pipeline, embedded and verified

    A shallow embedding of the two ETL engines of the repository:

    - the Notes document extractor ([extract-users-db_prod.py] and its
      Fabric twin [extract-prod-domino-lakehouse.py]): folder-name
      sanitisation, the content-addressed store, the retry helpers, the
      normalised EAV sink, the per-document upsert and the checkpointed
      view loop;
    - the Entra directory extractor ([entra_heirarchy.py],
      [entra_heirarchy3.py]): the adaptive limiter, the HTTP backoff, the
      batched resolution of managers, the managers-file loader and the
      hierarchy builder.

    Conventions of the embedding.  A Python [str] is a Rocq [string]; one
    [ascii] stands for one code point below 256.  Python [int] is [Z].
    A [dict] is a [gmap]; a SQL table with an AUTO_INCREMENT key is the list
    of its rows in insertion order, the key of a row being its 1-based
    position; a table addressed only through its primary key is a [gmap]
    from that key.  What the repository calls but does not define
    ([hashlib.sha256], [float], [datetime.fromisoformat], ...) is gathered
    in the class [Runtime]. *)

From Stdlib Require Import ZArith Floats Ascii String List Bool Lia.
From stdpp Require Import base option list gmap strings fin_maps pretty sorting.

Local Open Scope string_scope.

(** ** Python string primitives *)

Module Py.

Definition chars (s : string) : list ascii := list_ascii_of_string s.
Definition str (l : list ascii) : string := string_of_list_ascii l.

(** [str.isspace] restricted to code points below 256:
    TAB..CR, FS..US, SPACE, NEL and NBSP. *)
Definition isspace (c : ascii) : bool :=
  let n := nat_of_ascii c in
  (((9 <=? n) && (n <=? 13)) || ((28 <=? n) && (n <=? 31))
   || (n =? 32) || (n =? 133) || (n =? 160))%nat.

Fixpoint lstrip_by (p : ascii -> bool) (l : list ascii) : list ascii :=
  match l with
  | [] => []
  | c :: r => if p c then lstrip_by p r else l
  end.

Definition strip_by (p : ascii -> bool) (l : list ascii) : list ascii :=
  rev (lstrip_by p (rev (lstrip_by p l))).

(** [s.strip()] *)
Definition strip (s : string) : string := str (strip_by isspace (chars s)).

(** Truthiness of a [str]: non-empty. *)
Definition truthy (s : string) : bool :=
  match s with EmptyString => false | _ => true end.

(** [s.lower()] on the ASCII letters. *)
Definition lower_char (c : ascii) : ascii :=
  let n := nat_of_ascii c in
  if ((65 <=? n) && (n <=? 90))%nat then ascii_of_nat (n + 32) else c.

Definition lower (s : string) : string := str (map lower_char (chars s)).

(** [s.encode(utf-8)], for code points below 256. *)
Definition utf8_char (c : ascii) : list Byte.byte :=
  let n := nat_of_ascii c in
  if (n <? 128)%nat then [byte_of_ascii c]
  else [byte_of_ascii (ascii_of_nat (192 + n / 64));
        byte_of_ascii (ascii_of_nat (128 + n mod 64))].

Definition utf8 (s : string) : list Byte.byte := concat (map utf8_char (chars s)).

(** [s.split(sep)] for a one-character separator. *)
Fixpoint split_chars (sep : ascii) (cur l : list ascii) : list (list ascii) :=
  match l with
  | [] => [rev cur]
  | c :: r => if Ascii.eqb c sep then rev cur :: split_chars sep [] r
              else split_chars sep (c :: cur) r
  end.

Definition split (sep : ascii) (s : string) : list string :=
  map str (split_chars sep [] (chars s)).

(** [s[:n]] *)
Definition prefix (n : nat) (s : string) : string := str (take n (chars s)).

(** [sep.join(parts)] *)
Fixpoint join (sep : string) (parts : list string) : string :=
  match parts with
  | [] => ""
  | [p] => p
  | p :: rest => p ++ sep ++ join sep rest
  end.

End Py.

(** ** [sanitize_folder_name] *)

Module Sanitize.

Definition underscore : ascii := "_"%char.

Definition dquote : ascii := ascii_of_nat 34.

(** The character class of the first [re.sub]: the angle brackets, colon,
    double quote, slash, backslash, bar, question mark and star. *)
Definition forbidden (c : ascii) : bool :=
  existsb (Ascii.eqb c)
    ["<"; ">"; ":"; dquote; "/"; "\"; "|"; "?"; "*"]%char.

(** The first [re.sub]: each forbidden character becomes an underscore. *)
Definition sub_forbidden (l : list ascii) : list ascii :=
  map (fun c => if forbidden c then underscore else c) l.

(** The character class [[\s_]]. *)
Definition sep (c : ascii) : bool := Py.isspace c || Ascii.eqb c underscore.

(** [re.sub(r'[\s_]+', '_', name)]: every maximal run of separators
    becomes one underscore.  [in_run] records that the previous
    character belonged to the run being replaced. *)
Fixpoint collapse (in_run : bool) (l : list ascii) : list ascii :=
  match l with
  | [] => []
  | c :: r =>
      if sep c
      then (if in_run then collapse true r else underscore :: collapse true r)
      else c :: collapse false r
  end.

Definition is_underscore (c : ascii) : bool := Ascii.eqb c underscore.

Definition sanitize_folder_name (name : string) (max_len : nat) : string :=
  if negb (Py.truthy name) || negb (Py.truthy (Py.strip name)) then "Unnamed"
  else
    let name1 := sub_forbidden (Py.chars name) in
    let name2 := collapse false name1 in
    Py.str (Py.strip_by is_underscore (take max_len name2)).

(** The default [max_len=100] used for category components. *)
Definition sanitize_component (name : string) : string :=
  sanitize_folder_name name 100.

End Sanitize.

(** ** [AdaptiveLimiter] *)

Module Limiter.

Local Open Scope Z_scope.
#[local] Set Warnings "-inexact-float".

Definition MIN_PAGE_SIZE : Z := 25.
Definition MAX_CONSEC_SERVICE_ERRORS : Z := 6.
Definition INTER_PAGE_SLEEP : float := 0.35%float.

(** [page_sleep] is a Python float, that is an IEEE binary64: the kernel's
    primitive floats, decimal literals rounded to nearest as Python does. *)
Record limiter := Mk {
  consec_service_errors : Z;
  page_sleep : float;
  page_size : Z
}.

Definition init (PAGE_SIZE : Z) : limiter :=
  Mk 0 INTER_PAGE_SLEEP PAGE_SIZE.

(** Python's two-argument [min]: the second argument wins only when it is
    strictly smaller. *)
Definition fmin (a b : float) : float := if PrimFloat.ltb b a then b else a.

Definition note_success (l : limiter) : limiter :=
  Mk (Z.max 0 (consec_service_errors l - 1)) (page_sleep l) (page_size l).

(** Returns the new limiter and the nap passed to [time.sleep], if any. *)
Definition note_service_error (l : limiter) : limiter * option Z :=
  let c := consec_service_errors l + 1 in
  let sleep1 :=
    if (c =? 3) || (c =? 4) then fmin (page_sleep l + 0.25)%float 2.0%float
    else page_sleep l in
  if MAX_CONSEC_SERVICE_ERRORS <=? c then
    let nap := 30 + 10 * (c - MAX_CONSEC_SERVICE_ERRORS) in
    (Mk 0 (fmin (sleep1 + 0.5)%float 3.0%float)
        (Z.max MIN_PAGE_SIZE (page_size l / 2)),
     Some nap)
  else (Mk c sleep1 (page_size l), None).

End Limiter.

(** ** The content-addressed store: [sha256_file], [cas_store] *)

Module Cas.

Abbreviation bytes := (list Byte.byte).

Definition hex_digit (n : nat) : ascii :=
  nth n (Py.chars "0123456789abcdef") "0"%char.

Definition hex_byte (b : Byte.byte) : list ascii :=
  let n := Byte.to_nat b in [hex_digit (n / 16); hex_digit (n mod 16)].

(** [bytes.hex()] *)
Definition hex (bs : bytes) : string := Py.str (concat (map hex_byte bs)).

Section WithHash.
(** [hashlib.sha256(...).digest()] *)
Variable sha256 : bytes -> bytes.

Definition sha256_bytes (b : bytes) : bytes := sha256 b.

(** A file system: the regular files by path.  [CAS_ROOT] is the store's
    root directory. *)
Variable CAS_ROOT : string.

(** [sha256_file]: the digest of the file's content, read in 1 MiB
    chunks; opening a missing file raises. *)
Definition sha256_file (fs : gmap string bytes) (p : string) : option bytes :=
  sha256 <$> fs !! p.

(** [hexs[0:2] / hexs[2:4] / (hexs + .bin)], with forward slashes. *)
Definition relpath_stem (hexs : string) : string :=
  substring 0 2 hexs ++ "/" ++ substring 2 2 hexs ++ "/" ++ hexs.

Definition relpath (hexs : string) : string := relpath_stem hexs ++ ".bin".

Definition dest_path (hexs : string) : string :=
  CAS_ROOT ++ "/" ++ relpath hexs.

(** [dest.with_suffix(.tmp)] *)
Definition tmp_path (hexs : string) : string :=
  CAS_ROOT ++ "/" ++ relpath_stem hexs ++ ".tmp".

Record put_result := PutResult {
  put_digest : bytes;
  put_rel : string;
  put_size : nat;
  put_copied : bool   (* whether [shutil.copy2] ran *)
}.

(** [cas_store src]; [None] when the call raises: [src] is missing, or
    [shutil.copy2] is asked to copy the temporary file onto itself. *)
Definition cas_store (fs : gmap string bytes) (src : string)
  : option (gmap string bytes * put_result) :=
  match fs !! src with
  | None => None
  | Some content =>
      let digest := sha256 content in
      let hexs := hex digest in
      let rel := relpath hexs in
      let dest := dest_path hexs in
      match fs !! dest with
      | Some _ => Some (fs, PutResult digest rel (length content) false)
      | None =>
          let tmp := tmp_path hexs in
          if decide (src = tmp) then None
          else
            let fs1 := <[tmp := content]> fs in            (* copy2 *)
            let fs2 := <[dest := content]> (delete tmp fs1) in (* replace *)
            Some (fs2, PutResult digest rel (length content) true)
      end
  end.

End WithHash.

End Cas.

(** ** [load_managers_file] *)

Module Managers.

Local Open Scope list_scope.
#[local] Set Warnings "-register-all".

(** What [json.load] returns.  An object is the list of its items in
    insertion order. *)
Inductive json :=
| JNull
| JBool (b : bool)
| JInt (n : Z)
| JFloat (f : float)
| JStr (s : string)
| JList (l : list json)
| JDict (d : list (string * json)).

Definition is_list (v : json) : bool :=
  match v with JList _ => true | _ => false end.

Definition is_null (v : json) : bool :=
  match v with JNull => true | _ => false end.

(** [key in row] and [row.get(key)] *)
Definition dict_get (d : list (string * json)) (k : string) : option json :=
  snd <$> find (fun kv => String.eqb (fst kv) k) d.

Definition dict_has (d : list (string * json)) (k : string) : bool :=
  bool_decide (is_Some (dict_get d k)).

(** Truthiness, as [kids or []] tests it. *)
Definition truthy (v : json) : bool :=
  match v with
  | JNull => false
  | JBool b => b
  | JInt n => negb (n =? 0)%Z
  | JFloat f => negb (PrimFloat.eqb f 0%float)
  | JStr s => Py.truthy s
  | JList l => match l with [] => false | _ => true end
  | JDict d => match d with [] => false | _ => true end
  end.

(** [for k in v]: a list yields its elements, a string its characters, a
    dict its keys; iterating a number or a boolean raises [TypeError]. *)
Definition py_iter (v : json) : option (list json) :=
  match v with
  | JList l => Some l
  | JStr s => Some (map (fun c => JStr (String c EmptyString)) (Py.chars s))
  | JDict d => Some (map (fun kv => JStr (fst kv)) d)
  | JNull | JBool _ | JInt _ | JFloat _ => None
  end.

Section WithRepr.
(** [str] of a float, a list or a dict. *)
Variable py_repr : json -> string.

Definition py_str (v : json) : string :=
  match v with
  | JStr s => s
  | JInt n => pretty n
  | JNull => "None"
  | JBool true => "True"
  | JBool false => "False"
  | _ => py_repr v
  end.

(** [str(m) if m is not None else None] *)
Definition str_or_none (v : json) : option string :=
  if is_null v then None else Some (py_str v).

Abbreviation cmap := (gmap string (option string)).

(** [for k in ks: child_to_manager[str(k)] = mgr] *)
Definition assign_all (mgr : option string) (ks : list json) (acc : cmap) : cmap :=
  foldl (fun a k => <[py_str k := mgr]> a) acc ks.

(** One item of the manager -> reports shape:
    [for k in (kids or []): child_to_manager[str(k)] = str(m)]. *)
Definition step_manager_reports (acc : cmap) (entry : string * json) : option cmap :=
  let '(m, kids) := entry in
  if truthy kids then
    ks ← py_iter kids; Some (assign_all (Some m) ks acc)
  else Some acc.

(** One item of the child -> manager shape. *)
Definition step_child_manager (acc : cmap) (entry : string * json) : cmap :=
  let '(child, mgr) := entry in <[child := str_or_none mgr]> acc.

(** One row of a list input. *)
Definition step_row (acc : cmap) (row : json) : cmap :=
  match row with
  | JDict d =>
      match dict_get d "managerId", dict_get d "reports" with
      | Some m, Some (JList reports) => assign_all (str_or_none m) reports acc
      | Some m, _ =>
          match dict_get d "id" with
          | Some i => <[py_str i := str_or_none m]> acc
          | None => acc
          end
      | None, _ => acc
      end
  | _ => acc
  end.

Fixpoint fold_option {A B} (f : A -> B -> option A) (acc : A) (l : list B) : option A :=
  match l with
  | [] => Some acc
  | x :: r => match f acc x with Some a => fold_option f a r | None => None end
  end.

(** [load_managers_file], from the parsed data on; [None] when it raises. *)
Definition load_managers_file (data : json) : option cmap :=
  match data with
  | JDict d =>
      let any_list := existsb (fun kv => is_list (snd kv)) d in
      if any_list then fold_option step_manager_reports ∅ d
      else Some (foldl step_child_manager ∅ d)
  | JList rows => Some (foldl step_row ∅ rows)
  | _ => None
  end.

End WithRepr.

End Managers.

(** ** [build_hierarchy] *)

Module Hierarchy.

Local Open Scope list_scope.
#[local] Set Warnings "-register-all".

(** A user object as Graph returns it; only the keys the builder reads. *)
Record user := User {
  id : string;
  displayName : option string
}.

(** The user objects are mutated in place and shared between [users],
    [nodes], [roots] and the [reports] lists: an object is its position in
    [users], the heap holds what the builder writes into it. *)
Record node := Node {
  n_user : user;
  managerId : option string;
  reports : list nat
}.

Abbreviation heap := (list node).

(** [manager_map.get(uid)] *)
Definition map_get (manager_map : gmap string (option string)) (uid : string)
  : option string := mjoin (manager_map !! uid).

(** First loop: [u[managerId] = ...; u[reports] = []; nodes[uid] = u]. *)
Definition init_heap (users : list user) (manager_map : gmap string (option string)) : heap :=
  map (fun u => Node u (map_get manager_map (id u)) []) users.

Definition init_nodes (users : list user) : gmap string nat :=
  foldl (fun acc iu => <[id (snd iu) := fst iu]> acc) ∅ (imap pair users).

Definition append_report (h : heap) (parent child : nat) : heap :=
  match h !! parent with
  | Some p => <[parent := Node (n_user p) (managerId p) (reports p ++ [child])]> h
  | None => h
  end.

(** The manager object of [u], when [m and m in nodes]. *)
Definition parent_of (nodes : gmap string nat) (m : option string) : option nat :=
  match m with
  | Some m' => if Py.truthy m' then nodes !! m' else None
  | None => None
  end.

(** Second loop, one user. *)
Definition attach (nodes : gmap string nat) (st : heap * list nat) (i : nat)
  : heap * list nat :=
  let '(h, roots) := st in
  match parent_of nodes (h !! i ≫= managerId) with
  | Some j => (append_report h j i, roots)
  | None => (h, roots ++ [i])
  end.

(** [(x.get(displayName) or empty).lower()] *)
Definition sort_key (h : heap) (i : nat) : string :=
  Py.lower (default "" (h !! i ≫= fun n => displayName (n_user n))).

(** [list.sort(key=...)]: stable, by [<] on the keys. *)
Fixpoint insert_by (key : nat -> string) (x : nat) (l : list nat) : list nat :=
  match l with
  | [] => [x]
  | y :: r => if String.ltb (key y) (key x) then y :: insert_by key x r
              else x :: l
  end.

Definition sort_by (key : nat -> string) (l : list nat) : list nat :=
  foldr (insert_by key) [] l.

(** [sort_recursive]; [None] when the recursion does not come back within
    [fuel] nested calls. *)
Fixpoint sort_recursive (fuel : nat) (h : heap) (i : nat) : option heap :=
  match fuel with
  | O => None
  | S f =>
      match h !! i with
      | None => None
      | Some n =>
          let sorted := sort_by (sort_key h) (reports n) in
          let h1 := <[i := Node (n_user n) (managerId n) sorted]> h in
          Managers.fold_option (sort_recursive f) h1 sorted
      end
  end.

(** [build_hierarchy]: the heap after the call and the list [roots]. *)
Definition build_hierarchy (fuel : nat) (users : list user)
    (manager_map : gmap string (option string)) : option (heap * list nat) :=
  let h0 := init_heap users manager_map in
  let nodes := init_nodes users in
  let '(h1, roots) := foldl (attach nodes) (h0, []) (seq 0 (length users)) in
  h2 ← Managers.fold_option (sort_recursive fuel) h1 roots;
  Some (h2, roots).

(** The nested value [roots] denotes (what [json.dump] writes to
    org_tree.json). *)
Inductive tree := T (i : nat) (children : list tree).

Fixpoint unfold (fuel : nat) (h : heap) (i : nat) : option tree :=
  match fuel with
  | O => None
  | S f =>
      n ← h !! i;
      cs ← mapM (unfold f h) (reports n);
      Some (T i cs)
  end.

Definition forest (fuel : nat) (h : heap) (roots : list nat) : option (list tree) :=
  mapM (unfold fuel h) roots.

Fixpoint preorder (t : tree) : list nat :=
  match t with T i cs => i :: concat (map preorder cs) end.

Definition forest_nodes (ts : list tree) : list nat := concat (map preorder ts).

End Hierarchy.

(** ** The SQL sink and the document upserter *)

Module Sink.

Local Open Scope list_scope.
Abbreviation bytes := (list Byte.byte).

#[export] Instance byte_eq : EqDecision Byte.byte := Byte.byte_eq_dec.

(** What the sink calls but the repository does not define. *)
Class Runtime := {
  sha256 : bytes -> bytes;                 (* hashlib.sha256(b).digest() *)
  number : Type;                           (* a Python float *)
  number_eq :: EqDecision number;
  float_of_int : Z -> number;              (* float(v) *)
  number_truthy : number -> bool;
  str_number : number -> string;           (* str(x) *)
  datetime : Type;
  datetime_eq :: EqDecision datetime;
  fromisoformat : string -> option datetime;  (* None when it raises *)
  utc_naive : datetime -> datetime;        (* to UTC, tzinfo dropped *)
  str_datetime : datetime -> string;       (* str(x) *)
  strftime : datetime -> string            (* the val_hash format *)
}.

Section WithRuntime.
Context {rt : Runtime}.

(** *** What the COM bridge hands over *)

Inductive pyval :=
| PNone
| PBool (b : bool)
| PInt (n : Z)
| PFloat (x : number)
| PDatetime (d : datetime)
| PStr (s : string).

(** [item.Values]: a scalar ([Scalar PNone] is [None]) or a tuple. *)
Inductive values :=
| Scalar (v : pyval)
| Tuple (vs : list pyval).

Record embedded := Embedded {
eo_Name : option string;
eo_Type : option Z;
eo_file : option bytes      (* what ExtractFile writes; None: it raises *)
}.

Record item := Item {
Name : string;
Values : values;
EmbeddedObjects : list embedded;
has_AppendText : bool;
Type_ : option Z;
Text : option string
}.

Record notes_doc := NotesDoc {
UniversalID : option string;
NoteID : string;
Created : pyval;
LastModified : pyval;
Items : list item
}.

Definition py_truthy (v : pyval) : bool :=
match v with
| PNone => false
| PBool b => b
| PInt n => negb (n =? 0)%Z
| PFloat x => number_truthy x
| PDatetime _ => true
| PStr s => Py.truthy s
end.

Definition values_truthy (vs : values) : bool :=
match vs with
| Scalar v => py_truthy v
| Tuple l => match l with [] => false | _ => true end
end.

Definition py_str (v : pyval) : string :=
match v with
| PNone => "None"
| PBool true => "True"
| PBool false => "False"
| PInt n => pretty n
| PFloat x => str_number x
| PDatetime d => str_datetime d
| PStr s => s
end.

(** *** Utilities *)

Definition FORM_MAX : nat := 256.
Definition SUBJECT_MAX : nat := 1024.
Definition AUTHOR_MAX : nat := 512.
Definition EO_TYPE_IMAGE : Z := 1452.
Definition EO_TYPE_OLE : Z := 1453.
Definition EO_TYPE_ATTACHMENT : Z := 1454.

Definition safe_str (val : pyval) (max_len : nat) : option string :=
match val with
| PNone => None
| v =>
    let s := py_str v in
    if (max_len <? String.length s)%nat then Some (Py.prefix max_len s) else Some s
end.

Definition as_dt (val : pyval) : option datetime :=
match val with
| PDatetime d => Some (utc_naive d)
| _ => utc_naive <$> fromisoformat (py_str val)
end.

Definition sha256_bytes (b : bytes) : bytes := sha256 b.

(** *** The tables *)

Record item_row := ItemRow {
i_name : string;
notes_filter : option Z
}.

Inductive val_kind :=
| k_string | k_text | k_number | k_datetime | k_bool | k_bytes | k_richtext | k_unknown.

#[export] Instance val_kind_eq : EqDecision val_kind.
Proof. solve_decision. Defined.

Definition kind_name (k : val_kind) : string :=
match k with
| k_string => "string" | k_text => "text" | k_number => "number"
| k_datetime => "datetime" | k_bool => "bool" | k_bytes => "bytes"
| k_richtext => "richtext" | k_unknown => "unknown"
end.

Record item_value_row := ItemValueRow {
iv_item_id : nat;
iv_kind : val_kind;
val_hash : option bytes;
v_string : option string;
v_text : option string;
v_number : option number;
v_datetime : option datetime;
v_bool : option Z;
v_bytes : option bytes;
attachment_id : option nat
}.

Record link_row := LinkRow {
item_value_id : nat;
is_summary : Z
}.

Inductive att_kind := a_attachment | a_image | a_ole | a_object.

Record attachment_row := AttachmentRow {
a_unid : string;
a_item_name : option string;
a_kind : att_kind;
a_filename : option string;
a_mime_type : option string;
a_size_bytes : option nat;
a_sha256 : bytes;
a_storage_path : string;
a_created_at : option datetime
}.

Record document_row := DocumentRow {
d_source_id : nat;
d_note_id : option string;
d_form : option string;
d_subject : option string;
d_author : option string;
d_created_at : option datetime;
d_modified_at : option datetime;
has_attachments : Z;
text_hash : option bytes;
text_body : option string;
doc_size_bytes : option nat
}.

Record document_view_row := DocumentViewRow {
dv_unid : string;
dv_view_name : string;
category_path : option string;
leaf_category : option string
}.

Record checkpoint_row := CheckpointRow {
snapshot_sig : string;
next_index : nat;
last_unid : option string
}.

(** Tables with an AUTO_INCREMENT key are the lists of their rows, a row's
  id being its 1-based position; [doc_item_values], [documents] and
  [etl_checkpoints] are addressed through their unique keys only. *)
Record store := Store {
items : list item_row;
item_values : list item_value_row;
doc_item_values : gmap (string * nat * nat) link_row;
attachments : list attachment_row;
documents : gmap string document_row;
document_views : list document_view_row;
etl_checkpoints : gmap (nat * nat * string) checkpoint_row
}.

Definition empty_store : store := Store [] [] ∅ [] ∅ [] ∅.

(** [SELECT id ... LIMIT 1]: the id of the first row that matches. *)
Definition select_id {A} (p : A -> bool) (rows : list A) : option nat :=
(fun ix => S (fst ix)) <$> list_find (fun r => p r = true) rows.

(** *** [items] *)

Definition name_matches (name : string) (r : item_row) : bool :=
String.eqb (Py.lower (i_name r)) (Py.lower name).

Definition with_items (s : store) (its : list item_row) : store :=
Store its (item_values s) (doc_item_values s) (attachments s)
      (documents s) (document_views s) (etl_checkpoints s).

Definition get_item_id (s : store) (name : string) : store * nat :=
match select_id (name_matches name) (items s) with
| Some i => (s, i)
| None =>
    let its := items s ++ [ItemRow name None] in
    (with_items s its, length its)
end.

(** [int(nf) == 1], False when [nf] is NULL; True when no row is found. *)
Definition should_store_item (s : store) (name : string) : bool :=
match list_find (fun r => name_matches name r = true) (items s) with
| None => true
| Some (_, row) =>
    match notes_filter row with
    | Some nf => (nf =? 1)%Z
    | None => false
    end
end.

(** *** [documents] *)

Definition with_documents (s : store) (ds : gmap string document_row) : store :=
Store (items s) (item_values s) (doc_item_values s) (attachments s)
      ds (document_views s) (etl_checkpoints s).

(** INSERT ... ON DUPLICATE KEY UPDATE: every column but [source_id] is
  overwritten. *)
Definition upsert_document (s : store) (source_id : nat) (unid : string)
  (doc_row : document_row) : store :=
let sid := match documents s !! unid with
           | Some old => d_source_id old
           | None => source_id
           end in
with_documents s
  (<[unid := DocumentRow sid (d_note_id doc_row) (d_form doc_row)
               (d_subject doc_row) (d_author doc_row) (d_created_at doc_row)
               (d_modified_at doc_row) (has_attachments doc_row)
               (text_hash doc_row) (text_body doc_row)
               (doc_size_bytes doc_row)]> (documents s)).

(** *** [item_values] and [doc_item_values] *)

(** The null-safe equality of the selector. *)
Definition null_eq {A} `{EqDecision A} (col param : option A) : bool :=
bool_decide (col = param).

Definition iv_matches (item_id : nat) (kind : val_kind)
  (s t : option string) (n : option number) (dt : option datetime)
  (b : option Z) (att_id : option nat) (r : item_value_row) : bool :=
bool_decide (iv_item_id r = item_id) && bool_decide (iv_kind r = kind)
&& null_eq (v_string r) s && null_eq (v_text r) t
&& null_eq (v_number r) n && null_eq (v_datetime r) dt
&& null_eq (v_bool r) b && null_eq (v_bytes r) None
&& null_eq (attachment_id r) att_id.

Definition _select_existing_item_value (st : store) (item_id : nat)
  (kind : val_kind) (s t : option string) (n : option number)
  (dt : option datetime) (b : option Z) (att_id : option nat) : option nat :=
select_id (iv_matches item_id kind s t n dt b att_id) (item_values st).

Definition _none {A} (to_str : A -> string) (x : option A) : string :=
match x with None => "" | Some v => to_str v end.

Definition unit_sep : string := String (ascii_of_nat 31) "".

Definition _compute_val_hash (item_id : nat) (kind : val_kind)
  (s t : option string) (n : option number) (dt : option datetime)
  (b : option Z) (att_id : option nat) : bytes :=
sha256 (Py.utf8 (Py.join unit_sep
  [pretty item_id; kind_name kind; _none id s; _none id t;
   _none str_number n; _none strftime dt; _none pretty b;
   _none pretty att_id])).

Definition with_item_values (st : store) (ivs : list item_value_row) : store :=
Store (items st) ivs (doc_item_values st) (attachments st)
      (documents st) (document_views st) (etl_checkpoints st).

Definition with_links (st : store) (ls : gmap (string * nat * nat) link_row) : store :=
Store (items st) (item_values st) ls (attachments st)
      (documents st) (document_views st) (etl_checkpoints st).

Definition get_or_create_item_value (st : store) (item_id : nat)
  (kind : val_kind) (s t : option string) (n : option number)
  (dt : option datetime) (b : option Z) (att_id : option nat) : store * nat :=
match _select_existing_item_value st item_id kind s t n dt b att_id with
| Some existing => (st, existing)
| None =>
    let h := _compute_val_hash item_id kind s t n dt b att_id in
    let ivs := item_values st ++
               [ItemValueRow item_id kind (Some h) s t n dt b None att_id] in
    (with_item_values st ivs, length ivs)
end.

Definition link_doc_item_value (st : store) (unid : string) (item_id order_idx : nat)
  (iv_id : nat) (summary : Z) : store :=
with_links st (<[(unid, item_id, order_idx) := LinkRow iv_id summary]>
                 (doc_item_values st)).

Definition insert_item_value (st : store) (unid : string) (item_id order_idx : nat)
  (kind : val_kind) (s t : option string) (n : option number)
  (dt : option datetime) (b : option Z) (att_id : option nat) : store :=
let '(st1, iv_id) := get_or_create_item_value st item_id kind s t n dt b att_id in
link_doc_item_value st1 unid item_id order_idx iv_id 0.

(** *** [document_views], [attachments], [etl_checkpoints] *)

Definition backslash : ascii := ascii_of_nat 92.

Definition _canon_category_path (cp : option string) : option string :=
match cp with
| None => None
| Some p =>
    if negb (Py.truthy p) then None
    else
      let parts := filter (fun q => Py.truthy q = true)
                     (map Py.strip (Py.split backslash p)) in
      match parts with
      | [] => None
      | _ => Some (Py.join (String backslash "") parts)
      end
end.

Definition with_document_views (st : store) (vs : list document_view_row) : store :=
Store (items st) (item_values st) (doc_item_values st) (attachments st)
      (documents st) vs (etl_checkpoints st).

(** The unique key (unid, view_name, category_path) never matches a row
  whose [category_path] is NULL. *)
Definition dv_conflicts (unid view_name : string) (cat : option string)
  (r : document_view_row) : bool :=
String.eqb (dv_unid r) unid && String.eqb (dv_view_name r) view_name
&& match cat, category_path r with
   | Some c, Some c' => String.eqb c c'
   | _, _ => false
   end.

Definition insert_document_view (st : store) (unid view_name : string)
  (cp : option string) : store :=
let cat := _canon_category_path cp in
let leaf := (fun c => List.last (Py.split backslash c) "") <$> cat in
let row := DocumentViewRow unid view_name cat leaf in
match list_find (fun r => dv_conflicts unid view_name cat r = true)
                (document_views st) with
| Some (i, _) => with_document_views st (<[i := row]> (document_views st))
| None => with_document_views st (document_views st ++ [row])
end.

Record att_meta := AttMeta {
m_unid : string;
m_item_name : option string;
m_kind : att_kind;
m_filename : string;
m_size_bytes : nat;
m_sha256 : bytes;
m_storage_path : string
}.

Definition with_attachments (st : store) (atts : list attachment_row) : store :=
Store (items st) (item_values st) (doc_item_values st) atts
      (documents st) (document_views st) (etl_checkpoints st).

(** The row a meta denotes under the key (sha256, unid, filename). *)
Definition att_is (row : att_meta) (r : attachment_row) : bool :=
String.eqb (a_unid r) (m_unid row)
&& null_eq (a_filename r) (Some (m_filename row))
&& bool_decide (a_sha256 r = m_sha256 row).

(** INSERT IGNORE, then SELECT id. *)
Definition insert_attachment (st : store) (now : datetime) (row : att_meta)
  : store * option nat :=
let atts :=
  if existsb (att_is row) (attachments st) then attachments st
  else attachments st ++
       [AttachmentRow (m_unid row) (m_item_name row) (m_kind row)
          (Some (m_filename row)) None (Some (m_size_bytes row))
          (m_sha256 row) (m_storage_path row) (Some now)] in
(with_attachments st atts, select_id (att_is row) atts).

Definition with_checkpoints (st : store)
  (cs : gmap (nat * nat * string) checkpoint_row) : store :=
Store (items st) (item_values st) (doc_item_values st) (attachments st)
      (documents st) (document_views st) cs.

Definition load_checkpoint (st : store) (plan_id source_id : nat)
  (view_name : string) : option checkpoint_row :=
etl_checkpoints st !! (plan_id, source_id, view_name).

Definition upsert_checkpoint (st : store) (plan_id source_id : nat)
  (view_name sig : string) (next_idx : nat) (last : option string) : store :=
with_checkpoints st
  (<[(plan_id, source_id, view_name) := CheckpointRow sig next_idx last]>
     (etl_checkpoints st)).

(** *** The pipeline *)

Definition is_rich (it : item) : bool :=
match EmbeddedObjects it with [] => false | _ => true end
|| has_AppendText it || bool_decide (Type_ it = Some 1%Z).

Definition flatten_rich_text_item (it : item) : string := default "" (Text it).

(** [list(values_any) if isinstance(values_any, (list, tuple)) else [values_any]] *)
Definition as_list (values_any : values) : list pyval :=
match values_any with Tuple l => l | Scalar v => [v] end.

(** The body of the loop of [coerce_insert_item_values]. *)
Definition coerce_value (st : store) (unid : string) (item_id idx : nat)
  (rich : bool) (v : pyval) : store :=
match v with
| PBool b =>
    insert_item_value st unid item_id idx k_bool
      None None None None (Some (Z.b2z b)) None
| PInt n =>
    insert_item_value st unid item_id idx k_number
      None None (Some (float_of_int n)) None None None
| PFloat x =>
    insert_item_value st unid item_id idx k_number
      None None (Some x) None None None
| PDatetime _ =>
    insert_item_value st unid item_id idx k_datetime
      None None None (as_dt v) None None
| _ =>
    match as_dt v with
    | Some dt =>
        insert_item_value st unid item_id idx k_datetime
          None None None (Some dt) None None
    | None =>
        match v with
        | PNone =>
            insert_item_value st unid item_id idx k_unknown
              None None None None None None
        | _ =>
            let s := py_str v in
            if (String.length s <=? 1024)%nat then
              insert_item_value st unid item_id idx
                (if rich then k_richtext else k_string)
                (Some s) None None None None None
            else
              insert_item_value st unid item_id idx
                (if rich then k_richtext else k_text)
                (Some (Py.prefix 1024 s)) (Some s) None None None None
        end
    end
end.

Fixpoint coerce_from (st : store) (unid : string) (item_id : nat) (rich : bool)
  (idx : nat) (vals : list pyval) : store :=
match vals with
| [] => st
| v :: rest =>
    coerce_from (coerce_value st unid item_id idx rich v)
                unid item_id rich (S idx) rest
end.

Definition coerce_insert_item_values (st : store) (unid item_name : string)
  (values_any : values) (rich : bool) : store :=
let '(st1, item_id) := get_item_id st item_name in
coerce_from st1 unid item_id rich 0 (as_list values_any).

Definition type_ok (t : option Z) : bool :=
match t with
| Some n => (n =? EO_TYPE_IMAGE)%Z || (n =? EO_TYPE_OLE)%Z
            || (n =? EO_TYPE_ATTACHMENT)%Z
| None => false
end.

Definition kind_of_type (t : option Z) : att_kind :=
if bool_decide (t = Some EO_TYPE_ATTACHMENT) then a_attachment
else if bool_decide (t = Some EO_TYPE_IMAGE) then a_image else a_ole.

Section Extraction.
Variable CAS_ROOT : string.

(** The embedded objects of one item, numbered from [idx].  The second
  component is [None] when [cas_store] raises. *)
Fixpoint extract_objects (unid item_name tmp_dir : string)
  (fs : gmap string bytes) (idx : nat) (eos : list embedded)
  : gmap string bytes * option (list att_meta) :=
match eos with
| [] => (fs, Some [])
| eo :: rest =>
    let name := match eo_Name eo with
                | Some n => if Py.truthy n then n
                            else ("Unnamed_" ++ pretty idx)%string
                | None => ("Unnamed_" ++ pretty idx)%string
                end in
    if negb (type_ok (eo_Type eo))
    then extract_objects unid item_name tmp_dir fs (S idx) rest
    else
      let safe := Sanitize.sanitize_folder_name name 255 in
      let dest := (tmp_dir ++ "/" ++ safe)%string in
      match eo_file eo with
      | None => extract_objects unid item_name tmp_dir fs (S idx) rest
      | Some content =>
          let fs1 := <[dest := content]> fs in
          match Cas.cas_store sha256 CAS_ROOT fs1 dest with
          | None => (delete dest fs1, None)
          | Some (fs2, r) =>
              let meta := AttMeta unid (Some item_name)
                            (kind_of_type (eo_Type eo)) name
                            (Cas.put_size r) (Cas.put_digest r)
                            (Cas.put_rel r) in
              let '(fs3, more) :=
                extract_objects unid item_name tmp_dir
                  (delete dest fs2) (S idx) rest in
              (fs3, cons meta <$> more)
          end
      end
end.

Fixpoint extract_items (unid tmp_dir : string) (fs : gmap string bytes)
  (its : list item) : gmap string bytes * option (list att_meta) :=
match its with
| [] => (fs, Some [])
| it :: rest =>
    match extract_objects unid (Name it) tmp_dir fs 1 (EmbeddedObjects it) with
    | (fs1, None) => (fs1, None)
    | (fs1, Some out) =>
        let '(fs2, more) := extract_items unid tmp_dir fs1 rest in
        (fs2, app out <$> more)
    end
end.

Definition extract_embedded_attachments_from_doc (doc : notes_doc)
  (unid tmp_dir : string) (fs : gmap string bytes)
  : gmap string bytes * option (list att_meta) :=
extract_items unid tmp_dir fs (Items doc).

Definition get_doc_times (doc : notes_doc) : option datetime * option datetime :=
(as_dt (Created doc), as_dt (LastModified doc)).

Definition nl : string := String (ascii_of_nat 10) "".

Definition text_part (it : item) : option string :=
if is_rich it then
  let txt := flatten_rich_text_item it in
  if Py.truthy txt then Some (Name it ++ ":" ++ nl ++ txt ++ nl)%string
  else None
else
  let vals := Values it in
  if values_truthy vals then
    let sv := match vals with
              | Tuple l => Py.join "; " (map py_str l)
              | Scalar v => py_str v
              end in
    if Py.truthy sv && (String.length sv <=? 4096)%nat
    then Some (Name it ++ ": " ++ sv)%string else None
  else None.

Definition get_doc_text_body (doc : notes_doc) : string :=
Py.join nl (omap text_part (Items doc)).

Definition is_none (v : pyval) : bool :=
match v with PNone => true | _ => false end.

(** The first loop of [upsert_document_from_notes]: subject, form, author. *)
Definition scan_meta (acc : pyval * pyval * pyval) (it : item)
  : pyval * pyval * pyval :=
let '(subject, form, author) := acc in
let nm := Py.lower (Name it) in
if negb (values_truthy (Values it)) then acc
else
  let v0 := match Values it with
            | Tuple (v :: _) => v
            | Tuple [] => PNone
            | Scalar v => v
            end in
  let subject1 := if is_none subject && String.eqb nm "subject"
                  then v0 else subject in
  let form1 := if is_none form && String.eqb nm "form" then v0 else form in
  let author1 :=
    if is_none author && (String.eqb nm "author" || String.eqb nm "from"
                          || String.eqb nm "postedby")
    then v0 else author in
  (subject1, form1, author1).

Definition doc_row_of (doc : notes_doc) (attachments_meta : list att_meta)
  : document_row :=
let '(subject, form, author) := foldl scan_meta (PNone, PNone, PNone) (Items doc) in
let '(created_at, modified_at) := get_doc_times doc in
let body := get_doc_text_body doc in
let hash := if Py.truthy body then Some (sha256_bytes (Py.utf8 body)) else None in
let has_atts := match attachments_meta with [] => 0%Z | _ => 1%Z end in
let note_id_hex := let n := Py.strip (NoteID doc) in
                   if Py.truthy n then Some n else None in
DocumentRow 0 note_id_hex (safe_str form FORM_MAX)
  (safe_str subject SUBJECT_MAX) (safe_str author AUTHOR_MAX)
  created_at modified_at has_atts hash (Some body)
  (if Py.truthy body then Some (length (Py.utf8 body)) else None).

(** The body of the items loop. *)
Definition store_item (unid : string) (st : store) (it : item) : store :=
let name := Name it in
if negb (should_store_item st name) then st
else if is_rich it then
  coerce_insert_item_values st unid name
    (Scalar (PStr (flatten_rich_text_item it))) true
else
  match Values it with
  | Scalar PNone => st
  | vals => coerce_insert_item_values st unid name vals false
  end.

Record stats := Stats {
scanned : nat; upserted : nat; atts : nat; errors : nat
}.

(** The body of the attachments loop. *)
Definition save_attachment (now : datetime)
  (acc : store * gmap string nat * stats) (meta : att_meta)
  : store * gmap string nat * stats :=
let '(st, ids, sts) := acc in
let '(st1, att_id) := insert_attachment st now meta in
let ids1 := match att_id with
            | Some a => <[m_filename meta := a]> ids
            | None => ids
            end in
(st1, ids1, Stats (scanned sts) (upserted sts) (S (atts sts)) (errors sts)).

Fixpoint link_files_from (st : store) (unid : string) (item_id : nat)
  (ids : gmap string nat) (i : nat) (vals : list pyval) : store :=
match vals with
| [] => st
| fn :: rest =>
    let fn_s := py_str fn in
    link_files_from
      (insert_item_value st unid item_id i k_string
         (Some fn_s) None None None None (ids !! fn_s))
      unid item_id ids (S i) rest
end.

(** The body of the $FILE loop. *)
Definition link_file_item (unid : string) (ids : gmap string nat)
  (st : store) (it : item) : store :=
if negb (String.eqb (Name it) "$FILE") then st
else if negb (should_store_item st "$FILE") then st
else
  let '(st1, item_id) := get_item_id st "$FILE" in
  let vals := match Values it with
              | Tuple l => l
              | Scalar v => if py_truthy v then [v] else []
              end in
  link_files_from st1 unid item_id ids 0 vals.

(** A connection: the durable state, the state the open transaction
  sees, and (for the statements about durability) every state that
  was ever made durable, oldest first. *)
Record conn := Conn {
committed : store;
pending : store;
commits : list store
}.

Definition connect (st : store) : conn := Conn st st [].

Definition commit (c : conn) : conn :=
Conn (pending c) (pending c) (commits c ++ [pending c]).

Definition execute (c : conn) (f : store -> store) : conn :=
Conn (committed c) (f (pending c)) (commits c).

Inductive outcome := Raised | Returned (unid : string).

(** Everything [upsert_document_from_notes] sends to the cursor. *)
Definition upsert_statements (doc : notes_doc) (source_id : nat)
  (unid : string) (attachments_meta : list att_meta) (now : datetime)
  (st : store) (sts : stats) : store * stats :=
let st1 := upsert_document st source_id unid (doc_row_of doc attachments_meta) in
let sts1 := Stats (scanned sts) (S (upserted sts)) (atts sts) (errors sts) in
let st2 := foldl (store_item unid) st1 (Items doc) in
let '(st3, ids, sts2) :=
  foldl (save_attachment now) (st2, ∅, sts1) attachments_meta in
(foldl (link_file_item unid ids) st3 (Items doc), sts2).

Definition upsert_document_from_notes (doc : notes_doc) (source_id : nat)
  (con : conn) (tmp_dir : string) (sts : stats)
  (fs : gmap string bytes) (now : datetime)
  : gmap string bytes * conn * stats * outcome :=
match UniversalID doc with
| None => (fs, con, sts, Returned "")
| Some unid =>
    if negb (Py.truthy unid) then (fs, con, sts, Returned "")
    else
      match extract_embedded_attachments_from_doc doc unid tmp_dir fs with
      | (fs1, None) => (fs1, con, sts, Raised)
      | (fs1, Some attachments_meta) =>
          let '(st, sts1) :=
            upsert_statements doc source_id unid attachments_meta now
              (pending con) sts in
          (fs1, commit (execute con (fun _ => st)), sts1, Returned unid)
      end
end.

End Extraction.

End WithRuntime.

End Sink.

(** ** The checkpointed view loop: [process_view_into_db] *)

Module Checkpoint.

Import Sink.
Local Open Scope list_scope.

Section WithRuntime.
Context {rt : Runtime}.
Variable CAS_ROOT : string.

(** A snapshot row: the UNID and the category path. *)
Abbreviation entry := (string * option string)%type.

Definition _sig_for_snapshot (rows : list entry) : string :=
Cas.hex (sha256 (concat (map (fun r => Py.utf8 (fst r) ++ [Byte.x00]) rows))).

(** What [GetDocumentByUNID] under [resilient_com_with_reopen] comes back
  with. *)
Inductive fetched :=
| FetchRaises
| NotFound
| Found (doc : notes_doc).

Definition add_error (sts : stats) : stats :=
Stats (scanned sts) (upserted sts) (atts sts) (S (errors sts)).

Definition add_scanned (sts : stats) : stats :=
Stats (S (scanned sts)) (upserted sts) (atts sts) (errors sts).

(** The body of the loop over a batch. *)
Definition process_entry (get_doc : string -> fetched) (source_id : nat)
  (view_name tmp_dir : string) (now : datetime)
  (acc : gmap string bytes * conn * stats) (e : entry)
  : gmap string bytes * conn * stats :=
let '(fs, con, sts) := acc in
let '(unid, cp) := e in
match get_doc unid with
| FetchRaises | NotFound => (fs, con, add_error sts)
| Found doc =>
    match upsert_document_from_notes CAS_ROOT doc source_id con tmp_dir sts fs now with
    | (fs1, con1, sts1, Raised) => (fs1, con1, add_error sts1)
    | (fs1, con1, sts1, Returned u) =>
        let con2 := if Py.truthy u
                    then execute con1 (fun st => insert_document_view st u view_name cp)
                    else con1 in
        (fs1, con2, add_scanned sts1)
    end
end.

Inductive status := Done | ViewError.

(** The while loop; [None] when it is still running after [fuel] batches.
  [view_alive i] tells whether the probe of the view handle before the
  batch that starts at [i] succeeds. *)
Fixpoint process_batches (fuel : nat) (get_doc : string -> fetched)
  (view_alive : nat -> bool) (snapshot : list entry) (sig : string)
  (source_id : nat) (view_name tmp_dir : string) (now : datetime)
  (plan_id : option nat) (batch_size : nat) (next_idx : nat)
  (acc : gmap string bytes * conn * stats)
  : option (gmap string bytes * conn * stats * status) :=
match fuel with
| O => None
| S f =>
    let total := length snapshot in
    if (total <=? next_idx)%nat then Some (acc, Done)
    else
      let end_ := Nat.min (next_idx + batch_size) total in
      let batch := take (end_ - next_idx) (drop next_idx snapshot) in
      if negb (view_alive next_idx) then Some (acc, ViewError)
      else
        let '(fs1, con1, sts1) :=
          foldl (process_entry get_doc source_id view_name tmp_dir now) acc batch in
        let con2 := commit con1 in
        let con3 :=
          match plan_id with
          | Some pid =>
              commit (execute con2 (fun st =>
                upsert_checkpoint st pid source_id view_name sig end_
                  (fst <$> last batch)))
          | None => con2
          end in
        process_batches f get_doc view_alive snapshot sig source_id
          view_name tmp_dir now plan_id batch_size end_ (fs1, con3, sts1)
end.

(** Where the loop starts: the stored [next_index] when the stored
  signature is the snapshot's, else 0. *)
Definition start_index (st : store) (plan_id : option nat) (source_id : nat)
  (view_name sig : string) : nat :=
match plan_id with
| Some pid =>
    match load_checkpoint st pid source_id view_name with
    | Some ckpt => if String.eqb (snapshot_sig ckpt) sig then next_index ckpt else 0
    | None => 0
    end
| None => 0
end.

Definition process_view_into_db (fuel : nat) (get_doc : string -> fetched)
  (view_alive : nat -> bool) (snapshot : list entry)
  (source_id : nat) (view_name tmp_dir : string) (now : datetime)
  (plan_id : option nat) (batch_size : nat)
  (acc : gmap string bytes * conn * stats)
  : option (gmap string bytes * conn * stats * status) :=
let sig := _sig_for_snapshot snapshot in
let next_idx := start_index (pending (acc.1.2)) plan_id source_id view_name sig in
process_batches fuel get_doc view_alive snapshot sig source_id view_name
  tmp_dir now plan_id batch_size next_idx acc.

End WithRuntime.

End Checkpoint.

(** ** A stand-in runtime, for the closed examples

    The digest is the identity and numbers and dates are integers: the
    examples below never look inside a digest, a float or a date. *)

Module Demo.

#[export] Instance runtime : Sink.Runtime := {|
  Sink.sha256 := fun b => b;
  Sink.number := Z;
  Sink.float_of_int := fun n => n;
  Sink.number_truthy := fun n => negb (n =? 0)%Z;
  Sink.str_number := fun n => pretty n;
  Sink.datetime := Z;
  Sink.fromisoformat := fun _ => None;
  Sink.utc_naive := fun d => d;
  Sink.str_datetime := fun d => pretty d;
  Sink.strftime := fun d => pretty d
|}.

End Demo.

(** ** [retry_call], [resilient_com], [resilient_com_with_reopen] *)

Module Retry.

Local Open Scope list_scope.

Definition RETRY_COM_TRIES : Z := 6.
Definition RETRY_COM_BACKOFF : float := 1.5%float.
Definition RETRY_DB_TRIES : Z := 3.
Definition RETRY_DB_BACKOFF : float := 1.0%float.

(** What [_is_transient_com_error] reads of an exception: its text, and
    for a COM error the description in [exc.args[2][2]] when there is a
    non-empty one. *)
Record com_exception := ComException {
  message : string;
  com_description : option string
}.

Definition _TRANSIENT_COM_SUBSTRINGS : list string :=
  ["Network"; "The server is not responding"; "Timed out";
   "Argument has been deleted"; "Object variable not set";
   "NotesViewEntryCollection"; "unable to find path to server";
   "no network connection"; "port error"].

Fixpoint starts_with (p l : list ascii) : bool :=
  match p, l with
  | [], _ => true
  | _ :: _, [] => false
  | a :: p', b :: l' => Ascii.eqb a b && starts_with p' l'
  end.

(** [needle in hay] on strings. *)
Fixpoint contains_chars (p l : list ascii) : bool :=
  starts_with p l ||
  match l with
  | [] => false
  | _ :: l' => contains_chars p l'
  end.

Definition contains (needle hay : string) : bool :=
  contains_chars (Py.chars needle) (Py.chars hay).

Definition _is_transient_com_error (exc : com_exception) : bool :=
  let msg := match com_description exc with
             | Some d => (message exc ++ " :: " ++ d)%string
             | None => message exc
             end in
  let mlow := Py.lower msg in
  existsb (fun s => contains (Py.lower s) mlow) _TRANSIENT_COM_SUBSTRINGS.

Section WithCall.
(** What the call returns and what it raises. *)
Variables (A exn : Type).
(** The [n]-th call of [fn] (counting from 0) raises or returns. *)
Variable call : nat -> exn + A.
(** [time.sleep(d)]: [None] when it returns, the exception when it raises
    (a negative or non-finite [d]). *)
Variable sleep : float -> option exn.

Inductive result :=
| Return (a : A)
| Raise (e : exn)
| AssertionError      (* assert last_exc is not None *)
| RaiseNone.          (* raise last_exc, with last_exc None *)

(** How a run ended: the calls of [fn] made, the delays handed to
    [time.sleep] in order, the reopens made, and the result. *)
Record run := Run {
  calls : nat;
  slept : list float;
  reopens : nat;
  outcome : result
}.

Section RetryCall.
Variable is_retryable : exn -> bool.

(** The while loop of [retry_call]; [left] is [tries - attempt]. *)
Fixpoint retry_loop (left attempt : nat) (delay : float) (last_exc : option exn)
    (sl : list float) : run :=
  match left with
  | O => Run attempt sl 0
           match last_exc with Some e => Raise e | None => AssertionError end
  | S left' =>
      match call attempt with
      | inr a => Run (S attempt) sl 0 (Return a)
      | inl e =>
          if negb (is_retryable e) then Run (S attempt) sl 0 (Raise e)
          else if (left' =? 0)%nat then Run (S attempt) sl 0 (Raise e)
          else
            match sleep delay with
            | Some e' => Run (S attempt) (sl ++ [delay]) 0 (Raise e')
            | None =>
                retry_loop left' (S attempt) (delay * 2)%float (Some e)
                  (sl ++ [delay])
            end
      end
  end.

Definition retry_call (tries : Z) (backoff_sec : float) : run :=
  retry_loop (Z.to_nat tries) 0 backoff_sec None [].

End RetryCall.

End WithCall.

Arguments Return {A exn} a.
Arguments Raise {A exn} e.
Arguments AssertionError {A exn}.
Arguments RaiseNone {A exn}.
Arguments Run {A exn} calls slept reopens outcome.
Arguments calls {A exn} r.
Arguments slept {A exn} r.
Arguments reopens {A exn} r.
Arguments outcome {A exn} r.

Section Com.
Variable A : Type.
Variable call : nat -> com_exception + A.
Variable sleep : float -> option com_exception.

Definition resilient_com : run A com_exception :=
  retry_call A com_exception call sleep _is_transient_com_error
    RETRY_COM_TRIES RETRY_COM_BACKOFF.

(** The while loop of [resilient_com_with_reopen].  The reopen raises or
    not, nobody looks. *)
Fixpoint reopen_loop (left attempt : nat) (delay : float)
    (last_exc : option com_exception) (sl : list float) (ro : nat)
    : run A com_exception :=
  match left with
  | O => Run attempt sl ro
           match last_exc with Some e => Raise e | None => RaiseNone end
  | S left' =>
      match call attempt with
      | inr a => Run (S attempt) sl ro (Return a)
      | inl e =>
          if negb (_is_transient_com_error e) then Run (S attempt) sl ro (Raise e)
          else
            match sleep delay with
            | Some e' => Run (S attempt) (sl ++ [delay]) ro (Raise e')
            | None =>
                reopen_loop left' (S attempt) (delay * 2)%float (Some e)
                  (sl ++ [delay]) (S ro)
            end
      end
  end.

Definition resilient_com_with_reopen : run A com_exception :=
  reopen_loop (Z.to_nat RETRY_COM_TRIES) 0 RETRY_COM_BACKOFF None [] 0.

End Com.

End Retry.

(** ** [with_backoff] *)

Module Backoff.

Import Limiter.
Local Open Scope list_scope.

Definition MAX_ATTEMPTS : nat := 8.

(** What [with_backoff] reads of a response: the status and the
    [Retry-After] header. *)
Record response := Response {
  status_code : Z;
  retry_after : option string
}.

Definition is_success (r : response) : bool :=
  ((status_code r =? 200) || (status_code r =? 201) || (status_code r =? 204))%Z.

Definition is_throttle (r : response) : bool :=
  ((status_code r =? 429) || (status_code r =? 503) || (status_code r =? 504))%Z.

(** A call of [time.sleep]: the limiter's nap or the wait before a retry. *)
Inductive pause :=
| Nap (seconds : Z)
| Wait (seconds : float).

(** The limiter is a module-level object: the state a call starts from and
    leaves behind, with the requests sent and the pauses made. *)
Record state := State {
  lim : limiter;
  requests : nat;
  pauses : list pause
}.

Section WithSession.
Variable exn : Type.
(** [session_fn(url, ...)] for the [n]-th request of the call: a response,
    or an exception of [requests]. *)
Variable send : nat -> exn + response.
(** [float(ra)]; [None] when it raises. *)
Variable float_of_str : string -> option float.
(** [random.uniform(a, b)], as drawn while request [n] is handled. *)
Variable uniform : nat -> float -> float -> float.
(** [time.sleep(d)]: [None] when it returns. *)
Variable sleep : float -> option exn.

Inductive outcome :=
| Returned (r : response)
| HttpError (r : response)       (* RuntimeError: HTTP status and detail *)
| Exceeded                       (* RuntimeError: exceeded retry attempts *)
| Raised (e : exn).

Definition jittered (n : nat) (delay : float) : float :=
  (delay + uniform n 0 (0.5 * delay))%float.

Definition wait_for (n : nat) (delay : float) (resp : response) : float :=
  match retry_after resp with
  | Some ra =>
      if Py.truthy ra then
        match float_of_str ra with
        | Some w => w
        | None => jittered n delay
        end
      else jittered n delay
  | None => jittered n delay
  end.

Definition nap_pause (nap : option Z) : list pause :=
  match nap with Some s => [Nap s] | None => [] end.

(** The for loop; [left] attempts are left. *)
Fixpoint backoff_loop (left : nat) (delay : float) (st : state) : state * outcome :=
  match left with
  | O => (st, Exceeded)
  | S left' =>
      let n := requests st in
      match send n with
      | inl e => (State (lim st) (S n) (pauses st), Raised e)
      | inr resp =>
          if is_success resp then
            (State (note_success (lim st)) (S n) (pauses st), Returned resp)
          else if is_throttle resp then
            let l1 := (note_service_error (lim st)).1 in
            let nap := (note_service_error (lim st)).2 in
            let wait := wait_for n delay resp in
            let delay1 := fmin (delay * 2)%float 30%float in
            let st1 := State l1 (S n) (pauses st ++ nap_pause nap ++ [Wait wait]) in
            match sleep wait with
            | Some e => (st1, Raised e)
            | None => backoff_loop left' delay1 st1
            end
          else (State (lim st) (S n) (pauses st), HttpError resp)
      end
  end.

Definition with_backoff (l : limiter) : state * outcome :=
  backoff_loop MAX_ATTEMPTS 1.0%float (State l 0 []).

End WithSession.

Arguments Returned {exn} r.
Arguments HttpError {exn} r.
Arguments Exceeded {exn}.
Arguments Raised {exn} e.

End Backoff.

(** ** [batch_get_managers] *)

Module BatchManagers.

Import Limiter Backoff.
Local Open Scope list_scope.
#[local] Set Warnings "-inexact-float".

Definition BATCH_LIMIT : nat := 10.
Definition INTER_BATCH_SLEEP : float := 0.40%float.

(** One entry of the [responses] array of a [$batch] answer, as the loop
    reads it. *)
Record sub_response := SubResponse {
  rid : option string;              (* item.get(id), when it is a string *)
  status : Z;                       (* int(item.get(status, 0)) *)
  body_id : option string;          (* body[id], when id is in body *)
  sub_retry_after : option string   (* the retry-after header *)
}.

(** The state of the loop: the map built so far, the queue of (user id,
    attempts left), the shared limiter, the batches posted and the pauses
    made. *)
Record bstate := BState {
  manager_map : gmap string (option string);
  queue : list (string * nat);
  blim : limiter;
  batches : nat;
  bpauses : list pause
}.

Inductive failure (exn : Type) :=
| PostFailed (o : outcome exn)    (* graph_post_json raised *)
| KeyError                        (* id2uid[rid] *)
| SleepFailed (e : exn).

Arguments PostFailed {exn} o.
Arguments KeyError {exn}.
Arguments SleepFailed {exn} e.

(** [{str(i+1): chunk[i] for i in range(len(chunk))}] *)
Definition id2uid_of (chunk : list (string * nat)) : gmap string (string * nat) :=
  foldl (fun m ic => <[pretty (S (fst ic)) := snd ic]> m) ∅ (imap pair chunk).

Definition set_manager (st : bstate) (uid : string) (m : option string) : bstate :=
  BState (<[uid := m]> (manager_map st)) (queue st) (blim st) (batches st)
    (bpauses st).

Section WithGraph.
Variable exn : Type.
(** The [n]-th HTTP exchange of the POST of batch [b]. *)
Variable send : nat -> nat -> exn + response.
(** The [responses] of the JSON that came back for batch [b], which asked
    for the managers of these users. *)
Variable answers : nat -> list string -> list sub_response.
Variable float_of_str : string -> option float.
(** [random.uniform], as drawn inside [with_backoff] (batch, request) and
    for a throttled entry (batch, position). *)
Variable uniform : nat -> nat -> float -> float -> float.
Variable uniform_sub : nat -> nat -> float -> float -> float.
Variable sleep : float -> option exn.

Definition wait_sub (b k : nat) (it : sub_response) : float :=
  match sub_retry_after it with
  | Some ra =>
      if Py.truthy ra then
        match float_of_str ra with
        | Some w => w
        | None => uniform_sub b k 1.0 3.0
        end
      else uniform_sub b k 1.0 3.0
  | None => uniform_sub b k 1.0 3.0
  end.

(** The body of the loop over the responses. *)
Definition handle (b : nat) (id2uid : gmap string (string * nat)) (k : nat)
    (st : bstate) (it : sub_response) : bstate * option (failure exn) :=
  match rid it ≫= (fun r => id2uid !! r) with
  | None => (st, Some KeyError)
  | Some (uid, attempts_left) =>
      if (status it =? 200)%Z && bool_decide (is_Some (body_id it)) then
        (set_manager st uid (body_id it), None)
      else if ((status it =? 404) || (status it =? 204))%Z then
        (set_manager st uid None, None)
      else if ((status it =? 429) || (status it =? 503) || (status it =? 504))%Z then
        let l1 := (note_service_error (blim st)).1 in
        let nap := (note_service_error (blim st)).2 in
        let wait := wait_sub b k it in
        let st1 := BState (manager_map st) (queue st) l1 (batches st)
                     (bpauses st ++ nap_pause nap) in
        if (1 <? attempts_left)%nat then
          match sleep wait with
          | Some e =>
              (BState (manager_map st) (queue st) l1 (batches st)
                 (bpauses st1 ++ [Wait wait]), Some (SleepFailed e))
          | None =>
              (BState (manager_map st) (queue st ++ [(uid, attempts_left - 1)]) l1
                 (batches st) (bpauses st1 ++ [Wait wait]), None)
          end
        else (set_manager st1 uid None, None)
      else (set_manager st uid None, None)
  end.

Fixpoint handle_all (b : nat) (id2uid : gmap string (string * nat)) (k : nat)
    (items : list sub_response) (st : bstate) : bstate * option (failure exn) :=
  match items with
  | [] => (st, None)
  | it :: rest =>
      match handle b id2uid k st it with
      | (st1, Some fl) => (st1, Some fl)
      | (st1, None) => handle_all b id2uid (S k) rest st1
      end
  end.

(** The while loop; [None] when it is still running after [fuel] batches. *)
Fixpoint batch_loop (fuel : nat) (st : bstate) : option (bstate * option (failure exn)) :=
  match fuel with
  | O => None
  | S f =>
      match queue st with
      | [] => Some (st, None)
      | _ :: _ =>
          let chunk := take BATCH_LIMIT (queue st) in
          let rest := drop BATCH_LIMIT (queue st) in
          let b := batches st in
          let posted :=
            with_backoff exn (send b) float_of_str (uniform b) sleep (blim st) in
          let st0 := BState (manager_map st) rest (lim posted.1) (S b)
                       (bpauses st ++ pauses posted.1) in
          match posted.2 with
          | Returned _ =>
              match handle_all b (id2uid_of chunk) 0 (answers b (fst <$> chunk)) st0 with
              | (st1, Some fl) => Some (st1, Some fl)
              | (st1, None) =>
                  match sleep INTER_BATCH_SLEEP with
                  | Some e => Some (st1, Some (SleepFailed e))
                  | None =>
                      batch_loop f (BState (manager_map st1) (queue st1) (blim st1)
                               (batches st1)
                               (bpauses st1 ++ [Wait INTER_BATCH_SLEEP]))
                  end
              end
          | out => Some (st0, Some (PostFailed out))
          end
      end
  end.

Definition batch_get_managers (fuel : nat) (l : limiter) (user_ids : list string)
    : option (bstate * option (failure exn)) :=
  batch_loop fuel (BState ∅ ((fun uid => (uid, MAX_ATTEMPTS)) <$> user_ids) l 0 []).

End WithGraph.

End BatchManagers.

(** * Theorems *)

(** ** Folder-name sanitisation *)

Module SanitizeFacts.

Import Sanitize.
Local Open Scope list_scope.

Lemma length_str (l : list ascii) : String.length (Py.str l) = length l.
Proof.
  unfold Py.str. induction l as [|c l IH]; simpl; [reflexivity | by rewrite IH].
Qed.

Lemma length_lstrip_by p l : length (Py.lstrip_by p l) <= length l.
Proof.
  induction l as [|c l IH]; simpl; [lia|]. destruct (p c); simpl; lia.
Qed.

Lemma length_strip_by p l : length (Py.strip_by p l) <= length l.
Proof.
  unfold Py.strip_by. rewrite length_rev.
  etrans; [apply length_lstrip_by|]. rewrite length_rev. apply length_lstrip_by.
Qed.

(** Whatever the input, the result has at most [max_len] characters (the
    fallback name has seven). *)
Lemma sanitize_length name max_len :
  7 <= max_len -> String.length (sanitize_folder_name name max_len) <= max_len.
Proof.
  intros Hm. unfold sanitize_folder_name.
  destruct (negb (Py.truthy name) || negb (Py.truthy (Py.strip name))).
  - simpl. lia.
  - cbv zeta. rewrite length_str. etrans; [apply length_strip_by|].
    rewrite length_take. lia.
Qed.

Lemma elem_of_lstrip_by p l c : c ∈ Py.lstrip_by p l -> c ∈ l.
Proof.
  induction l as [|d l IH]; simpl; [done|].
  destruct (p d); [|done]. intros H. right. by apply IH.
Qed.

Lemma elem_of_strip_by p l c : c ∈ Py.strip_by p l -> c ∈ l.
Proof.
  unfold Py.strip_by. rewrite list_elem_of_In, <- in_rev, <- list_elem_of_In.
  intros H%elem_of_lstrip_by.
  rewrite list_elem_of_In, <- in_rev, <- list_elem_of_In in H.
  by apply elem_of_lstrip_by in H.
Qed.

Lemma collapse_clean b l c :
  c ∈ collapse b l -> c = underscore \/ (c ∈ l /\ sep c = false).
Proof.
  revert b. induction l as [|d l IH]; intros b; simpl; [by intros ?%elem_of_nil|].
  destruct (sep d) eqn:Hd.
  - destruct b.
    + intros H. destruct (IH _ H) as [->|[? ?]]; [by left|right; split; [by right|done]].
    + intros [->|H]%elem_of_cons; [by left|].
      destruct (IH _ H) as [->|[? ?]]; [by left|right; split; [by right|done]].
  - intros [->|H]%elem_of_cons; [right; split; [by left|done]|].
    destruct (IH _ H) as [->|[? ?]]; [by left|right; split; [by right|done]].
Qed.

(** Past the fallback, no character of the result is forbidden or white. *)
Lemma sanitize_chars name max_len c :
  sanitize_folder_name name max_len <> "Unnamed"%string ->
  c ∈ Py.chars (sanitize_folder_name name max_len) ->
  forbidden c = false /\ Py.isspace c = false.
Proof.
  unfold sanitize_folder_name.
  destruct (negb (Py.truthy name) || negb (Py.truthy (Py.strip name))); [done|].
  intros _. cbv zeta. unfold Py.chars at 1, Py.str.
  rewrite list_ascii_of_string_of_list_ascii.
  intros H%elem_of_strip_by. apply elem_of_take in H as (i & H & _).
  apply list_elem_of_lookup_2 in H. apply collapse_clean in H as [->|[H Hs]].
  - by vm_compute.
  - unfold sub_forbidden in H. apply list_elem_of_fmap in H as (d & -> & _).
    unfold sep in Hs. apply orb_false_iff in Hs as [Hs _].
    split; [|done]. destruct (forbidden d) eqn:Hd; [by vm_compute|done].
Qed.

(** C8.  The guard of [sanitize_folder_name] returns the fallback name only
    for a blank input: a name made of forbidden characters passes the
    guard, becomes a single underscore and is stripped to the empty
    string.  The sanitised result is therefore empty on the input [?],
    where the claim promises at least the fallback name. *)
Theorem sanitize_folder_name_can_be_empty :
  sanitize_component "?" = ""%string /\ sanitize_component "?" <> "Unnamed"%string.
Proof. split; [reflexivity | discriminate]. Qed.

End SanitizeFacts.

(** ** The adaptive limiter *)

Module LimiterFacts.

Import Limiter.
Local Open Scope Z_scope.
#[local] Set Warnings "-inexact-float".

(** C7.  A service error that raises the counter to 6 halves [page_size]
    with floor 25, raises [page_sleep] by 0.5 capped at 3.0, resets the
    counter and naps 30 seconds; one that raises it to 3 or 4 raises
    [page_sleep] by 0.25 capped at 2.0 and changes nothing else; a success
    decrements the counter, stopping at 0. *)
Theorem limiter_steps (l : limiter) :
  (consec_service_errors l + 1 = 6 ->
     note_service_error l =
       (Mk 0 (fmin (page_sleep l + 0.5)%float 3.0%float)
           (Z.max 25 (page_size l / 2)), Some 30))
  /\ (consec_service_errors l + 1 = 3 \/ consec_service_errors l + 1 = 4 ->
     note_service_error l =
       (Mk (consec_service_errors l + 1)
           (fmin (page_sleep l + 0.25)%float 2.0%float) (page_size l), None))
  /\ note_success l =
       Mk (Z.max 0 (consec_service_errors l - 1)) (page_sleep l) (page_size l).
Proof.
  split; [|split; [|reflexivity]].
  - intros H. unfold note_service_error. rewrite H. reflexivity.
  - intros [H|H]; unfold note_service_error; rewrite H; reflexivity.
Qed.

Lemma limiter_steps_witness :
  note_service_error (Mk 5 0.35%float 100) = (Mk 0 0.85%float 50, Some 30)
  /\ note_service_error (Mk 2 0.35%float 100) = (Mk 3 (0.35 + 0.25)%float 100, None)
  /\ note_success (Mk 1 0.35%float 100) = Mk 0 0.35%float 100.
Proof.
  split; [|split].
  - rewrite (proj1 (limiter_steps (Mk 5 0.35%float 100))); [reflexivity|reflexivity].
  - rewrite (proj1 (proj2 (limiter_steps (Mk 2 0.35%float 100))));
      [reflexivity | left; reflexivity].
  - rewrite (proj2 (proj2 (limiter_steps (Mk 1 0.35%float 100)))). reflexivity.
Defined.

(** The counter never reaches 7: from a counter in 0..5 it stays there. *)
Lemma counter_bounded (l : limiter) :
  0 <= consec_service_errors l <= 5 ->
  0 <= consec_service_errors (note_service_error l).1 <= 5
  /\ 0 <= consec_service_errors (note_success l) <= 5.
Proof.
  intros H. unfold note_service_error, note_success, MAX_CONSEC_SERVICE_ERRORS.
  destruct (Z.leb_spec 6 (consec_service_errors l + 1)); simpl; lia.
Qed.

End LimiterFacts.

(** ** The content-addressed store *)

Module CasFacts.

Import Cas.

Lemma append_inj_l (a b c : string) : (a ++ b = a ++ c)%string -> b = c.
Proof. apply String.app_inj. Qed.

Lemma append_assoc (a b c : string) : ((a ++ b) ++ c = a ++ (b ++ c))%string.
Proof.
  induction a as [|x a IH]; [done|].
  change (String x ((a ++ b) ++ c) = String x (a ++ (b ++ c)))%string.
  by rewrite IH.
Qed.

Section WithHash.
Variable sha256 : bytes -> bytes.
Variable CAS_ROOT : string.

Lemma dest_not_tmp h : dest_path CAS_ROOT h <> tmp_path CAS_ROOT h.
Proof.
  unfold dest_path, tmp_path, relpath. intros H.
  do 3 apply append_inj_l in H. discriminate.
Qed.

(** The value [cas_store] returns depends on the content of [src] only. *)
Lemma cas_store_result fs src fs1 r :
  cas_store sha256 CAS_ROOT fs src = Some (fs1, r) ->
  exists X, fs !! src = Some X
    /\ put_digest r = sha256 X
    /\ put_rel r = relpath (hex (sha256 X))
    /\ put_size r = length X.
Proof.
  unfold cas_store. destruct (fs !! src) as [X|]; [|done].
  intros H. exists X. split; [done|].
  destruct (fs !! dest_path CAS_ROOT (hex (sha256 X))).
  - by injection H as <- <-.
  - destruct (decide _); [done|]. by injection H as <- <-.
Qed.

(** C9.  Two calls of [cas_store] on a file of content [X] return the same
    digest, [sha256 X], and the same relative path,
    [hex[0:2]/hex[2:4]/hex.bin]; the second call copies nothing and leaves
    the file system as the first left it, because the destination
    exists. *)
Theorem cas_store_twice (fs : gmap string bytes) (src : string) (X : bytes) :
  fs !! src = Some X ->
  src <> tmp_path CAS_ROOT (hex (sha256 X)) ->
  let h := hex (sha256 X) in
  let rel := (substring 0 2 h ++ "/" ++ substring 2 2 h ++ "/" ++ h ++ ".bin")%string in
  exists fs1 copied,
    cas_store sha256 CAS_ROOT fs src
      = Some (fs1, PutResult (sha256 X) rel (length X) copied)
    /\ is_Some (fs1 !! (CAS_ROOT ++ "/" ++ rel)%string)
    /\ cas_store sha256 CAS_ROOT fs1 src
      = Some (fs1, PutResult (sha256 X) rel (length X) false).
Proof.
  intros Hsrc Htmp h rel.
  assert (Hrel : relpath h = rel).
  { unfold relpath, relpath_stem, rel. by rewrite !append_assoc. }
  assert (Hdest : dest_path CAS_ROOT h = (CAS_ROOT ++ "/" ++ rel)%string).
  { unfold dest_path. by rewrite Hrel. }
  unfold cas_store. rewrite Hsrc. fold h. rewrite Hrel.
  destruct (fs !! dest_path CAS_ROOT h) as [Y|] eqn:Hd.
  - exists fs, false. rewrite Hsrc. fold h. rewrite Hd, Hrel, <- Hdest, Hd. eauto.
  - destruct (decide (src = tmp_path CAS_ROOT h)) as [->|_]; [done|].
    eexists _, true. split; [reflexivity|].
    assert (src <> dest_path CAS_ROOT h) by congruence.
    rewrite <- Hdest, lookup_insert_eq.
    rewrite lookup_insert_ne, lookup_delete_ne, lookup_insert_ne, Hsrc by done.
    fold h. rewrite Hrel, lookup_insert_eq. eauto.
Qed.

(** Whenever the first call returns, so does the second, with the same
    triple and without copying. *)
Lemma cas_store_again fs src fs1 r :
  cas_store sha256 CAS_ROOT fs src = Some (fs1, r) ->
  cas_store sha256 CAS_ROOT fs1 src
    = Some (fs1, PutResult (put_digest r) (put_rel r) (put_size r) false).
Proof.
  unfold cas_store. destruct (fs !! src) as [X|] eqn:Hsrc; [|done].
  destruct (fs !! dest_path CAS_ROOT (hex (sha256 X))) as [Y|] eqn:Hd.
  - intros [= <- <-]. by rewrite Hsrc, Hd.
  - destruct (decide _) as [|Hne]; [done|]. intros [= <- <-].
    assert (src <> dest_path CAS_ROOT (hex (sha256 X))) by congruence.
    rewrite lookup_insert_ne, lookup_delete_ne, lookup_insert_ne, Hsrc by done.
    by rewrite lookup_insert_eq.
Qed.

End WithHash.

Definition demo_fs : gmap string bytes := {[ "in.dat"%string := [Byte.x01; Byte.xff] ]}.

Lemma cas_store_twice_witness :
  exists fs1 copied,
    cas_store (fun b => b) "cas" demo_fs "in.dat"
      = Some (fs1, PutResult [Byte.x01; Byte.xff] "01/ff/01ff.bin" 2 copied)
    /\ is_Some (fs1 !! "cas/01/ff/01ff.bin"%string)
    /\ cas_store (fun b => b) "cas" fs1 "in.dat"
      = Some (fs1, PutResult [Byte.x01; Byte.xff] "01/ff/01ff.bin" 2 false).
Proof.
  apply (cas_store_twice (fun b => b) "cas" demo_fs "in.dat" [Byte.x01; Byte.xff]).
  - reflexivity.
  - discriminate.
Defined.

End CasFacts.

(** ** The managers file *)

Module ManagersFacts.

Import Managers.
Local Open Scope list_scope.

Section WithRepr.
Variable py_repr : json -> string.

#[local] Abbreviation py_str := (py_str py_repr).
#[local] Abbreviation str_or_none := (str_or_none py_repr).
#[local] Abbreviation load_managers_file := (load_managers_file py_repr).
#[local] Abbreviation cmap := (gmap string (option string)).

(** What one element of the input says about the child [c]: the manager
    it assigns to [c], if it mentions [c] at all. *)

(** An item of a dict read as manager -> reports. *)
Definition reports_binding (entry : string * json) (c : string)
    : option (option string) :=
  if truthy entry.2 then
    match py_iter entry.2 with
    | Some ks => if bool_decide (c ∈ map py_str ks) then Some (Some entry.1) else None
    | None => None
    end
  else None.

(** An item of a dict read as child -> manager. *)
Definition child_binding (entry : string * json) (c : string)
    : option (option string) :=
  if bool_decide (entry.1 = c) then Some (str_or_none entry.2) else None.

(** A row of a list: a dict with [managerId] and a [reports] list assigns
    [managerId] to every report; a dict with [id] and [managerId] whose
    [reports] is not a list assigns [managerId] to [id]. *)
Definition row_binding (row : json) (c : string) : option (option string) :=
  match row with
  | JDict d =>
      match dict_get d "managerId" with
      | None => None
      | Some m =>
          match dict_get d "reports" with
          | Some (JList reports) =>
              if bool_decide (c ∈ map py_str reports)
              then Some (str_or_none m) else None
          | _ =>
              match dict_get d "id" with
              | Some i => if bool_decide (py_str i = c)
                          then Some (str_or_none m) else None
              | None => None
              end
          end
      end
  | _ => None
  end.

(** Where several elements mention [c], the last one stands. *)
Fixpoint last_binding {X} (w : X -> string -> option (option string))
    (xs : list X) (c : string) : option (option string) :=
  match xs with
  | [] => None
  | x :: rest =>
      match last_binding w rest c with
      | Some v => Some v
      | None => w x c
      end
  end.

Definition override (o : option (option string)) (old : option (option string)) :=
  match o with Some v => Some v | None => old end.

Lemma assign_all_lookup mgr ks (acc : cmap) c :
  assign_all py_repr mgr ks acc !! c
  = if bool_decide (c ∈ map py_str ks) then Some mgr else acc !! c.
Proof.
  unfold assign_all. revert acc.
  induction ks as [|k ks IH]; intros acc; simpl; [done|].
  rewrite IH. destruct (decide (py_str k = c)) as [<-|Hne].
  - rewrite lookup_insert_eq.
    rewrite (bool_decide_eq_true_2 (_ ∈ _ :: _)) by left.
    by case_bool_decide.
  - rewrite lookup_insert_ne by done.
    destruct (decide (c ∈ map py_str ks)) as [Hin|Hnin].
    + rewrite !bool_decide_eq_true_2; [done| by right | done].
    + rewrite !bool_decide_eq_false_2; [done| |done].
      intros [?|?]%elem_of_cons; congruence.
Qed.

Lemma foldl_last_binding {X} (step : cmap -> X -> cmap) w :
  (forall acc x c, step acc x !! c = override (w x c) (acc !! c)) ->
  forall xs acc c,
    foldl step acc xs !! c = override (last_binding w xs c) (acc !! c).
Proof.
  intros Hstep xs. induction xs as [|x xs IH]; intros acc c; simpl; [done|].
  rewrite IH, Hstep. by destruct (last_binding w xs c), (w x c).
Qed.

Lemma fold_option_last_binding {X} (step : cmap -> X -> option cmap) w :
  (forall acc x a, step acc x = Some a ->
     forall c, a !! c = override (w x c) (acc !! c)) ->
  forall xs acc r, fold_option step acc xs = Some r ->
    forall c, r !! c = override (last_binding w xs c) (acc !! c).
Proof.
  intros Hstep xs. induction xs as [|x xs IH]; intros acc r; simpl.
  - by intros [= <-].
  - destruct (step acc x) as [a|] eqn:Ha; [|done]. intros Hr c.
    rewrite (IH _ _ Hr), (Hstep _ _ _ Ha).
    by destruct (last_binding w xs c), (w x c).
Qed.

Lemma step_manager_reports_lookup acc entry a :
  step_manager_reports py_repr acc entry = Some a ->
  forall c, a !! c = override (reports_binding entry c) (acc !! c).
Proof.
  destruct entry as [m kids]. unfold step_manager_reports, reports_binding.
  simpl. destruct (truthy kids); [|by intros [= <-]].
  destruct (py_iter kids) as [ks|]; simpl; [|done].
  intros [= <-] c. rewrite assign_all_lookup. by case_bool_decide.
Qed.

Lemma step_child_manager_lookup acc entry c :
  step_child_manager py_repr acc entry !! c
  = override (child_binding entry c) (acc !! c).
Proof.
  destruct entry as [child mgr]. unfold step_child_manager, child_binding.
  simpl. case_bool_decide as H.
  - subst. by rewrite lookup_insert_eq.
  - by rewrite lookup_insert_ne.
Qed.

Lemma step_row_lookup acc row c :
  step_row py_repr acc row !! c = override (row_binding row c) (acc !! c).
Proof.
  unfold step_row, row_binding.
  destruct row as [| | | | |l|d]; try done.
  destruct (dict_get d "managerId") as [m|]; [|by destruct (dict_get d "reports")].
  assert (Hid : match dict_get d "id" with
                | Some i => <[py_str i:=str_or_none m]> acc
                | None => acc
                end !! c
                = override match dict_get d "id" with
                           | Some i => if bool_decide (py_str i = c)
                                       then Some (str_or_none m) else None
                           | None => None
                           end (acc !! c)).
  { destruct (dict_get d "id") as [i|]; [|done]. case_bool_decide as H.
    - subst. by rewrite lookup_insert_eq.
    - by rewrite lookup_insert_ne. }
  destruct (dict_get d "reports") as [[| | | | |reports|]|]; try exact Hid.
  rewrite assign_all_lookup. by case_bool_decide.
Qed.

(** In a dict with a list value the load raises exactly when some truthy
    value cannot be iterated. *)
Lemma fold_reports_returns d (acc : cmap) :
  is_Some (fold_option (step_manager_reports py_repr) acc d)
  <-> Forall (fun e : string * json => truthy e.2 = true -> is_Some (py_iter e.2)) d.
Proof.
  revert acc. induction d as [|[m kids] d IH]; intros acc; simpl.
  - split; [by constructor | by eauto].
  - rewrite Forall_cons. simpl. destruct (truthy kids).
    + destruct (py_iter kids) as [ks|]; simpl.
      * rewrite IH. split; [intros ?; split; eauto | by intros [_ ?]].
      * split; [by intros [? ?] | intros [H _]; by destruct H].
    + rewrite IH. split; [intros ?; split; [done|eauto] | by intros [_ ?]].
Qed.

(** C10 (amended).  The shape of a dict is detected once for the whole
    dict.  If some value is a list, every item is read as
    manager -> reports: whenever the load returns, the manager of [c] is
    the key of the last item whose value, iterated, yields [c]; the
    load raises exactly when a truthy value cannot be iterated.  If no
    value is a list, every item is read as child -> manager.  For a
    list input, a row with [managerId] and a [reports] list assigns
    [managerId] to every report, and a row with [id] and [managerId]
    whose [reports] is not a list assigns [managerId] to [id]; other rows
    assign nothing.  In every shape the last assignment to a child
    stands. *)
Theorem load_managers_file_shapes :
  (forall d, existsb (fun kv => is_list kv.2) d = true ->
     (forall r, load_managers_file (JDict d) = Some r ->
        forall c, r !! c = last_binding reports_binding d c)
     /\ (is_Some (load_managers_file (JDict d)) <->
         Forall (fun e : string * json =>
                   truthy e.2 = true -> is_Some (py_iter e.2)) d))
  /\ (forall d, existsb (fun kv => is_list kv.2) d = false ->
     exists r, load_managers_file (JDict d) = Some r
       /\ forall c, r !! c = last_binding child_binding d c)
  /\ (forall rows,
     exists r, load_managers_file (JList rows) = Some r
       /\ forall c, r !! c = last_binding row_binding rows c).
Proof.
  split; [|split].
  - intros d Hany. unfold Managers.load_managers_file. rewrite Hany. split.
    + intros r Hr c.
      rewrite (fold_option_last_binding _ _ step_manager_reports_lookup _ _ _ Hr).
      rewrite lookup_empty. by destruct (last_binding _ _ _).
    + apply fold_reports_returns.
  - intros d Hany. unfold Managers.load_managers_file. rewrite Hany.
    eexists; split; [reflexivity|]. intros c.
    rewrite (foldl_last_binding _ _ step_child_manager_lookup).
    rewrite lookup_empty. by destruct (last_binding _ _ _).
  - intros rows. eexists; split; [reflexivity|]. intros c.
    rewrite (foldl_last_binding _ _ step_row_lookup).
    rewrite lookup_empty. by destruct (last_binding _ _ _).
Qed.

End WithRepr.

Definition example_rows : json :=
  JList [JDict [("id"%string, JStr "c"); ("managerId"%string, JStr "m");
                ("reports"%string, JList [JStr "x"])]].

Lemma load_managers_file_shapes_witness :
  (exists r, load_managers_file (fun _ => ""%string)
               (JDict [("boss"%string, JList [JStr "a"]); ("c"%string, JStr "m")]) = Some r
     /\ r !! "m"%string = Some (Some "c"%string) /\ r !! "c"%string = None)
  /\ (exists r, load_managers_file (fun _ => ""%string)
               (JDict [("c"%string, JStr "m")]) = Some r
     /\ r !! "c"%string = Some (Some "m"%string)).
Proof.
  pose proof (load_managers_file_shapes (fun _ => ""%string)) as (H1 & H2 & _).
  split.
  - destruct (H1 [("boss"%string, JList [JStr "a"]); ("c"%string, JStr "m")] eq_refl)
      as [Hl Hret].
    destruct (proj2 Hret) as [r Hr].
    { repeat constructor; simpl; eauto. }
    exists r. split; [done|]. by rewrite !(Hl r Hr).
  - destruct (H2 [("c"%string, JStr "m")] eq_refl) as (r & Hr & Hl).
    exists r. split; [done|]. by rewrite Hl.
Defined.

(** C10 as stated fails on a row that carries [id], [managerId] and a
    [reports] list: only the reports are assigned, [id] is not. *)
Lemma row_with_reports_does_not_map_id :
  exists r, load_managers_file (fun _ => ""%string) example_rows = Some r
    /\ r !! "c"%string = None
    /\ r !! "x"%string = Some (Some "m"%string).
Proof.
  eexists; split; [reflexivity|]. split; by vm_compute.
Qed.

End ManagersFacts.

(** ** [build_hierarchy] returns a forest *)

Module HierarchyFacts.

Import Hierarchy.
Local Open Scope list_scope.

(** *** The sort *)

Section Sorting.
Variable key : nat -> string.

(** [x] may stand before [y]: the key of [y] is not below the key of [x]. *)
Definition key_le (x y : nat) : Prop := String.ltb (key y) (key x) = false.

Lemma ltb_asym (s t : string) : String.ltb s t = true -> String.ltb t s = false.
Proof.
unfold String.ltb. rewrite (String.compare_antisym t s).
by destruct (String.compare s t).
Qed.

Lemma insert_by_perm (x : nat) (l : list nat) : insert_by key x l ≡ₚ x :: l.
Proof.
induction l as [|y r IH]; simpl; [done|].
destruct (String.ltb (key y) (key x)); [|done].
rewrite IH. apply Permutation_swap.
Qed.

Lemma sort_by_perm (l : list nat) : sort_by key l ≡ₚ l.
Proof.
induction l as [|x l IH]; simpl; [done|].
rewrite insert_by_perm. by rewrite IH.
Qed.

Lemma insert_by_sorted (x : nat) (l : list nat) :
  Sorted key_le l -> Sorted key_le (insert_by key x l).
Proof.
induction l as [|y r IH]; simpl; intros Hs.
- by repeat constructor.
- destruct (String.ltb (key y) (key x)) eqn:Hlt.
  + apply Sorted_inv in Hs as [Hr Hhd]. constructor; [by apply IH|].
    destruct r as [|z r]; simpl.
    * constructor. by apply ltb_asym.
    * destruct (String.ltb (key z) (key x)).
      -- constructor. by apply HdRel_inv in Hhd.
      -- constructor. by apply ltb_asym.
  + constructor; [done|]. by constructor.
Qed.

Lemma sort_by_sorted (l : list nat) : Sorted key_le (sort_by key l).
Proof.
induction l as [|x l IH]; simpl; [constructor|]. by apply insert_by_sorted.
Qed.

Lemma sort_by_id (l : list nat) : Sorted key_le l -> sort_by key l = l.
Proof.
induction l as [|x l IH]; simpl; [done|]. intros Hs.
apply Sorted_inv in Hs as [Hl Hhd]. rewrite IH by done.
destruct l as [|y r]; simpl; [done|].
apply HdRel_inv in Hhd. unfold key_le in Hhd. by rewrite Hhd.
Qed.

Lemma sort_by_idem (l : list nat) : sort_by key (sort_by key l) = sort_by key l.
Proof. apply sort_by_id, sort_by_sorted. Qed.

End Sorting.

Lemma sort_by_ext (key key' : nat -> string) (l : list nat) :
  (forall x, key x = key' x) -> sort_by key l = sort_by key' l.
Proof.
intros Hk. induction l as [|x l IH]; simpl; [done|]. rewrite IH.
generalize (sort_by key' l). intros s.
induction s as [|y r IHr]; simpl; [done|]. by rewrite !Hk, IHr.
Qed.

(** *** The catalog [nodes] *)

Lemma init_nodes_snoc (us : list user) (u : user) :
  init_nodes (us ++ [u]) = <[id u := length us]> (init_nodes us).
Proof.
unfold init_nodes. rewrite imap_app, foldl_app. simpl.
by rewrite Nat.add_0_r.
Qed.

Lemma init_nodes_lookup_Some (us : list user) (s : string) (i : nat) :
  init_nodes us !! s = Some i -> exists u, us !! i = Some u /\ id u = s.
Proof.
induction us as [|x us IH] using rev_ind.
- unfold init_nodes. simpl. by rewrite lookup_empty.
- rewrite init_nodes_snoc. destruct (decide (id x = s)) as [<-|Hne].
  + rewrite lookup_insert_eq. intros [= <-]. exists x. split; [|done].
    by rewrite lookup_app_r, Nat.sub_diag.
  + rewrite lookup_insert_ne by done. intros H.
    destruct (IH H) as (u & Hu & Hid). exists u. split; [|done].
    by apply lookup_app_l_Some.
Qed.

Lemma init_nodes_lookup_None (us : list user) (s : string) :
  init_nodes us !! s = None <-> s ∉ id <$> us.
Proof.
induction us as [|x us IH] using rev_ind.
- unfold init_nodes. simpl. rewrite lookup_empty. split; [|done].
  intros _ H. by apply elem_of_nil in H.
- rewrite init_nodes_snoc, fmap_app, not_elem_of_app. simpl.
  destruct (decide (id x = s)) as [<-|Hne].
  + rewrite lookup_insert_eq. split; [done|]. intros [_ H].
    exfalso. apply H. by left.
  + rewrite lookup_insert_ne by done. rewrite IH. split; [|tauto].
    intros H. split; [done|]. intros Hin. apply list_elem_of_singleton in Hin.
    congruence.
Qed.

Lemma init_nodes_lookup_NoDup (us : list user) (i : nat) (u : user) :
  NoDup (id <$> us) -> us !! i = Some u -> init_nodes us !! id u = Some i.
Proof.
intros Hnd Hu.
destruct (init_nodes us !! id u) as [j|] eqn:Hj.
- destruct (init_nodes_lookup_Some _ _ _ Hj) as (u' & Hu' & Hid).
  f_equal. apply (NoDup_lookup _ j i (id u) Hnd).
  + by rewrite list_lookup_fmap, Hu', <- Hid.
  + by rewrite list_lookup_fmap, Hu.
- apply init_nodes_lookup_None in Hj. exfalso. apply Hj.
  apply list_elem_of_fmap. exists u. split; [done|].
  by apply list_elem_of_lookup_2 in Hu.
Qed.


(** *** The manager relation on positions *)

Section Build.
Variables (users : list user) (M : gmap string (option string)).

(** [u.get(managerId)] after the first loop, for the user at position [i]. *)
Definition mgr (i : nat) : option string :=
  users !! i ≫= fun u => map_get M (id u).

(** The position of the manager object the second loop appends [i] to. *)
Definition parent (i : nat) : option nat := parent_of (init_nodes users) (mgr i).

(** The [m]-th manager up the chain from [j]. *)
Fixpoint anc (m : nat) (j : nat) : option nat :=
  match m with
  | O => Some j
  | S m' => parent j ≫= anc m'
  end.

(** [i] is [k] steps below a root. *)
Definition level (k i : nat) : Prop :=
  exists r, anc k i = Some r /\ parent r = None.

(** No manager chain runs into a cycle: every chain ends at a root. *)
Definition acyclic : Prop :=
  forall i, i < length users -> exists k, level k i.

Definition levelb (k i : nat) : bool :=
  match anc k i with
  | Some r => bool_decide (parent r = None)
  | None => false
  end.

Definition acyclicb : bool :=
  forallb (fun i => existsb (fun k => levelb k i) (seq 0 (length users)))
    (seq 0 (length users)).

Definition key (i : nat) : string :=
  Py.lower (default "" (users !! i ≫= displayName)).

Definition children (j : nat) : list nat :=
  filter (fun i => parent i = Some j) (seq 0 (length users)).

Definition sorted_children (j : nat) : list nat := sort_by key (children j).

(** The heap in which the user at position [i] holds [rep i] as reports. *)
Definition heap_of (rep : nat -> list nat) : heap :=
  imap (fun i u => Node u (map_get M (id u)) (rep i)) users.

Definition upd (rep : nat -> list nat) (j : nat) (l : list nat) : nat -> list nat :=
  fun x => if decide (x = j) then l else rep x.

(** The claim's words: the user at [i] is a root; [c] reports to [i]. *)
Definition is_root (i : nat) : Prop :=
  exists u, users !! i = Some u /\
    match map_get M (id u) with
    | None => True
    | Some m => m = "" \/ m ∉ id <$> users
    end.

Definition reports_to (c i : nat) : Prop :=
  exists uc ui, users !! c = Some uc /\ users !! i = Some ui /\
    map_get M (id uc) = Some (id ui) /\ id ui <> "".

Lemma acyclicb_acyclic : acyclicb = true -> acyclic.
Proof.
unfold acyclicb, acyclic. rewrite forallb_forall. intros H i Hi.
specialize (H i). rewrite in_seq in H. specialize (H ltac:(lia)).
apply existsb_exists in H as (k & _ & Hk). exists k.
unfold levelb in Hk. unfold level. destruct (anc k i) as [r|]; [|done].
exists r. split; [done|]. by apply bool_decide_eq_true in Hk.
Qed.

Lemma parent_Some_lt (c i : nat) :
  parent c = Some i -> c < length users /\ i < length users.
Proof.
unfold parent, mgr, parent_of. intros H.
destruct (users !! c) as [u|] eqn:Hu; simpl in H; [|done].
split; [by apply lookup_lt_Some in Hu|].
destruct (map_get M (id u)) as [m|]; [|done].
destruct (Py.truthy m); [|done].
apply init_nodes_lookup_Some in H as (u' & Hu' & _).
by apply lookup_lt_Some in Hu'.
Qed.

Lemma truthy_nonempty (s : string) : Py.truthy s = true <-> s <> "".
Proof. destruct s; simpl; split; congruence. Qed.

Lemma parent_None (i : nat) :
  i < length users -> (parent i = None <-> is_root i).
Proof.
intros Hi. apply lookup_lt_is_Some in Hi as [u Hu].
unfold parent, mgr, is_root, parent_of. rewrite Hu. simpl. split.
- intros H. exists u. split; [done|].
  destruct (map_get M (id u)) as [m|]; [|done].
  destruct (Py.truthy m) eqn:Ht.
  + right. by apply init_nodes_lookup_None.
  + left. destruct m; [done|discriminate].
- intros (u' & [= <-] & H).
  destruct (map_get M (id u)) as [m|]; [|done].
  destruct H as [->|H]; [done|].
  destruct (Py.truthy m); [|done]. by apply init_nodes_lookup_None.
Qed.

Lemma parent_Some (c i : nat) :
  NoDup (id <$> users) -> (parent c = Some i <-> reports_to c i).
Proof.
intros Hnd. unfold parent, mgr, reports_to, parent_of. split.
- intros H. destruct (users !! c) as [uc|] eqn:Hc; simpl in H; [|done].
  destruct (map_get M (id uc)) as [m|] eqn:Hm; [|done].
  destruct (Py.truthy m) eqn:Ht; [|done].
  apply init_nodes_lookup_Some in H as (ui & Hi & <-).
  exists uc, ui. repeat split; try done. by apply truthy_nonempty.
- intros (uc & ui & Hc & Hi & Hm & Hne). rewrite Hc. simpl. rewrite Hm.
  apply truthy_nonempty in Hne. rewrite Hne.
  by apply init_nodes_lookup_NoDup.
Qed.

Lemma anc_add (a b j : nat) : anc (a + b) j = anc a j ≫= anc b.
Proof.
revert j. induction a as [|a IH]; intros j; simpl; [done|].
destruct (parent j) as [p|]; simpl; [apply IH|done].
Qed.

Lemma anc_snoc (m j : nat) : anc (S m) j = anc m j ≫= parent.
Proof.
replace (S m) with (m + 1) by lia. rewrite anc_add.
destruct (anc m j) as [c|]; simpl; [|done]. by destruct (parent c).
Qed.

Lemma anc_lt (m j r : nat) :
  anc m j = Some r -> j < length users -> r < length users.
Proof.
revert j. induction m as [|m IH]; intros j; simpl.
- by intros [= <-].
- destruct (parent j) as [p|] eqn:Hp; simpl; [|done].
  intros H _. apply (IH p H). by apply parent_Some_lt in Hp as [_ ?].
Qed.

Lemma anc_lt_inv (m j r : nat) :
  anc m j = Some r -> r < length users -> j < length users.
Proof.
destruct m as [|m]; simpl.
- by intros [= <-].
- destruct (parent j) as [p|] eqn:Hp; simpl; [|done].
  intros _ _. by apply parent_Some_lt in Hp as [? _].
Qed.

Lemma level_beyond (k d i : nat) : level k i -> anc (k + S d) i = None.
Proof.
intros (r & Hr & Hroot). rewrite anc_add, Hr. simpl. by rewrite Hroot.
Qed.

Lemma level_unique (k k' i : nat) : level k i -> level k' i -> k = k'.
Proof.
intros H H'. destruct (decide (k = k')) as [|Hne]; [done|]. exfalso.
destruct (decide (k < k')).
- pose proof (level_beyond k (k' - k - 1) i H) as Hb.
  replace (k + S (k' - k - 1)) with k' in Hb by lia.
  destruct H' as (r & Hr & _). congruence.
- pose proof (level_beyond k' (k - k' - 1) i H') as Hb.
  replace (k' + S (k - k' - 1)) with k in Hb by lia.
  destruct H as (r & Hr & _). congruence.
Qed.

Lemma level_below (m k j c : nat) : anc m j = Some c -> level k c -> level (m + k) j.
Proof.
intros Hc (r & Hr & Hroot). exists r. split; [|done].
by rewrite anc_add, Hc.
Qed.

Lemma level_child (k c i : nat) : parent c = Some i -> level k i -> level (S k) c.
Proof. intros Hp. apply (level_below 1 k c i). simpl. by rewrite Hp. Qed.

Lemma level_bound :
  acyclic -> exists K, forall i k, i < length users -> level k i -> k <= K.
Proof.
intros Hac.
assert (forall n, n <= length users ->
  exists K, forall i, i < n -> exists k, k <= K /\ level k i) as Hn.
{ induction n as [|n IH]; intros Hle.
  - exists 0. intros i Hi. lia.
  - destruct IH as [K HK]; [lia|]. destruct (Hac n) as [kn Hkn]; [lia|].
    exists (K `max` kn). intros i Hi. destruct (decide (i = n)) as [->|].
    + exists kn. split; [lia|done].
    + destruct (HK i) as (k & Hk & Hl); [lia|]. exists k. split; [lia|done]. }
destruct (Hn (length users)) as [K HK]; [lia|]. exists K. intros i k Hi Hl.
destruct (HK i Hi) as (k' & Hk' & Hl').
by rewrite (level_unique _ _ _ Hl Hl').
Qed.

Lemma elem_of_children (c i : nat) : c ∈ children i <-> parent c = Some i.
Proof.
unfold children. rewrite list_elem_of_filter, elem_of_seq. split; [tauto|].
intros H. split; [done|]. apply parent_Some_lt in H. lia.
Qed.

Lemma elem_of_sorted_children (c i : nat) :
  c ∈ sorted_children i <-> parent c = Some i.
Proof. unfold sorted_children. by rewrite sort_by_perm, elem_of_children. Qed.

Lemma NoDup_sorted_children (i : nat) : NoDup (sorted_children i).
Proof.
unfold sorted_children, children. rewrite sort_by_perm.
apply NoDup_filter, NoDup_seq.
Qed.

(** *** The heap through the three loops *)

Lemma heap_of_lookup (rep : nat -> list nat) (i : nat) :
  heap_of rep !! i = (fun u => Node u (map_get M (id u)) (rep i)) <$> users !! i.
Proof. unfold heap_of. by rewrite list_lookup_imap. Qed.

Lemma heap_of_ext (rep rep' : nat -> list nat) :
  (forall i, i < length users -> rep i = rep' i) -> heap_of rep = heap_of rep'.
Proof.
intros H. apply imap_ext. intros i u Hu. rewrite H; [done|].
by apply lookup_lt_Some in Hu.
Qed.

Lemma heap_of_insert (rep : nat -> list nat) (j : nat) (u : user) (l : list nat) :
  users !! j = Some u ->
  <[j := Node u (map_get M (id u)) l]> (heap_of rep) = heap_of (upd rep j l).
Proof.
intros Hu. apply list_eq. intros i. unfold upd.
destruct (decide (i = j)) as [->|Hne].
- rewrite list_lookup_insert_eq.
  + rewrite heap_of_lookup, Hu. simpl. by rewrite decide_True.
  + unfold heap_of. rewrite length_imap. by apply lookup_lt_Some in Hu.
- rewrite list_lookup_insert_ne by done. rewrite !heap_of_lookup.
  destruct (users !! i); simpl; [|done]. by rewrite decide_False.
Qed.

Lemma init_heap_heap_of : init_heap users M = heap_of (fun _ => []).
Proof.
apply list_eq. intros i. rewrite heap_of_lookup. unfold init_heap.
by rewrite list_lookup_fmap.
Qed.

Lemma heap_of_managerId (rep : nat -> list nat) (i : nat) :
  heap_of rep !! i ≫= managerId = mgr i.
Proof.
rewrite heap_of_lookup. unfold mgr. by destruct (users !! i).
Qed.

Lemma attach_heap_of (rep : nat -> list nat) (roots : list nat) (i : nat) :
  attach (init_nodes users) (heap_of rep, roots) i =
  match parent i with
  | Some j => (heap_of (upd rep j (rep j ++ [i])), roots)
  | None => (heap_of rep, roots ++ [i])
  end.
Proof.
unfold attach. rewrite heap_of_managerId. fold (parent i).
destruct (parent i) as [j|] eqn:Hp; [|done].
apply parent_Some_lt in Hp as [_ Hj]. apply lookup_lt_is_Some in Hj as [u Hu].
unfold append_report. rewrite heap_of_lookup, Hu. simpl.
by rewrite heap_of_insert.
Qed.

Lemma attach_fold (k : nat) :
  foldl (attach (init_nodes users)) (heap_of (fun _ => []), []) (seq 0 k) =
  (heap_of (fun j => filter (fun i => parent i = Some j) (seq 0 k)),
   filter (fun i => parent i = None) (seq 0 k)).
Proof.
induction k as [|k IH]; [done|].
rewrite seq_S, foldl_app, IH. cbn [foldl Nat.add]. rewrite attach_heap_of.
rewrite !filter_app.
destruct (parent k) as [j|] eqn:Hp.
- f_equal.
  + apply heap_of_ext. intros i _. unfold upd. rewrite filter_app.
    destruct (decide (i = j)) as [->|Hne].
    * f_equal. rewrite filter_cons_True by done. done.
    * rewrite filter_cons_False by congruence.
      by rewrite filter_nil, app_nil_r.
  + rewrite filter_cons_False by congruence. by rewrite filter_nil, app_nil_r.
- f_equal.
  + apply heap_of_ext. intros i _. rewrite filter_app.
    rewrite filter_cons_False by congruence. by rewrite filter_nil, app_nil_r.
  + by rewrite filter_cons_True.
Qed.

Lemma attach_all :
  foldl (attach (init_nodes users)) (heap_of (fun _ => []), [])
    (seq 0 (length users)) =
  (heap_of children, filter (fun i => parent i = None) (seq 0 (length users))).
Proof. apply attach_fold. Qed.

Lemma sort_key_heap_of (rep : nat -> list nat) (i : nat) :
  sort_key (heap_of rep) i = key i.
Proof.
unfold sort_key, key. rewrite heap_of_lookup. by destruct (users !! i).
Qed.

Lemma sort_recursive_step (f : nat) (rep : nat -> list nat) (i : nat) :
  i < length users ->
  sort_recursive (S f) (heap_of rep) i =
  Managers.fold_option (sort_recursive f)
    (heap_of (upd rep i (sort_by key (rep i)))) (sort_by key (rep i)).
Proof.
intros Hi. apply lookup_lt_is_Some in Hi as [u Hu]. simpl.
rewrite heap_of_lookup, Hu. simpl.
rewrite (sort_by_ext _ key) by apply sort_key_heap_of.
by rewrite heap_of_insert.
Qed.

(** Every reports list is as the second loop left it, or sorted. *)
Definition settled (rep : nat -> list nat) : Prop :=
  forall j, rep j = children j \/ rep j = sorted_children j.

(** What [sort_recursive] with [f] nested calls left does at level [k]. *)
Definition sorts_below (f k : nat) : Prop :=
  forall i rep, i < length users -> level k i -> settled rep ->
  exists rep',
    sort_recursive f (heap_of rep) i = Some (heap_of rep')
    /\ settled rep'
    /\ (forall j, rep j = sorted_children j -> rep' j = sorted_children j)
    /\ (forall m j, anc m j = Some i -> rep' j = sorted_children j).

Lemma fold_sorts (f k : nat) (l : list nat) (rep : nat -> list nat) :
  sorts_below f k ->
  Forall (fun c => c < length users /\ level k c) l ->
  settled rep ->
  exists rep',
    Managers.fold_option (sort_recursive f) (heap_of rep) l = Some (heap_of rep')
    /\ settled rep'
    /\ (forall j, rep j = sorted_children j -> rep' j = sorted_children j)
    /\ (forall c m j, c ∈ l -> anc m j = Some c -> rep' j = sorted_children j).
Proof.
intros Hf. revert rep. induction l as [|c l IH]; intros rep Hl Hs.
- exists rep. simpl. repeat split; try done.
  intros c m j Hc. by apply elem_of_nil in Hc.
- apply Forall_cons in Hl as [[Hc Hlev] Hl].
  destruct (Hf c rep Hc Hlev Hs) as (rep1 & Hrun & Hs1 & Hkeep1 & Hdone1).
  destruct (IH rep1 Hl Hs1) as (rep2 & Hrun2 & Hs2 & Hkeep2 & Hdone2).
  exists rep2. simpl. rewrite Hrun. repeat split; try done.
  + intros j Hj. by apply Hkeep2, Hkeep1.
  + intros c' m j Hc' Hanc. apply elem_of_cons in Hc' as [->|Hc'].
    * by apply Hkeep2, (Hdone1 m).
    * by apply (Hdone2 c' m).
Qed.

Lemma sort_recursive_ok (K : nat) :
  (forall i k, i < length users -> level k i -> k <= K) ->
  forall f k, K < f + k -> sorts_below f k.
Proof.
intros HK. induction f as [|f IH]; intros k Hfk i rep Hi Hlev Hs.
- specialize (HK i k Hi Hlev). lia.
- rewrite sort_recursive_step by done.
  assert (sort_by key (rep i) = sorted_children i) as ->.
  { destruct (Hs i) as [-> | ->]; [done|]. apply sort_by_idem. }
  set (rep1 := upd rep i (sorted_children i)).
  assert (settled rep1) as Hs1.
  { intros j. unfold rep1, upd. destruct (decide (j = i)) as [->|]; [by right|].
    apply Hs. }
  destruct (fold_sorts f (S k) (sorted_children i) rep1) as
    (rep' & Hrun & Hs' & Hkeep & Hdone); [apply IH; lia| |done|].
  { apply Forall_forall. intros c Hc. apply elem_of_sorted_children in Hc.
    split; [by apply parent_Some_lt in Hc as [? _]|]. by apply (level_child k c i). }
  exists rep'. repeat split; try done.
  + intros j Hj. apply Hkeep. unfold rep1, upd.
    by destruct (decide (j = i)) as [->|].
  + intros m j Hanc. destruct m as [|m].
    * injection Hanc as ->. apply Hkeep. unfold rep1, upd.
      by rewrite decide_True.
    * rewrite anc_snoc in Hanc.
      destruct (anc m j) as [c|] eqn:Hc; simpl in Hanc; [|done].
      apply (Hdone c m); [|done]. by apply elem_of_sorted_children.
Qed.


(** *** The nested value *)

Definition tree_root (t : tree) : nat := match t with T i _ => i end.

Lemma preorder_T (i : nat) (cs : list tree) :
  preorder (T i cs) = i :: forest_nodes cs.
Proof. done. Qed.

Lemma forest_nodes_cons (t : tree) (ts : list tree) :
  forest_nodes (t :: ts) = preorder t ++ forest_nodes ts.
Proof. done. Qed.

(** What [unfold] with [f] nested calls left yields at level [k], once every
    reports list is sorted. *)
Definition unfolds_below (f k : nat) : Prop :=
  forall i, i < length users -> level k i ->
  exists t,
    unfold f (heap_of sorted_children) i = Some t
    /\ tree_root t = i
    /\ NoDup (preorder t)
    /\ (forall j, j ∈ preorder t <-> exists m, anc m j = Some i).

Lemma mapM_unfold (f k : nat) (l : list nat) :
  unfolds_below f k -> NoDup l ->
  Forall (fun c => c < length users /\ level k c) l ->
  exists cs,
    mapM (unfold f (heap_of sorted_children)) l = Some cs
    /\ tree_root <$> cs = l
    /\ NoDup (forest_nodes cs)
    /\ (forall j, j ∈ forest_nodes cs <-> exists c m, c ∈ l /\ anc m j = Some c).
Proof.
intros Hf. induction l as [|c l IH]; intros Hnd Hl.
- exists []. split; [done|]. split; [done|]. split; [constructor|].
  intros j. split.
  + intros Hj. by apply elem_of_nil in Hj.
  + intros (c & m & Hc & _). by apply elem_of_nil in Hc.
- apply NoDup_cons in Hnd as [Hc Hnd].
  apply Forall_cons in Hl as [[Hlt Hlev] Hl].
  destruct (Hf c Hlt Hlev) as (t & Ht & Hroot & Htnd & Htin).
  destruct (IH Hnd Hl) as (cs & Hcs & Hroots & Hcsnd & Hcsin).
  exists (t :: cs). split; [simpl; rewrite Ht; simpl; by rewrite Hcs|].
  split; [by rewrite fmap_cons, Hroot, Hroots|].
  rewrite forest_nodes_cons. split.
  + apply NoDup_app. split; [done|]. split; [|done].
    intros j Hj1 Hj2. apply Htin in Hj1 as [m Hm].
    apply Hcsin in Hj2 as (c' & m' & Hc' & Hm').
    assert (level k c') as Hlev'.
    { rewrite Forall_forall in Hl. by apply Hl. }
    pose proof (level_unique _ _ _ (level_below _ _ _ _ Hm Hlev)
                  (level_below _ _ _ _ Hm' Hlev')) as Heq.
    assert (m = m') as -> by lia. congruence.
  + intros j. rewrite elem_of_app, Htin, Hcsin. split.
    * intros [[m Hm]|(c' & m & Hc' & Hm)].
      -- exists c, m. split; [by left|done].
      -- exists c', m. split; [by right|done].
    * intros (c' & m & Hc' & Hm). apply elem_of_cons in Hc' as [->|Hc'].
      -- left. by exists m.
      -- right. by exists c', m.
Qed.

Lemma unfold_ok (K : nat) :
  (forall i k, i < length users -> level k i -> k <= K) ->
  forall f k, K < f + k -> unfolds_below f k.
Proof.
intros HK. induction f as [|f IH]; intros k Hfk i Hi Hlev.
- specialize (HK i k Hi Hlev). lia.
- destruct (mapM_unfold f (S k) (sorted_children i)) as
    (cs & Hcs & Hroots & Hnd & Hin); [apply IH; lia|apply NoDup_sorted_children| |].
  { apply Forall_forall. intros c Hc. apply elem_of_sorted_children in Hc.
    split; [by apply parent_Some_lt in Hc as [? _]|]. by apply (level_child k c i). }
  pose proof Hi as Hi'. apply lookup_lt_is_Some in Hi' as [u Hu].
  exists (T i cs). split; [|split; [done|]].
  { simpl. rewrite heap_of_lookup, Hu. simpl. rewrite Hcs. done. }
  rewrite preorder_T. split.
  + apply NoDup_cons. split; [|done]. intros Hself.
    apply Hin in Hself as (c & m & Hc & Hm).
    apply elem_of_sorted_children in Hc.
    pose proof (level_below _ _ _ _ Hm (level_child _ _ _ Hc Hlev)) as Hlev'.
    pose proof (level_unique _ _ _ Hlev Hlev'). lia.
  + intros j. rewrite elem_of_cons, Hin. split.
    * intros [->|(c & m & Hc & Hm)]; [by exists 0|].
      apply elem_of_sorted_children in Hc. exists (S m).
      rewrite anc_snoc, Hm. done.
    * intros [m Hm]. destruct m as [|m]; [left; by injection Hm|].
      right. rewrite anc_snoc in Hm.
      destruct (anc m j) as [c|] eqn:Hc; simpl in Hm; [|done].
      exists c, m. split; [|done]. by apply elem_of_sorted_children.
Qed.

End Build.

Arguments key_le key x y /.


(** A team of four: Ann leads Cy and bob, Dee's manager is outside the list. *)
Definition team : list user :=
  [User "A" (Some "Ann"); User "B" (Some "bob"); User "C" (Some "Cy");
   User "D" None].

Definition team_map : gmap string (option string) :=
  <["B" := Some "A"]> (<["C" := Some "A"]> (<["D" := Some "X"]> ∅)).


(** A user recorded as their own manager. *)
Definition self_managed : list user := [User "A" (Some "Ann")].

Definition self_managed_map : gmap string (option string) :=
  <["A" := Some "A"]> ∅.

Lemma self_managed_has_no_root (fuel : nat) :
  build_hierarchy fuel self_managed self_managed_map =
  Some ([Node (User "A" (Some "Ann")) (Some "A") [0]], []).
Proof. by vm_compute. Qed.


(** The test [if m and m in nodes] takes the empty string for no manager:
    a user whose managerId is the empty string is a root even when a user
    of the list has the empty string as id. *)
Lemma empty_manager_id_is_a_root :
  snd <$> build_hierarchy 3 [User "" (Some "Nil"); User "B" (Some "Bea")]
            (<["B" := Some ""]> ∅) = Some [0; 1].
Proof. by vm_compute. Qed.

End HierarchyFacts.

(** ** The sink: what each statement touches *)

Module SinkFacts.

Import Sink.
Local Open Scope list_scope.

Section WithRuntime.
Context {rt : Runtime}.
Variable CAS_ROOT : string.

(** The statements of the EAV part only append to [items] and
    [item_values] and rewrite [doc_item_values]. *)
Definition eav_step (st st' : store) : Prop :=
  items st `prefix_of` items st'
  /\ item_values st `prefix_of` item_values st'
  /\ attachments st' = attachments st
  /\ documents st' = documents st
  /\ document_views st' = document_views st
  /\ etl_checkpoints st' = etl_checkpoints st.

#[local] Instance eav_step_preorder : PreOrder eav_step.
Proof.
  split.
  - intros st. by repeat split.
  - intros a b c (?&?&?&?&?&?) (?&?&?&?&?&?).
    repeat split; try (etrans; eassumption); congruence.
Qed.

Lemma get_item_id_step st name :
  eav_step st (get_item_id st name).1
  /\ doc_item_values (get_item_id st name).1 = doc_item_values st
  /\ item_values (get_item_id st name).1 = item_values st.
Proof.
  unfold get_item_id. destruct (select_id _ _); simpl; [by repeat split|].
  repeat split; try done. by apply prefix_app_r.
Qed.

Lemma get_or_create_step st i k s t n dt b a :
  eav_step st (get_or_create_item_value st i k s t n dt b a).1
  /\ doc_item_values (get_or_create_item_value st i k s t n dt b a).1
     = doc_item_values st
  /\ items (get_or_create_item_value st i k s t n dt b a).1 = items st.
Proof.
  unfold get_or_create_item_value.
  destruct (_select_existing_item_value _ _ _ _ _ _ _ _ _); simpl;
    [by repeat split|].
  repeat split; try done. by apply prefix_app_r.
Qed.

Lemma insert_item_value_step st u i o k s t n dt b a :
  eav_step st (insert_item_value st u i o k s t n dt b a)
  /\ items (insert_item_value st u i o k s t n dt b a) = items st.
Proof.
  unfold insert_item_value.
  pose proof (get_or_create_step st i k s t n dt b a) as (H & _ & Hi).
  destruct (get_or_create_item_value st i k s t n dt b a) as [st1 iv].
  simpl in *. split; [|done]. destruct H as (?&?&?&?&?&?). by repeat split.
Qed.

Lemma coerce_value_step st u i idx rich v :
  eav_step st (coerce_value st u i idx rich v)
  /\ items (coerce_value st u i idx rich v) = items st.
Proof.
  unfold coerce_value.
  repeat match goal with
         | |- context [match ?x with _ => _ end] => destruct x
         end; apply insert_item_value_step.
Qed.

Lemma coerce_from_step vals : forall st u i rich idx,
  eav_step st (coerce_from st u i rich idx vals)
  /\ items (coerce_from st u i rich idx vals) = items st.
Proof.
  induction vals as [|v vals IH]; intros st u i rich idx; simpl; [done|].
  destruct (IH (coerce_value st u i idx rich v) u i rich (S idx)) as [H1 H2].
  destruct (coerce_value_step st u i idx rich v) as [H3 H4].
  split; [by etrans | congruence].
Qed.

Lemma coerce_insert_step st u name vs rich :
  eav_step st (coerce_insert_item_values st u name vs rich).
Proof.
  unfold coerce_insert_item_values.
  pose proof (get_item_id_step st name) as (H & _).
  destruct (get_item_id st name) as [st1 i]. simpl in H.
  etrans; [exact H|]. apply coerce_from_step.
Qed.

Lemma store_item_step u st it : eav_step st (store_item u st it).
Proof.
  unfold store_item. destruct (negb _); [done|].
  destruct (is_rich it); [apply coerce_insert_step|].
  destruct (Values it) as [[]|]; try done; apply coerce_insert_step.
Qed.

Lemma link_files_from_step vals : forall st u i ids idx,
  eav_step st (link_files_from st u i ids idx vals).
Proof.
  induction vals as [|v vals IH]; intros st u i ids idx; simpl; [done|].
  etrans; [|apply IH]. apply insert_item_value_step.
Qed.

Lemma link_file_item_step u ids st it : eav_step st (link_file_item u ids st it).
Proof.
  unfold link_file_item. destruct (negb _); [done|]. destruct (negb _); [done|].
  pose proof (get_item_id_step st "$FILE") as (H & _).
  destruct (get_item_id st "$FILE") as [st1 i]. simpl in H.
  etrans; [exact H|]. apply link_files_from_step.
Qed.

Lemma foldl_step {A} (f : store -> A -> store) :
  (forall st x, eav_step st (f st x)) ->
  forall xs st, eav_step st (foldl f st xs).
Proof.
  intros Hf xs. induction xs as [|x xs IH]; intros st; simpl; [done|].
  etrans; [apply Hf | apply IH].
Qed.

(** The attachments loop appends to [attachments] and touches nothing else. *)
Lemma insert_attachment_step st now row :
  attachments st `prefix_of` attachments (insert_attachment st now row).1
  /\ items (insert_attachment st now row).1 = items st
  /\ item_values (insert_attachment st now row).1 = item_values st
  /\ doc_item_values (insert_attachment st now row).1 = doc_item_values st
  /\ documents (insert_attachment st now row).1 = documents st
  /\ document_views (insert_attachment st now row).1 = document_views st
  /\ etl_checkpoints (insert_attachment st now row).1 = etl_checkpoints st.
Proof.
  unfold insert_attachment. simpl. repeat split; try done.
  destruct (existsb _ _); [done | by apply prefix_app_r].
Qed.

Lemma att_is_self now m :
  att_is m (AttachmentRow (m_unid m) (m_item_name m) (m_kind m)
              (Some (m_filename m)) None (Some (m_size_bytes m))
              (m_sha256 m) (m_storage_path m) (Some now)) = true.
Proof.
  unfold att_is, null_eq. simpl. rewrite String.eqb_refl.
  by rewrite !bool_decide_eq_true_2.
Qed.

Lemma insert_attachment_present st now m :
  existsb (att_is m) (attachments (insert_attachment st now m).1) = true.
Proof.
  unfold insert_attachment. simpl.
  destruct (existsb (att_is m) (attachments st)) eqn:He; [done|].
  rewrite existsb_app. cbn [existsb]. by rewrite att_is_self, orb_true_r.
Qed.

Definition att_step (st st' : store) : Prop :=
  attachments st `prefix_of` attachments st'
  /\ items st' = items st
  /\ item_values st' = item_values st
  /\ doc_item_values st' = doc_item_values st
  /\ documents st' = documents st
  /\ document_views st' = document_views st
  /\ etl_checkpoints st' = etl_checkpoints st.

#[local] Instance att_step_preorder : PreOrder att_step.
Proof.
  split.
  - intros st. by repeat split.
  - intros a b c (?&?&?&?&?&?&?) (?&?&?&?&?&?&?).
    repeat split; try (etrans; eassumption); congruence.
Qed.

Definition remember_id (ids : gmap string nat) (m : att_meta) (a : option nat)
    : gmap string nat :=
  match a with Some a0 => <[m_filename m := a0]> ids | None => ids end.

Definition add_att (sts : stats) : stats :=
  Stats (scanned sts) (upserted sts) (S (atts sts)) (errors sts).

Lemma save_attachment_eq now st ids sts m :
  save_attachment now (st, ids, sts) m
  = ((insert_attachment st now m).1,
     remember_id ids m (insert_attachment st now m).2, add_att sts).
Proof.
  unfold save_attachment. by destruct (insert_attachment st now m).
Qed.

Lemma save_attachments_step now metas : forall st ids sts,
  att_step st (foldl (save_attachment now) (st, ids, sts) metas).1.1.
Proof.
  induction metas as [|m metas IH]; intros st ids sts; [done|].
  cbn [foldl]. rewrite save_attachment_eq.
  etrans; [|apply IH]. apply insert_attachment_step.
Qed.

(** [upsert_statements] as the composition of its four phases. *)
Definition phase_doc (doc : notes_doc) sid u metas (st : store) : store :=
  upsert_document st sid u (doc_row_of doc metas).

Definition phase_items (doc : notes_doc) sid u metas (st : store) : store :=
  foldl (store_item u) (phase_doc doc sid u metas st) (Items doc).

Definition phase_atts (doc : notes_doc) sid u metas now (st : store) (sts : stats)
    : store * gmap string nat * stats :=
  foldl (save_attachment now)
    (phase_items doc sid u metas st, ∅,
     Stats (scanned sts) (S (upserted sts)) (atts sts) (errors sts)) metas.

Lemma upsert_statements_eq doc sid u metas now st sts :
  upsert_statements doc sid u metas now st sts
  = (foldl (link_file_item u (phase_atts doc sid u metas now st sts).1.2)
       (phase_atts doc sid u metas now st sts).1.1 (Items doc),
     (phase_atts doc sid u metas now st sts).2).
Proof.
  unfold upsert_statements, phase_atts, phase_items, phase_doc.
  by destruct (foldl (save_attachment now) _ metas) as [[st3 ids] sts2].
Qed.

Lemma phase_atts_step doc sid u metas now st sts :
  att_step (phase_items doc sid u metas st) (phase_atts doc sid u metas now st sts).1.1.
Proof. apply save_attachments_step. Qed.

Lemma phase_items_step doc sid u metas st :
  eav_step (phase_doc doc sid u metas st) (phase_items doc sid u metas st).
Proof. apply foldl_step, store_item_step. Qed.

Lemma phase_files_step doc sid u metas now st sts :
  eav_step (phase_atts doc sid u metas now st sts).1.1
           (upsert_statements doc sid u metas now st sts).1.
Proof. rewrite upsert_statements_eq. apply foldl_step, link_file_item_step. Qed.

(** The tables after [upsert_statements], one by one. *)
Lemma upsert_statements_documents doc sid u metas now st sts :
  documents (upsert_statements doc sid u metas now st sts).1
  = documents (upsert_document st sid u (doc_row_of doc metas)).
Proof.
  destruct (phase_files_step doc sid u metas now st sts) as (_&_&_&->&_).
  destruct (phase_atts_step doc sid u metas now st sts) as (_&_&_&_&->&_).
  by destruct (phase_items_step doc sid u metas st) as (_&_&_&->&_).
Qed.

Lemma save_attachments_present now ms : forall st ids sts,
  Forall (fun m => existsb (att_is m)
     (attachments (foldl (save_attachment now) (st, ids, sts) ms).1.1) = true) ms.
Proof.
  induction ms as [|m ms IH]; intros st ids sts; [done|].
  cbn [foldl]. rewrite save_attachment_eq. constructor; [|apply IH].
  pose proof (insert_attachment_present st now m) as Hin.
  destruct (save_attachments_step now ms (insert_attachment st now m).1
              (remember_id ids m (insert_attachment st now m).2) (add_att sts))
    as [[k ->] _].
  by rewrite existsb_app, Hin.
Qed.

Lemma upsert_statements_attachments doc sid u metas now st sts :
  attachments st
    `prefix_of` attachments (upsert_statements doc sid u metas now st sts).1
  /\ Forall (fun m => existsb (att_is m)
               (attachments (upsert_statements doc sid u metas now st sts).1) = true)
       metas.
Proof.
  destruct (phase_files_step doc sid u metas now st sts) as (_&_&->&_).
  split.
  - destruct (phase_atts_step doc sid u metas now st sts) as (H&_).
    destruct (phase_items_step doc sid u metas st) as (_&_&He&_).
    by rewrite He in H.
  - apply save_attachments_present.
Qed.

(** *** The document row *)

Lemma doc_row_of_text doc metas :
  text_body (doc_row_of doc metas) = Some (get_doc_text_body doc)
  /\ text_hash (doc_row_of doc metas)
     = (if Py.truthy (get_doc_text_body doc)
        then Some (sha256 (Py.utf8 (get_doc_text_body doc))) else None)
  /\ has_attachments (doc_row_of doc metas)
     = match metas with [] => 0%Z | _ => 1%Z end.
Proof.
  unfold doc_row_of. destruct (foldl scan_meta _ _) as [[subject form] author].
  by destruct (get_doc_times doc).
Qed.

Lemma upsert_document_lookup st sid u row :
  exists sid',
    documents (upsert_document st sid u row)
    = <[u := DocumentRow sid' (d_note_id row) (d_form row) (d_subject row)
               (d_author row) (d_created_at row) (d_modified_at row)
               (has_attachments row) (text_hash row) (text_body row)
               (doc_size_bytes row)]> (documents st).
Proof. unfold upsert_document. simpl. eauto. Qed.

(** What a call that returns a UNID has done. *)
Lemma upsert_returned doc sid con tmp sts fs now fs1 con1 sts1 u :
  upsert_document_from_notes CAS_ROOT doc sid con tmp sts fs now
    = (fs1, con1, sts1, Returned u) ->
  Py.truthy u = true ->
  exists metas,
    UniversalID doc = Some u
    /\ extract_embedded_attachments_from_doc CAS_ROOT doc u tmp fs = (fs1, Some metas)
    /\ pending con1 = (upsert_statements doc sid u metas now (pending con) sts).1
    /\ committed con1 = pending con1.
Proof.
  unfold upsert_document_from_notes.
  destruct (UniversalID doc) as [unid|]; [|by intros [= <- <- <- <-]].
  destruct (Py.truthy unid) eqn:Hu; simpl; [|by intros [= <- <- <- <-]].
  destruct (extract_embedded_attachments_from_doc CAS_ROOT doc unid tmp fs)
    as [fs' [metas|]] eqn:He; [|done].
  destruct (upsert_statements doc sid unid metas now (pending con) sts)
    as [st' sts'] eqn:Hs.
  intros [= <- <- <- <-] _. exists metas. by rewrite Hs.
Qed.

Definition text_hash_ok (row : document_row) : Prop :=
  match text_body row with
  | Some body =>
      text_hash row = if Py.truthy body then Some (sha256 (Py.utf8 body)) else None
  | None => text_hash row = None
  end.

(** C5.  The row an upsert writes carries the SHA-256 of the UTF-8 encoding
    of its text body when the body is not empty, and a null hash when it is;
    and so does every row of [documents] after the upsert if every row did
    before. *)
Theorem upserted_text_hash doc sid con tmp sts fs now fs1 con1 sts1 u :
  upsert_document_from_notes CAS_ROOT doc sid con tmp sts fs now
    = (fs1, con1, sts1, Returned u) ->
  Py.truthy u = true ->
  (exists row body,
     documents (committed con1) !! u = Some row
     /\ text_body row = Some body
     /\ (Py.truthy body = true -> text_hash row = Some (sha256 (Py.utf8 body)))
     /\ (Py.truthy body = false -> text_hash row = None))
  /\ (map_Forall (fun _ r => text_hash_ok r) (documents (pending con)) ->
      map_Forall (fun _ r => text_hash_ok r) (documents (committed con1))).
Proof.
  intros Hup Hu. destruct (upsert_returned _ _ _ _ _ _ _ _ _ _ _ Hup Hu)
    as (metas & _ & _ & Hp & ->).
  rewrite Hp, upsert_statements_documents.
  destruct (upsert_document_lookup (pending con) sid u (doc_row_of doc metas))
    as [sid' ->].
  destruct (doc_row_of_text doc metas) as (Hb & Hh & _). split.
  - eexists _, _. rewrite lookup_insert_eq. split; [done|]. simpl.
    split; [exact Hb|]. rewrite Hh. split; by intros ->.
  - intros Hall. apply map_Forall_insert_2; [|done].
    unfold text_hash_ok. simpl. by rewrite Hb, Hh.
Qed.

(** *** Attachments and [has_attachments] *)

Lemma extract_objects_unid u name tmp eos : forall fs idx fs1 metas,
  extract_objects CAS_ROOT u name tmp fs idx eos = (fs1, Some metas) ->
  Forall (fun m => m_unid m = u) metas.
Proof.
  induction eos as [|eo eos IH]; intros fs idx fs1 metas; simpl.
  - by intros [= <- <-].
  - destruct (negb (type_ok (eo_Type eo))); [apply IH|].
    destruct (eo_file eo) as [content|]; [|apply IH].
    destruct (Cas.cas_store _ _ _ _) as [[fs2 r]|]; [|done].
    destruct (extract_objects CAS_ROOT u name tmp _ (S idx) eos)
      as [fs3 [more|]] eqn:He; simpl; [|done].
    intros [= <- <-]. constructor; [done|]. by eapply IH.
Qed.

Lemma extract_items_unid u tmp its : forall fs fs1 metas,
  extract_items CAS_ROOT u tmp fs its = (fs1, Some metas) ->
  Forall (fun m => m_unid m = u) metas.
Proof.
  induction its as [|it its IH]; intros fs fs1 metas; simpl.
  - by intros [= <- <-].
  - destruct (extract_objects CAS_ROOT u (Name it) tmp fs 1 (EmbeddedObjects it))
      as [fs' [out|]] eqn:Ho; [|done].
    destruct (extract_items CAS_ROOT u tmp fs' its) as [fs2 [more|]] eqn:He;
      simpl; [|done].
    intros [= <- <-]. apply Forall_app. split.
    + by eapply extract_objects_unid.
    + by eapply IH.
Qed.

Lemma att_is_unid m atts :
  existsb (att_is m) atts = true -> exists a, a ∈ atts /\ a_unid a = m_unid m.
Proof.
  intros (a & Hin & Ha)%existsb_exists. exists a. split; [by apply list_elem_of_In|].
  unfold att_is in Ha. apply andb_prop in Ha as [Ha _]. apply andb_prop in Ha as [Ha _].
  by apply String.eqb_eq.
Qed.

Definition attachments_witnessed (st : store) : Prop :=
  forall u row, documents st !! u = Some row -> has_attachments row = 1%Z ->
    exists a, a ∈ attachments st /\ a_unid a = u.

(** C6 (amended).  After an upsert the document's [has_attachments] is 1
    exactly when the pass itself extracted at least one attachment; when it
    is 1 an Attachment row with the same UNID exists; and if before the
    upsert every row with [has_attachments = 1] had its Attachment row, the
    same holds after it. *)
Theorem has_attachments_current_pass doc sid con tmp sts fs now fs1 con1 sts1 u :
  upsert_document_from_notes CAS_ROOT doc sid con tmp sts fs now
    = (fs1, con1, sts1, Returned u) ->
  Py.truthy u = true ->
  exists metas row,
    extract_embedded_attachments_from_doc CAS_ROOT doc u tmp fs = (fs1, Some metas)
    /\ documents (committed con1) !! u = Some row
    /\ (has_attachments row = 1%Z <-> metas <> [])
    /\ (has_attachments row = 1%Z ->
        exists a, a ∈ attachments (committed con1) /\ a_unid a = u)
    /\ (attachments_witnessed (pending con) ->
        attachments_witnessed (committed con1)).
Proof.
  intros Hup Hu. destruct (upsert_returned _ _ _ _ _ _ _ _ _ _ _ Hup Hu)
    as (metas & _ & Hex & Hp & ->).
  exists metas. rewrite Hp.
  pose proof (upsert_statements_documents doc sid u metas now (pending con) sts) as Hd.
  destruct (upsert_document_lookup (pending con) sid u (doc_row_of doc metas))
    as [sid' Hl]. rewrite Hl in Hd. clear Hl.
  destruct (upsert_statements_attachments doc sid u metas now (pending con) sts)
    as [Hpre Hall].
  destruct (doc_row_of_text doc metas) as (_ & _ & Hh).
  assert (Hsome : metas <> [] ->
    exists a, a ∈ attachments (upsert_statements doc sid u metas now (pending con) sts).1
              /\ a_unid a = u).
  { destruct metas as [|m ms]; [done|]. intros _.
    apply Forall_cons in Hall as [Hm _]. apply att_is_unid in Hm as (a & Ha & Hu').
    exists a. split; [done|]. rewrite Hu'.
    apply extract_items_unid in Hex. by apply Forall_cons in Hex as [-> _]. }
  assert (Hiff : has_attachments (doc_row_of doc metas) = 1%Z <-> metas <> []).
  { rewrite Hh. by destruct metas. }
  eexists. split; [done|]. rewrite Hd, lookup_insert_eq. split; [done|]. simpl.
  split; [done|]. split; [intros H; by apply Hsome, Hiff|].
  intros Hinv u' row'. rewrite Hd. destruct (decide (u' = u)) as [->|Hne].
  - rewrite lookup_insert_eq. intros [= <-]. simpl. intros H. by apply Hsome, Hiff.
  - rewrite lookup_insert_ne by done. intros Hrow H1.
    destruct (Hinv u' row' Hrow H1) as (a & Ha & Ha').
    exists a. split; [|done]. destruct Hpre as [k ->]. apply elem_of_app. by left.
Qed.

(** *** The item filter *)

Lemma select_id_Some {A} (p : A -> bool) rows iv :
  select_id p rows = Some iv <->
  exists j row, iv = S j /\ rows !! j = Some row /\ p row = true
    /\ forall j' row', rows !! j' = Some row' -> j' < j -> p row' = false.
Proof.
  unfold select_id. split.
  - destruct (list_find _ rows) as [[j row]|] eqn:Hf; [|done]. intros [= <-].
    apply list_find_Some in Hf as (Hl & Hp & Hmin). exists j, row.
    repeat split; try done. intros j' row' Hl' Hlt.
    specialize (Hmin j' row' Hl' Hlt). by destruct (p row').
  - intros (j & row & -> & Hl & Hp & Hmin).
    assert (list_find (fun r => p r = true) rows = Some (j, row)) as ->; [|done].
    apply list_find_Some. repeat split; try done.
    intros j' row' Hl' Hlt. rewrite (Hmin j' row' Hl' Hlt). done.
Qed.

Lemma select_id_None {A} (p : A -> bool) rows :
  select_id p rows = None <-> Forall (fun r => p r = false) rows.
Proof.
  unfold select_id. destruct (list_find _ rows) as [[j row]|] eqn:Hf.
  - split; [done|]. intros Hall. apply list_find_Some in Hf as (Hl & Hp & _).
    rewrite Forall_forall in Hall. apply list_elem_of_lookup_2 in Hl.
    rewrite (Hall _ Hl) in Hp. done.
  - split; [|done]. intros _. apply list_find_None in Hf.
    eapply Forall_impl; [exact Hf|]. intros r Hr. simpl in Hr. by destruct (p r).
Qed.

(** The value [coerce_insert_item_values] files for one Notes value. *)
Definition classify (rich : bool) (v : pyval)
    : val_kind * option string * option string * option number
      * option datetime * option Z :=
  match v with
  | PBool b => (k_bool, None, None, None, None, Some (Z.b2z b))
  | PInt n => (k_number, None, None, Some (float_of_int n), None, None)
  | PFloat x => (k_number, None, None, Some x, None, None)
  | PDatetime d => (k_datetime, None, None, None, Some (utc_naive d), None)
  | PNone | PStr _ =>
      match as_dt v with
      | Some dt => (k_datetime, None, None, None, Some dt, None)
      | None =>
          match v with
          | PNone => (k_unknown, None, None, None, None, None)
          | _ =>
              let s := py_str v in
              if (String.length s <=? 1024)%nat
              then (if rich then k_richtext else k_string, Some s, None, None, None, None)
              else (if rich then k_richtext else k_text,
                    Some (Py.prefix 1024 s), Some s, None, None, None)
          end
      end
  end.

Lemma coerce_value_classify st u i idx rich v :
  coerce_value st u i idx rich v
  = let '(k, s, t, n, dt, b) := classify rich v in
    insert_item_value st u i idx k s t n dt b None.
Proof.
  unfold coerce_value, classify. destruct v as [|b|n|x|d|s]; try done.
  - destruct (as_dt PNone); done.
  - destruct (as_dt (PStr s)); [done|].
    by destruct (String.length (py_str (PStr s)) <=? 1024)%nat.
Qed.

Lemma insert_item_value_spec st u i o k s t n dt b a :
  exists j row,
    item_values (insert_item_value st u i o k s t n dt b a) !! j = Some row
    /\ iv_matches i k s t n dt b a row = true
    /\ select_id (iv_matches i k s t n dt b a)
         (item_values (insert_item_value st u i o k s t n dt b a)) = Some (S j)
    /\ doc_item_values (insert_item_value st u i o k s t n dt b a)
       = <[(u, i, o) := LinkRow (S j) 0]> (doc_item_values st).
Proof.
  unfold insert_item_value, get_or_create_item_value, _select_existing_item_value.
  destruct (select_id _ (item_values st)) as [iv|] eqn:Hsel.
  - pose proof Hsel as Hsel'.
    apply select_id_Some in Hsel as (j & row & -> & Hl & Hp & _).
    exists j, row. by repeat split.
  - exists (length (item_values st)), (ItemValueRow i k
      (Some (_compute_val_hash i k s t n dt b a)) s t n dt b None a).
    assert (Hself : iv_matches i k s t n dt b a (ItemValueRow i k
      (Some (_compute_val_hash i k s t n dt b a)) s t n dt b None a) = true).
    { unfold iv_matches, null_eq. simpl. by rewrite !bool_decide_eq_true_2. }
    simpl. split; [by rewrite lookup_app_r, Nat.sub_diag|]. split; [done|].
    split.
    + apply select_id_Some. eexists _, _. split; [done|].
      split; [by rewrite lookup_app_r, Nat.sub_diag|]. split; [done|].
      intros j' row' Hl' Hlt. rewrite lookup_app_l in Hl' by done.
      apply select_id_None in Hsel. rewrite Forall_forall in Hsel.
      apply Hsel. by eapply list_elem_of_lookup_2.
    + by rewrite length_app, Nat.add_1_r.
Qed.

Lemma iv_matches_item_id i k s t n dt b a row :
  iv_matches i k s t n dt b a row = true ->
  iv_item_id row = i /\ iv_kind row = k /\ v_string row = s /\ v_text row = t
  /\ v_number row = n /\ v_datetime row = dt /\ v_bool row = b
  /\ attachment_id row = a.
Proof.
  unfold iv_matches, null_eq. rewrite !andb_true_iff, !bool_decide_eq_true.
  intros [[[[[[[[? ?] ?] ?] ?] ?] ?] _] ?]. by repeat split.
Qed.

(** A value is on file for [(u, i, o)] when the linker row exists and points
    to an [item_values] row of item [i] holding the classified value. *)
Definition filed (st : store) (u : string) (i o : nat) (rich : bool) (v : pyval) : Prop :=
  exists j row,
    doc_item_values st !! (u, i, o) = Some (LinkRow (S j) 0)
    /\ item_values st !! j = Some row
    /\ iv_item_id row = i
    /\ (iv_kind row, v_string row, v_text row, v_number row, v_datetime row,
        v_bool row) = classify rich v.

Lemma coerce_value_links st u i idx rich v :
  filed (coerce_value st u i idx rich v) u i idx rich v
  /\ forall key, key <> (u, i, idx) ->
       doc_item_values (coerce_value st u i idx rich v) !! key
       = doc_item_values st !! key.
Proof.
  rewrite coerce_value_classify.
  destruct (classify rich v) as [[[[[k s] t] n] dt] b] eqn:Hc.
  destruct (insert_item_value_spec st u i idx k s t n dt b None)
    as (j & row & Hl & Hm & _ & Hd).
  apply iv_matches_item_id in Hm as (?&?&?&?&?&?&?&?). split.
  - exists j, row. rewrite Hd, lookup_insert_eq. repeat split; try done. congruence.
  - intros key Hne. by rewrite Hd, lookup_insert_ne.
Qed.

Lemma filed_mono st st' u i o rich v :
  eav_step st st' ->
  doc_item_values st' !! (u, i, o) = doc_item_values st !! (u, i, o) ->
  filed st u i o rich v -> filed st' u i o rich v.
Proof.
  intros (_ & [k Hk] & _) Heq (j & row & Hl & Hr & Hrest).
  exists j, row. rewrite Heq. split; [done|]. split; [|done].
  rewrite Hk. by apply lookup_app_l_Some.
Qed.

Lemma coerce_from_links vals : forall st u i rich idx,
  (forall k v, vals !! k = Some v ->
     filed (coerce_from st u i rich idx vals) u i (idx + k) rich v)
  /\ (forall key, (forall k, k < length vals -> key <> (u, i, idx + k)) ->
       doc_item_values (coerce_from st u i rich idx vals) !! key
       = doc_item_values st !! key).
Proof.
  induction vals as [|v vals IH]; intros st u i rich idx; simpl.
  - split; [by intros k v' ?|done].
  - destruct (IH (coerce_value st u i idx rich v) u i rich (S idx)) as [IH1 IH2].
    destruct (coerce_value_links st u i idx rich v) as [Hv Hframe].
    split.
    + intros [|k] v' Hk; simpl in Hk.
      * injection Hk as <-. rewrite Nat.add_0_r.
        eapply filed_mono; [apply coerce_from_step| |exact Hv].
        apply IH2. intros k _ [=]. lia.
      * replace (idx + S k) with (S idx + k) by lia. by apply IH1.
    + intros key Hkey. rewrite IH2.
      * apply Hframe. specialize (Hkey 0 ltac:(lia)). by rewrite Nat.add_0_r in Hkey.
      * intros k Hk. specialize (Hkey (S k) ltac:(lia)).
        by replace (idx + S k) with (S idx + k) in Hkey by lia.
Qed.

(** The values the items loop files for an item it does not skip. *)
Definition values_to_store (it : item) : list pyval :=
  if is_rich it then [PStr (flatten_rich_text_item it)]
  else match Values it with
       | Scalar PNone => []
       | vals => as_list vals
       end.

(** C4.  [should_store_item] answers True exactly when no catalog row has the
    item's name (compared in lower case) or the row found has
    [notes_filter = 1]; the items loop leaves the store untouched for an item
    it answers False for, and files every value of an item it answers True
    for. *)
Theorem item_filter (st : store) (u : string) (it : item) :
  (should_store_item st (Name it) = true <->
     Forall (fun r => Py.lower (i_name r) <> Py.lower (Name it)) (items st)
     \/ exists j r, list_find (fun r => name_matches (Name it) r = true) (items st)
                      = Some (j, r)
                    /\ notes_filter r = Some 1%Z)
  /\ (should_store_item st (Name it) = false -> store_item u st it = st)
  /\ (should_store_item st (Name it) = true ->
      forall k v, values_to_store it !! k = Some v ->
        exists i, select_id (name_matches (Name it)) (items (store_item u st it)) = Some i
          /\ filed (store_item u st it) u i k (is_rich it) v).
Proof.
  split; [|split].
  - unfold should_store_item.
    destruct (list_find _ (items st)) as [[j r]|] eqn:Hf.
    + split.
      * intros H. right. exists j, r. split; [done|].
        destruct (notes_filter r) as [nf|]; [|done]. apply Z.eqb_eq in H. by subst.
      * intros [Hall|(j' & r' & [= <- <-] & ->)]; [|done].
        apply list_find_Some in Hf as (Hl & Hp & _). rewrite Forall_forall in Hall.
        apply list_elem_of_lookup_2 in Hl. apply Hall in Hl.
        unfold name_matches in Hp. by apply String.eqb_eq in Hp.
    + split; [|done]. intros _. left. apply list_find_None in Hf.
      eapply Forall_impl; [exact Hf|]. intros r Hr Heq. apply Hr.
      unfold name_matches. by apply String.eqb_eq.
  - intros H. unfold store_item. by rewrite H.
  - intros H k v Hk. unfold store_item, values_to_store in *. rewrite H. simpl.
    assert (Hgo : forall vs rich, as_list vs !! k = Some v ->
      exists i, select_id (name_matches (Name it))
                  (items (coerce_insert_item_values st u (Name it) vs rich)) = Some i
        /\ filed (coerce_insert_item_values st u (Name it) vs rich) u i k rich v).
    { intros vs rich Hvs. unfold coerce_insert_item_values.
      assert (Hid : select_id (name_matches (Name it))
                (items (get_item_id st (Name it)).1) = Some (get_item_id st (Name it)).2).
      { unfold get_item_id.
        destruct (select_id _ (items st)) as [i|] eqn:Hsel; simpl; [done|].
        apply select_id_Some. eexists _, _. rewrite length_app, Nat.add_1_r.
        split; [done|]. split; [by rewrite lookup_app_r, Nat.sub_diag|].
        split; [unfold name_matches; simpl; apply String.eqb_refl|].
        intros j' row' Hl' Hlt. rewrite lookup_app_l in Hl' by done.
        apply select_id_None in Hsel. rewrite Forall_forall in Hsel.
        apply Hsel. by eapply list_elem_of_lookup_2. }
      destruct (get_item_id st (Name it)) as [st1 i]. simpl in Hid.
      exists i. destruct (coerce_from_step (as_list vs) st1 u i rich 0) as [_ ->].
      split; [done|]. by apply (coerce_from_links (as_list vs) st1 u i rich 0). }
    destruct (is_rich it).
    + by apply (Hgo (Scalar (PStr (flatten_rich_text_item it)))).
    + destruct (Values it) as [[]|] eqn:Hv; try done; by apply (Hgo _ false).
Qed.

(** *** Upserting twice: the second run replays the first *)

Lemma store_ext (a b : store) :
  items a = items b -> item_values a = item_values b ->
  doc_item_values a = doc_item_values b -> attachments a = attachments b ->
  documents a = documents b -> document_views a = document_views b ->
  etl_checkpoints a = etl_checkpoints b -> a = b.
Proof. destruct a, b. simpl. congruence. Qed.

Lemma select_id_app_l {A} (p : A -> bool) l k i :
  select_id p l = Some i -> select_id p (l ++ k) = Some i.
Proof.
  unfold select_id. destruct (list_find _ l) as [[j r]|] eqn:Hf; [|done].
  intros [= <-]. by rewrite (list_find_app_l _ _ k _ _ Hf).
Qed.

Lemma list_find_app_new {A} (P : A -> Prop) `{forall x, Decision (P x)} l x k :
  list_find P l = None -> P x ->
  list_find P (l ++ x :: k) = Some (length l, x).
Proof.
  intros Hn Hx. rewrite list_find_app_r by done. simpl.
  by rewrite decide_True.
Qed.

Lemma select_id_app_new {A} (p : A -> bool) l x k :
  select_id p l = None -> p x = true ->
  select_id p (l ++ x :: k) = Some (S (length l)).
Proof.
  unfold select_id. destruct (list_find _ l) eqn:Hf; [done|]. intros _ Hx.
  by rewrite (list_find_app_new _ l x k Hf Hx).
Qed.

Section Replay.
(** [F] is the store the first run ends in. *)
Variable F : store.

(** A state of the first run: its catalog and value table are initial
    segments of the final ones. *)
Definition behind (a : store) : Prop :=
  items a `prefix_of` items F /\ item_values a `prefix_of` item_values F.

(** A state of the second run: catalog and value table are the final ones. *)
Definition caught_up (b : store) : Prop :=
  items b = items F /\ item_values b = item_values F.

Lemma behind_mono a a' : eav_step a a' -> behind a' -> behind a.
Proof. intros (?&?&_) [? ?]. split; by etrans. Qed.

(** An item id whose catalog row, at the end of the first run, has
    [notes_filter = 1]. *)
Definition good (i : nat) : bool :=
  match i with
  | O => false
  | S j => match items F !! j with
           | Some r => bool_decide (notes_filter r = Some 1%Z)
           | None => false
           end
  end.

(** Between the two runs a linker key is tracked when either neither run
    touched it or both left the same row. *)
Definition tracks (a a' b b' : store) (key : string * nat * nat) : Prop :=
  (doc_item_values a' !! key = doc_item_values a !! key
   /\ doc_item_values b' !! key = doc_item_values b !! key)
  \/ doc_item_values a' !! key = doc_item_values b' !! key.

Lemma tracks_refl a b key : tracks a a b b key.
Proof. by left. Qed.

Lemma tracks_trans a a' a'' b b' b'' key :
  tracks a a' b b' key -> tracks a' a'' b' b'' key -> tracks a a'' b b'' key.
Proof.
  intros [[H1 H2]|H1] [[H3 H4]|H3]; unfold tracks.
  - left. split; congruence.
  - by right.
  - right. congruence.
  - by right.
Qed.

(** Both runs replay an operation scoped to the item id [i]. *)
Definition replayed (i : nat) (a a' b b' : store) : Prop :=
  caught_up b'
  /\ (forall key, tracks a a' b b' key)
  /\ (forall key, key.1.2 <> i ->
        doc_item_values a' !! key = doc_item_values a !! key
        /\ doc_item_values b' !! key = doc_item_values b !! key).

Lemma replayed_refl i a b : caught_up b -> replayed i a a b b.
Proof. intros ?. split; [done|]. split; [intros; apply tracks_refl | done]. Qed.

Lemma replayed_trans i a a' a'' b b' b'' :
  replayed i a a' b b' -> replayed i a' a'' b' b'' -> replayed i a a'' b b''.
Proof.
  intros (_ & Ht & Hf) (Hc & Ht' & Hf'). split; [done|]. split.
  - intros key. eapply tracks_trans; [apply Ht | apply Ht'].
  - intros key Hne. destruct (Hf key Hne), (Hf' key Hne). split; congruence.
Qed.

Lemma replay_get_item_id a b name :
  behind (get_item_id a name).1 -> caught_up b ->
  get_item_id b name = (b, (get_item_id a name).2).
Proof.
  intros [[k Hk] _] [Hb _]. unfold get_item_id in *.
  destruct (select_id _ (items a)) as [i|] eqn:Hsel; simpl in *.
  - rewrite Hb, Hk. by rewrite (select_id_app_l _ _ k _ Hsel).
  - rewrite Hb, Hk, <- app_assoc. simpl.
    rewrite (select_id_app_new _ _ _ k Hsel).
    + by rewrite length_app, Nat.add_1_r.
    + unfold name_matches. simpl. apply String.eqb_refl.
Qed.

Lemma iv_matches_self i k s t n dt b a h :
  iv_matches i k s t n dt b a (ItemValueRow i k h s t n dt b None a) = true.
Proof. unfold iv_matches, null_eq. simpl. by rewrite !bool_decide_eq_true_2. Qed.

Lemma replay_get_or_create a b i k s t n dt bb att :
  behind (get_or_create_item_value a i k s t n dt bb att).1 -> caught_up b ->
  get_or_create_item_value b i k s t n dt bb att
  = (b, (get_or_create_item_value a i k s t n dt bb att).2).
Proof.
  intros [_ [l Hl]] [_ Hb].
  unfold get_or_create_item_value, _select_existing_item_value in *.
  destruct (select_id _ (item_values a)) as [iv|] eqn:Hsel; simpl in *.
  - rewrite Hb, Hl. by rewrite (select_id_app_l _ _ l _ Hsel).
  - rewrite Hb, Hl, <- app_assoc. simpl.
    rewrite (select_id_app_new _ _ _ l Hsel).
    + by rewrite length_app, Nat.add_1_r.
    + apply iv_matches_self.
Qed.

Lemma replay_insert_item_value a b u i o k s t n dt bb att :
  behind (insert_item_value a u i o k s t n dt bb att) -> caught_up b ->
  replayed i a (insert_item_value a u i o k s t n dt bb att)
             b (insert_item_value b u i o k s t n dt bb att).
Proof.
  intros Hbehind Hb. unfold insert_item_value in *.
  assert (behind (get_or_create_item_value a i k s t n dt bb att).1) as Hbe.
  { destruct (get_or_create_item_value a i k s t n dt bb att) as [a1 iv].
    destruct Hbehind as [? ?]. by split. }
  rewrite (replay_get_or_create a b i k s t n dt bb att Hbe Hb).
  destruct (get_or_create_item_value a i k s t n dt bb att) as [a1 iv] eqn:Hg.
  pose proof (get_or_create_step a i k s t n dt bb att) as (_ & Hlinks & _).
  rewrite Hg in Hlinks. unfold link_doc_item_value, with_links. simpl in *.
  split; [done|]. split.
  - intros key. unfold tracks. simpl.
    destruct (decide (key = (u, i, o))) as [->|Hne].
    + right. by rewrite !lookup_insert_eq.
    + left. rewrite !lookup_insert_ne by done. by rewrite Hlinks.
  - intros [[u' i'] o'] Hne. simpl in *.
    rewrite !lookup_insert_ne by congruence. by rewrite Hlinks.
Qed.

Lemma replay_coerce_value a b u i idx rich v :
  behind (coerce_value a u i idx rich v) -> caught_up b ->
  replayed i a (coerce_value a u i idx rich v) b (coerce_value b u i idx rich v).
Proof.
  rewrite !coerce_value_classify.
  destruct (classify rich v) as [[[[[k s] t] n] dt] bb].
  apply replay_insert_item_value.
Qed.

Lemma replay_coerce_from vals : forall a b u i rich idx,
  behind (coerce_from a u i rich idx vals) -> caught_up b ->
  replayed i a (coerce_from a u i rich idx vals) b (coerce_from b u i rich idx vals).
Proof.
  induction vals as [|v vals IH]; intros a b u i rich idx Hbe Hb; simpl in *.
  - by apply replayed_refl.
  - assert (behind (coerce_value a u i idx rich v)) as Hbe1.
    { eapply behind_mono; [|exact Hbe]. apply coerce_from_step. }
    pose proof (replay_coerce_value a b u i idx rich v Hbe1 Hb) as H1.
    eapply replayed_trans; [exact H1|]. apply IH; [done|]. apply H1.
Qed.

Lemma replay_link_files_from ids vals : forall a b u i idx,
  behind (link_files_from a u i ids idx vals) -> caught_up b ->
  replayed i a (link_files_from a u i ids idx vals)
             b (link_files_from b u i ids idx vals).
Proof.
  induction vals as [|v vals IH]; intros a b u i idx Hbe Hb; simpl in *.
  - by apply replayed_refl.
  - set (a1 := insert_item_value a u i idx k_string (Some (py_str v)) None None
                 None None (ids !! py_str v)) in *.
    assert (behind a1) as Hbe1.
    { eapply behind_mono; [|exact Hbe]. apply link_files_from_step. }
    pose proof (replay_insert_item_value a b u i idx k_string (Some (py_str v))
                  None None None None (ids !! py_str v) Hbe1 Hb) as H1.
    eapply replayed_trans; [exact H1|]. apply IH; [done|]. apply H1.
Qed.

(** What the two runs of an item-level step have in common. *)
Definition item_replayed (a a' b b' : store) : Prop :=
  caught_up b'
  /\ (forall key, good key.1.2 = true -> tracks a a' b b' key)
  /\ (forall key, good key.1.2 = false ->
        doc_item_values b' !! key = doc_item_values b !! key).

Lemma item_replayed_refl a b : caught_up b -> item_replayed a a b b.
Proof. intros ?. split; [done|]. split; [intros; apply tracks_refl|done]. Qed.

Lemma item_replayed_trans a a' a'' b b' b'' :
  item_replayed a a' b b' -> item_replayed a' a'' b' b'' ->
  item_replayed a a'' b b''.
Proof.
  intros (_ & Ht & Hf) (Hc & Ht' & Hf'). split; [done|]. split.
  - intros key Hg. eapply tracks_trans; [by apply Ht | by apply Ht'].
  - intros key Hg. rewrite Hf', Hf; done.
Qed.

Lemma replayed_good i a a' b b' :
  good i = true -> replayed i a a' b b' -> item_replayed a a' b b'.
Proof.
  intros Hg (Hc & Ht & Hf). split; [done|]. split; [by intros|].
  intros key Hk. apply (Hf key). intros Heq. rewrite Heq in Hk. congruence.
Qed.

(** A step of the first run that the second run skips, and that wrote
    only under an id that is not good. *)
Lemma skipped_fresh i a a' b :
  good i = false -> caught_up b ->
  (forall key, key.1.2 <> i ->
     doc_item_values a' !! key = doc_item_values a !! key) ->
  item_replayed a a' b b.
Proof.
  intros Hg Hb Hf. split; [done|]. split; [|done].
  intros key Hk. left. split; [|done]. apply Hf.
  intros Heq. rewrite Heq in Hk. congruence.
Qed.

Lemma coerce_from_frame vals a u i rich idx key :
  key.1.2 <> i ->
  doc_item_values (coerce_from a u i rich idx vals) !! key = doc_item_values a !! key.
Proof.
  intros Hne. apply coerce_from_links. intros k _ Heq. apply Hne. by rewrite Heq.
Qed.

Lemma link_files_from_frame ids vals : forall a u i idx key,
  key.1.2 <> i ->
  doc_item_values (link_files_from a u i ids idx vals) !! key
  = doc_item_values a !! key.
Proof.
  induction vals as [|v vals IH]; intros a u i idx key Hne; simpl; [done|].
  rewrite IH by done.
  destruct (insert_item_value_spec a u i idx k_string (Some (py_str v)) None None
              None None (ids !! py_str v)) as (j & row & _ & _ & _ & ->).
  apply lookup_insert_ne. intros Heq. apply Hne. by rewrite <- Heq.
Qed.

(** The name lookup in the two runs. *)
Lemma find_name_known a b name j r :
  behind a -> caught_up b ->
  list_find (fun r => name_matches name r = true) (items a) = Some (j, r) ->
  list_find (fun r => name_matches name r = true) (items b) = Some (j, r)
  /\ items F !! j = Some r.
Proof.
  intros [[k Hk] _] [Hb _] Hf. rewrite Hb, Hk. split.
  - by apply list_find_app_l.
  - apply list_find_Some in Hf as (Hl & _). by apply lookup_app_l_Some.
Qed.

Lemma select_id_list_find {A} (p : A -> bool) l :
  select_id p l = (fun ix => S ix.1) <$> list_find (fun r => p r = true) l.
Proof. done. Qed.

(** An operation on an item whose name the first run did not find in the
    catalog and had to insert. *)
Lemma find_name_fresh a b name k :
  caught_up b ->
  items F = (items a ++ [ItemRow name None]) ++ k ->
  list_find (fun r => name_matches name r = true) (items a) = None ->
  should_store_item b name = false /\ good (S (length (items a))) = false.
Proof.
  intros [Hb _] HF Hf.
  assert (list_find (fun r => name_matches name r = true) (items F)
          = Some (length (items a), ItemRow name None)) as Hfind.
  { rewrite HF, <- app_assoc. apply list_find_app_new; [done|].
    unfold name_matches. simpl. apply String.eqb_refl. }
  split.
  - unfold should_store_item. by rewrite Hb, Hfind.
  - unfold good. apply list_find_Some in Hfind as (-> & _). done.
Qed.

(** One operation of the items loop or of the $FILE loop: look the name
    up, and file values under its id. *)
Lemma replay_named (body : store -> nat -> store) a b name :
  (forall st i, eav_step st (body st i)) ->
  (forall st i, items (body st i) = items st) ->
  (forall st i key, key.1.2 <> i ->
     doc_item_values (body st i) !! key = doc_item_values st !! key) ->
  (forall a b i, behind (body a i) -> caught_up b ->
     replayed i a (body a i) b (body b i)) ->
  should_store_item a name = true ->
  behind (body (get_item_id a name).1 (get_item_id a name).2) ->
  caught_up b ->
  item_replayed a (body (get_item_id a name).1 (get_item_id a name).2)
    b (if should_store_item b name
       then body (get_item_id b name).1 (get_item_id b name).2 else b).
Proof.
  intros Hstep Hitems Hframe Hreplay Hstore Hbe Hb.
  assert (behind (get_item_id a name).1) as Hbe1.
  { eapply behind_mono; [apply Hstep | exact Hbe]. }
  assert (behind a) as Hbe0.
  { eapply behind_mono; [apply get_item_id_step | exact Hbe1]. }
  unfold should_store_item in Hstore.
  destruct (list_find (fun r => name_matches name r = true) (items a))
    as [[j r]|] eqn:Hf.
  - (* known to both runs, with notes_filter = 1 *)
    destruct (find_name_known a b name j r Hbe0 Hb Hf) as [Hfb HFj].
    assert (notes_filter r = Some 1%Z) as Hnf.
    { destruct (notes_filter r) as [nf|]; [|done]. apply Z.eqb_eq in Hstore. by subst. }
    unfold should_store_item at 1. rewrite Hfb, Hnf. simpl.
    rewrite (replay_get_item_id a b name Hbe1 Hb). simpl.
    assert (get_item_id a name = (a, S j)) as Hga.
    { unfold get_item_id. by rewrite select_id_list_find, Hf. }
    rewrite Hga in *. simpl in *.
    apply (replayed_good (S j)); [|by apply Hreplay].
    unfold good. by rewrite HFj, Hnf, bool_decide_eq_true_2.
  - (* inserted by the first run: the second run finds it with a NULL filter *)
    assert (get_item_id a name
            = (with_items a (items a ++ [ItemRow name None]),
               length (items a ++ [ItemRow name None]))) as Hga.
    { unfold get_item_id. by rewrite select_id_list_find, Hf. }
    rewrite Hga in *. simpl in *.
    destruct Hbe as [[k Hk] _]. rewrite Hitems in Hk. simpl in Hk.
    destruct (find_name_fresh a b name k Hb Hk Hf) as [-> Hng].
    rewrite length_app, Nat.add_1_r in *.
    apply (skipped_fresh (S (length (items a)))); [done..|].
    intros key Hne. by rewrite Hframe.
Qed.

Lemma replay_skip a b name :
  behind a -> caught_up b ->
  should_store_item a name = false -> should_store_item b name = false.
Proof.
  intros Hbe Hb. unfold should_store_item.
  destruct (list_find _ (items a)) as [[j r]|] eqn:Hf; [|done].
  destruct (find_name_known a b name j r Hbe Hb Hf) as [-> _]. done.
Qed.

Lemma replay_store_item u a b it :
  behind (store_item u a it) -> caught_up b ->
  item_replayed a (store_item u a it) b (store_item u b it).
Proof.
  intros Hbe Hb. unfold store_item in *.
  destruct (should_store_item a (Name it)) eqn:Hs; simpl in *.
  - assert (Hgo : forall vs rich,
      behind (coerce_insert_item_values a u (Name it) vs rich) ->
      item_replayed a (coerce_insert_item_values a u (Name it) vs rich) b
        (if should_store_item b (Name it)
         then coerce_insert_item_values b u (Name it) vs rich else b)).
    { intros vs rich Hbe'. unfold coerce_insert_item_values in *.
      pose proof (replay_named
        (fun st i => coerce_from st u i rich 0 (as_list vs)) a b (Name it)) as H.
      destruct (get_item_id a (Name it)) as [a1 ia].
      destruct (get_item_id b (Name it)) as [b1 ib]. simpl in H.
      apply H; try done.
      - intros. apply coerce_from_step.
      - intros. apply coerce_from_step.
      - intros. by apply coerce_from_frame.
      - intros. by apply replay_coerce_from. }
    destruct (is_rich it).
    + specialize (Hgo (Scalar (PStr (flatten_rich_text_item it))) true Hbe).
      by destruct (should_store_item b (Name it)).
    + destruct (Values it) as [v|vs] eqn:Hv.
      * destruct v;
          [destruct (negb _); by apply item_replayed_refl
          |(specialize (Hgo _ false Hbe);
            by destruct (should_store_item b (Name it)))..].
      * specialize (Hgo (Tuple vs) false Hbe).
        by destruct (should_store_item b (Name it)).
  - rewrite (replay_skip a b (Name it) Hbe Hb Hs). simpl.
    by apply item_replayed_refl.
Qed.

Lemma replay_link_file_item u ids a b it :
  behind (link_file_item u ids a it) -> caught_up b ->
  item_replayed a (link_file_item u ids a it) b (link_file_item u ids b it).
Proof.
  intros Hbe Hb. unfold link_file_item in *.
  destruct (negb (String.eqb (Name it) "$FILE")); [by apply item_replayed_refl|].
  destruct (should_store_item a "$FILE") eqn:Hs; simpl in *.
  - set (vals := match Values it with
                 | Scalar v => if py_truthy v then [v] else []
                 | Tuple l => l
                 end) in *.
    pose proof (replay_named
      (fun st i => link_files_from st u i ids 0 vals) a b "$FILE") as H.
    destruct (get_item_id a "$FILE") as [a1 ia].
    destruct (get_item_id b "$FILE") as [b1 ib]. simpl in H.
    assert (item_replayed a (link_files_from a1 u ia ids 0 vals) b
              (if should_store_item b "$FILE"
               then link_files_from b1 u ib ids 0 vals else b)) as Hr.
    { apply H; try done.
      - intros. apply link_files_from_step.
      - intros st i. clear. revert st. generalize 0.
        induction vals as [|v vals IH]; intros n st; simpl; [done|].
        rewrite IH. apply insert_item_value_step.
      - intros. by apply link_files_from_frame.
      - intros. by apply replay_link_files_from. }
    by destruct (should_store_item b "$FILE").
  - rewrite (replay_skip a b "$FILE" Hbe Hb Hs). simpl.
    by apply item_replayed_refl.
Qed.

Lemma replay_foldl (f : store -> item -> store) :
  (forall st x, eav_step st (f st x)) ->
  (forall a b x, behind (f a x) -> caught_up b ->
     item_replayed a (f a x) b (f b x)) ->
  forall its a b, behind (foldl f a its) -> caught_up b ->
    item_replayed a (foldl f a its) b (foldl f b its).
Proof.
  intros Hstep Hf its. induction its as [|x its IH]; intros a b Hbe Hb; simpl in *.
  - by apply item_replayed_refl.
  - assert (behind (f a x)) as Hbe1.
    { eapply behind_mono; [|exact Hbe]. by apply foldl_step. }
    pose proof (Hf a b x Hbe1 Hb) as H1.
    eapply item_replayed_trans; [exact H1|]. apply IH; [done|]. apply H1.
Qed.

End Replay.

Lemma select_id_is_Some {A} (p : A -> bool) l :
  existsb p l = true -> is_Some (select_id p l).
Proof.
  intros He. destruct (select_id p l) eqn:Hs; [by eexists|].
  apply select_id_None in Hs. apply existsb_exists in He as (x & Hin & Hx).
  rewrite Forall_forall in Hs. apply list_elem_of_In in Hin.
  rewrite (Hs _ Hin) in Hx. done.
Qed.

Lemma with_attachments_same st : with_attachments st (attachments st) = st.
Proof. by destruct st. Qed.

(** The attachments loop of the second run inserts nothing and returns the
    ids the first run returned. *)
Lemma replay_save_attachments F now now' metas : forall a ids sts b sts',
  attachments (foldl (save_attachment now) (a, ids, sts) metas).1.1
    `prefix_of` attachments F ->
  attachments b = attachments F ->
  (foldl (save_attachment now') (b, ids, sts') metas).1
  = (b, (foldl (save_attachment now) (a, ids, sts) metas).1.2).
Proof.
  induction metas as [|m metas IH]; intros a ids sts b sts' Hpre Hb; [done|].
  cbn [foldl] in *. rewrite save_attachment_eq in Hpre. rewrite !save_attachment_eq.
  pose proof (insert_attachment_present a now m) as Hin.
  destruct (save_attachments_step now metas (insert_attachment a now m).1
              (remember_id ids m (insert_attachment a now m).2) (add_att sts))
    as [[k1 Hk1] _].
  pose proof Hpre as Hpre'.
  destruct Hpre as [k2 Hk2]. rewrite Hk1, <- app_assoc in Hk2.
  assert (insert_attachment b now' m = (b, (insert_attachment a now m).2)) as Hib.
  { assert (existsb (att_is m) (attachments b) = true) as Hex.
    { by rewrite Hb, Hk2, existsb_app, Hin. }
    assert (select_id (att_is m) (attachments b) = (insert_attachment a now m).2)
      as Hsel.
    { rewrite Hb, Hk2. destruct (select_id_is_Some _ _ Hin) as [i Hi].
      rewrite (select_id_app_l _ _ _ _ Hi). by rewrite <- Hi. }
    unfold insert_attachment at 1. rewrite Hex, with_attachments_same.
    by rewrite Hsel. }
  rewrite Hib. simpl. by apply IH.
Qed.

(** Upserting the statements of the same document twice changes nothing
    the second time: not the tables, not even the ids. *)
Lemma upsert_statements_twice doc sid sid' u metas now now' st sts sts' :
  (upsert_statements doc sid' u metas now'
     (upsert_statements doc sid u metas now st sts).1 sts').1
  = (upsert_statements doc sid u metas now st sts).1.
Proof.
  set (F := (upsert_statements doc sid u metas now st sts).1).
  pose proof (phase_items_step doc sid u metas st) as Hs1.
  pose proof (phase_atts_step doc sid u metas now st sts) as Hs2.
  pose proof (phase_files_step doc sid u metas now st sts) as Hs3. fold F in Hs3.
  set (a0 := phase_doc doc sid u metas st) in *.
  set (a1 := phase_items doc sid u metas st) in *.
  set (a2 := (phase_atts doc sid u metas now st sts).1.1) in *.
  set (ids := (phase_atts doc sid u metas now st sts).1.2).
  assert (HF : F = foldl (link_file_item u ids) a2 (Items doc)).
  { unfold F. by rewrite upsert_statements_eq. }
  (* the document row is rewritten with itself *)
  assert (Hb0 : phase_doc doc sid' u metas F = F).
  { apply store_ext; try done. unfold phase_doc.
    assert (documents F = documents a0) as Hd.
    { destruct Hs3 as (_&_&_&->&_), Hs2 as (_&_&_&_&->&_). by destruct Hs1 as (_&_&_&->&_). }
    unfold upsert_document at 1. simpl. rewrite Hd. unfold a0, phase_doc, upsert_document.
    simpl. rewrite lookup_insert_eq. simpl. by rewrite insert_insert_eq. }
  assert (Hcu : caught_up F F) by done.
  assert (Hbe2 : behind F a2).
  { destruct Hs3 as (?&?&_). by split. }
  assert (Hbe1 : behind F a1).
  { destruct Hs2 as (_&Hi&Hv&_). destruct Hbe2 as [? ?]. split; congruence. }
  (* the items loop *)
  pose proof (replay_foldl F (store_item u) (store_item_step u)
                (replay_store_item F u) (Items doc) a0 F Hbe1 Hcu) as (Hc1 & Ht1 & Hf1).
  pose proof (foldl_step _ (store_item_step u) (Items doc) F) as Hsb1.
  set (b1 := foldl (store_item u) F (Items doc)) in *.
  (* the attachments loop *)
  assert (Hatt : (foldl (save_attachment now')
                    (b1, ∅, Stats (scanned sts') (S (upserted sts')) (atts sts')
                                  (errors sts')) metas).1 = (b1, ids)).
  { eapply (replay_save_attachments F now now' metas a1).
    - fold (phase_atts doc sid u metas now st sts). fold a2.
      destruct Hs3 as (_&_&->&_). done.
    - by destruct Hsb1 as (_&_&->&_). }
  (* the $FILE loop *)
  assert (Hb2 : caught_up F b1) by done.
  rewrite HF in Hbe2 at 1.
  assert (Hbe3 : behind F (foldl (link_file_item u ids) a2 (Items doc))).
  { rewrite <- HF. split; done. }
  pose proof (replay_foldl F (link_file_item u ids) (link_file_item_step u ids)
                (replay_link_file_item F u ids) (Items doc) a2 b1 Hbe3 Hb2)
    as (Hc3 & Ht3 & Hf3).
  rewrite <- HF in Ht3.
  pose proof (foldl_step _ (link_file_item_step u ids) (Items doc) b1) as Hsb3.
  set (b3 := foldl (link_file_item u ids) b1 (Items doc)) in *.
  assert (HG : (upsert_statements doc sid' u metas now' F sts').1 = b3).
  { rewrite upsert_statements_eq. simpl. unfold phase_atts, phase_items.
    rewrite Hb0. fold b1.
    destruct (foldl (save_attachment now') _ metas) as [[b2 ids'] sts2].
    simpl in Hatt. by injection Hatt as -> ->. }
  rewrite HG. destruct Hc3 as [Hi3 Hv3].
  destruct Hsb1 as (_&_&Ha1&Hd1&Hw1&He1), Hsb3 as (_&_&Ha3&Hd3&Hw3&He3).
  apply store_ext; try congruence.
  apply map_eq. intros key. destruct (good F key.1.2) eqn:Hg.
  - specialize (Ht1 key Hg). specialize (Ht3 key Hg).
    assert (doc_item_values a2 = doc_item_values a1) as Hl2
      by (by destruct Hs2 as (_&_&_&->&_)).
    destruct Ht3 as [[H1 H2]|H1]; [|done]. rewrite H2.
    destruct Ht1 as [[H3 H4]|H3]; [done|]. by rewrite <- H3, H1, Hl2.
  - rewrite (Hf3 key Hg), (Hf1 key Hg). done.
Qed.

(** What the extraction returns depends on the document only, not on the
    files that are there or on the temporary directory. *)
Lemma extract_objects_indep u name tmp tmp' eos : forall fs fs' idx fs1 fs1' ms ms',
  extract_objects CAS_ROOT u name tmp fs idx eos = (fs1, Some ms) ->
  extract_objects CAS_ROOT u name tmp' fs' idx eos = (fs1', Some ms') ->
  ms = ms'.
Proof.
  induction eos as [|eo eos IH]; intros fs fs' idx fs1 fs1' ms ms'; simpl.
  - by intros [= <- <-] [= <- <-].
  - destruct (negb (type_ok (eo_Type eo))); [apply IH|].
    destruct (eo_file eo) as [content|]; [|apply IH].
    destruct (Cas.cas_store sha256 CAS_ROOT (<[_ := content]> fs) _)
      as [[fs2 r]|] eqn:Hc; [|done].
    destruct (Cas.cas_store sha256 CAS_ROOT (<[_ := content]> fs') _)
      as [[fs2' r']|] eqn:Hc'; [|done].
    apply CasFacts.cas_store_result in Hc as (X & HX & Hd & Hr & Hz).
    apply CasFacts.cas_store_result in Hc' as (X' & HX' & Hd' & Hr' & Hz').
    rewrite lookup_insert_eq in HX, HX'. injection HX as <-. injection HX' as <-.
    destruct (extract_objects CAS_ROOT u name tmp _ (S idx) eos)
      as [fs3 [more|]] eqn:He; simpl; [|done].
    destruct (extract_objects CAS_ROOT u name tmp' _ (S idx) eos)
      as [fs3' [more'|]] eqn:He'; simpl; [|done].
    intros [= <- <-] [= <- <-]. rewrite (IH _ _ _ _ _ _ _ He He').
    f_equal. f_equal; congruence.
Qed.

Lemma extract_items_indep u tmp tmp' its : forall fs fs' fs1 fs1' ms ms',
  extract_items CAS_ROOT u tmp fs its = (fs1, Some ms) ->
  extract_items CAS_ROOT u tmp' fs' its = (fs1', Some ms') ->
  ms = ms'.
Proof.
  induction its as [|it its IH]; intros fs fs' fs1 fs1' ms ms'; simpl.
  - by intros [= <- <-] [= <- <-].
  - destruct (extract_objects CAS_ROOT u (Name it) tmp fs 1 (EmbeddedObjects it))
      as [fsa [out|]] eqn:Ho; [|done].
    destruct (extract_objects CAS_ROOT u (Name it) tmp' fs' 1 (EmbeddedObjects it))
      as [fsa' [out'|]] eqn:Ho'; [|done].
    destruct (extract_items CAS_ROOT u tmp fsa its) as [fs2 [more|]] eqn:He;
      simpl; [|done].
    destruct (extract_items CAS_ROOT u tmp' fsa' its) as [fs2' [more'|]] eqn:He';
      simpl; [|done].
    intros [= <- <-] [= <- <-].
    by rewrite (extract_objects_indep _ _ _ _ _ _ _ _ _ _ _ _ Ho Ho'),
               (IH _ _ _ _ _ _ He He').
Qed.

(** C2.  After a document has been upserted, upserting it again (the same
    items, values and embedded objects; another time, temporary directory
    or source id do not matter) leaves the store as the first upsert left
    it: [documents], [items], [item_values], [doc_item_values] and
    [attachments] hold the same rows, so no row count grows. *)
Theorem upsert_twice doc sid sid' con tmp tmp' sts fs now now'
    fs1 con1 sts1 u fs2 con2 sts2 o2 :
  upsert_document_from_notes CAS_ROOT doc sid con tmp sts fs now
    = (fs1, con1, sts1, Returned u) ->
  Py.truthy u = true ->
  upsert_document_from_notes CAS_ROOT doc sid' con1 tmp' sts1 fs1 now'
    = (fs2, con2, sts2, o2) ->
  committed con2 = committed con1
  /\ pending con2 = pending con1
  /\ documents (committed con2) = documents (committed con1)
  /\ item_values (committed con2) = item_values (committed con1)
  /\ doc_item_values (committed con2) = doc_item_values (committed con1)
  /\ attachments (committed con2) = attachments (committed con1)
  /\ size (documents (committed con2)) = size (documents (committed con1))
  /\ length (item_values (committed con2)) = length (item_values (committed con1))
  /\ size (doc_item_values (committed con2)) = size (doc_item_values (committed con1))
  /\ length (attachments (committed con2)) = length (attachments (committed con1)).
Proof.
  intros H1 Hu H2.
  destruct (upsert_returned _ _ _ _ _ _ _ _ _ _ _ H1 Hu)
    as (metas & HU & Hex & Hp & Hc).
  assert (committed con2 = committed con1 /\ pending con2 = pending con1) as [E1 E2].
  { unfold upsert_document_from_notes in H2. rewrite HU, Hu in H2. simpl in H2.
    destruct (extract_embedded_attachments_from_doc CAS_ROOT doc u tmp' fs1)
      as [fs' [metas'|]] eqn:He'.
    - assert (metas = metas') as <- by (by eapply extract_items_indep).
      destruct (upsert_statements doc sid' u metas now' (pending con1) sts1)
        as [st' sts'] eqn:Hs.
      injection H2 as <- <- <- <-. simpl.
      assert (st' = pending con1) as ->; [|by rewrite Hc].
      change st' with (st', sts').1. rewrite <- Hs, Hp.
      apply upsert_statements_twice.
    - by injection H2 as <- <- <- <-. }
  rewrite E1. by repeat split.
Qed.

(** *** What a call does to the connection *)

Lemma upsert_statements_checkpoints doc sid u metas now st sts :
  etl_checkpoints (upsert_statements doc sid u metas now st sts).1
  = etl_checkpoints st.
Proof.
  destruct (phase_files_step doc sid u metas now st sts) as (_&_&_&_&_&->).
  destruct (phase_atts_step doc sid u metas now st sts) as (_&_&_&_&_&_&->).
  by destruct (phase_items_step doc sid u metas st) as (_&_&_&_&_&->).
Qed.

Definition docs_grow (s s' : store) : Prop :=
  forall u, is_Some (documents s !! u) -> is_Some (documents s' !! u).

Lemma upsert_statements_docs_grow doc sid u metas now st sts :
  docs_grow st (upsert_statements doc sid u metas now st sts).1.
Proof.
  intros u' H. rewrite upsert_statements_documents.
  destruct (upsert_document_lookup st sid u (doc_row_of doc metas)) as [sid' ->].
  destruct (decide (u' = u)) as [->|Hne].
  - rewrite lookup_insert_eq. by eexists.
  - by rewrite lookup_insert_ne.
Qed.

(** A call either leaves the connection alone or runs one transaction, which
    leaves [etl_checkpoints] alone and removes no document. *)
Lemma upsert_connection doc sid con tmp sts fs now :
  (upsert_document_from_notes CAS_ROOT doc sid con tmp sts fs now).1.1.2 = con
  \/ exists st',
       (upsert_document_from_notes CAS_ROOT doc sid con tmp sts fs now).1.1.2
       = commit (execute con (fun _ => st'))
       /\ etl_checkpoints st' = etl_checkpoints (pending con)
       /\ docs_grow (pending con) st'.
Proof.
  unfold upsert_document_from_notes.
  destruct (UniversalID doc) as [unid|]; [|by left].
  destruct (negb (Py.truthy unid)); [by left|].
  destruct (extract_embedded_attachments_from_doc CAS_ROOT doc unid tmp fs)
    as [fs' [metas|]]; [|by left].
  pose proof (upsert_statements_checkpoints doc sid unid metas now (pending con) sts).
  pose proof (upsert_statements_docs_grow doc sid unid metas now (pending con) sts).
  destruct (upsert_statements doc sid unid metas now (pending con) sts)
    as [st' sts']. right. by exists st'.
Qed.

End WithRuntime.

End SinkFacts.

(** ** The checkpointed loop *)

Module CheckpointFacts.

Import Sink Checkpoint SinkFacts.
Local Open Scope list_scope.

Section WithRuntime.
Context {rt : Runtime}.
Variable CAS_ROOT : string.

(** A transaction, from one durable state to the next, is separate when it
    either leaves [etl_checkpoints] alone or leaves everything else alone. *)
Definition separate (s s' : store) : Prop :=
  etl_checkpoints s' = etl_checkpoints s
  \/ (items s' = items s /\ item_values s' = item_values s
      /\ doc_item_values s' = doc_item_values s
      /\ attachments s' = attachments s /\ documents s' = documents s
      /\ document_views s' = document_views s).

Definition transaction_ok (s s' : store) : Prop := separate s s' /\ docs_grow s s'.

(** [chain R s0 [s1; ...; sn]]: [R s0 s1], [R s1 s2], ... *)
Fixpoint chain (R : store -> store -> Prop) (s0 : store) (l : list store) : Prop :=
  match l with
  | [] => True
  | s :: rest => R s0 s /\ chain R s rest
  end.

Lemma default_last_cons (d x : store) l :
  default d (last (x :: l)) = default x (last l).
Proof.
  destruct l as [|y r]; [done|]. change (last (x :: y :: r)) with (last (y :: r)).
  destruct (last (y :: r)) eqn:Hl; [done|]. by apply last_None in Hl.
Qed.

Lemma chain_snoc R s0 l s :
  chain R s0 (l ++ [s]) <-> chain R s0 l /\ R (default s0 (last l)) s.
Proof.
  revert s0. induction l as [|x l IH]; intros s0; [simpl; tauto|].
  rewrite default_last_cons. simpl. rewrite IH. tauto.
Qed.

(** The state of the log while a view is processed: [l] is what the run has
    committed so far on top of [base]. *)
Definition log_inv (base : store) (c0 : list store) (con : conn) : Prop :=
  exists l, commits con = c0 ++ l
    /\ chain transaction_ok base l
    /\ committed con = default base (last l)
    /\ etl_checkpoints (pending con) = etl_checkpoints (committed con)
    /\ docs_grow (committed con) (pending con).

Lemma docs_grow_refl s : docs_grow s s.
Proof. by intros u. Qed.

Lemma docs_grow_trans a b c : docs_grow a b -> docs_grow b c -> docs_grow a c.
Proof. intros H1 H2 u Hu. by apply H2, H1. Qed.

Lemma log_inv_commit base c0 con :
  log_inv base c0 con -> log_inv base c0 (commit con).
Proof.
  intros (l & Hl & Hch & Hlast & He & Hd). exists (l ++ [pending con]). simpl.
  split; [by rewrite Hl, app_assoc|]. split.
  - apply chain_snoc. split; [done|]. rewrite <- Hlast. split; [by left|done].
  - rewrite last_snoc. simpl. split; [done|]. split; [done|]. apply docs_grow_refl.
Qed.

Lemma log_inv_execute base c0 con f :
  etl_checkpoints (f (pending con)) = etl_checkpoints (pending con) ->
  docs_grow (pending con) (f (pending con)) ->
  log_inv base c0 con -> log_inv base c0 (execute con f).
Proof.
  intros Hf Hg (l & Hl & Hch & Hlast & He & Hd). exists l. simpl.
  repeat split; try done; [congruence|]. by eapply docs_grow_trans.
Qed.

Lemma log_inv_checkpoint base c0 con pid sid view sig e lastu :
  log_inv base c0 con ->
  log_inv base c0
    (commit (execute (commit con)
       (fun st => upsert_checkpoint st pid sid view sig e lastu))).
Proof.
  intros H. apply log_inv_commit in H.
  destruct H as (l & Hl & Hch & Hlast & He & Hd).
  eexists (l ++ [_]). simpl in *. split; [by rewrite Hl, app_assoc|]. split.
  - apply chain_snoc. split; [done|]. rewrite <- Hlast. split; [by right|done].
  - rewrite last_snoc. simpl. split; [done|]. split; [done|]. apply docs_grow_refl.
Qed.

Lemma log_inv_upsert base c0 doc sid con tmp sts fs now :
  log_inv base c0 con ->
  log_inv base c0
    (upsert_document_from_notes CAS_ROOT doc sid con tmp sts fs now).1.1.2.
Proof.
  intros H.
  destruct (upsert_connection CAS_ROOT doc sid con tmp sts fs now)
    as [->|(st' & -> & He & Hg)]; [done|].
  by apply log_inv_commit, log_inv_execute.
Qed.

Lemma log_inv_entry base c0 get_doc sid view tmp now fs con sts e :
  log_inv base c0 con ->
  log_inv base c0 (process_entry CAS_ROOT get_doc sid view tmp now (fs, con, sts) e).1.2.
Proof.
  intros H. unfold process_entry. destruct e as [unid cp].
  destruct (get_doc unid) as [| |doc]; [done..|].
  pose proof (log_inv_upsert base c0 doc sid con tmp sts fs now H) as H'.
  destruct (upsert_document_from_notes CAS_ROOT doc sid con tmp sts fs now)
    as [[[fs1 con1] sts1] [|u]]; simpl in *; [done|].
  destruct (Py.truthy u); [|done].
  apply log_inv_execute; [| |done].
  - unfold insert_document_view. by destruct (list_find _ _) as [[? ?]|].
  - unfold insert_document_view.
    destruct (list_find _ _) as [[? ?]|]; intros x Hx; exact Hx.
Qed.

Lemma log_inv_batch base c0 get_doc sid view tmp now batch : forall fs con sts,
  log_inv base c0 con ->
  log_inv base c0
    (foldl (process_entry CAS_ROOT get_doc sid view tmp now) (fs, con, sts) batch).1.2.
Proof.
  induction batch as [|e batch IH]; intros fs con sts H; [done|].
  cbn [foldl].
  pose proof (log_inv_entry base c0 get_doc sid view tmp now fs con sts e H) as H'.
  destruct (process_entry CAS_ROOT get_doc sid view tmp now (fs, con, sts) e)
    as [[fs1 con1] sts1]. by apply IH.
Qed.

Lemma log_inv_batches base c0 get_doc alive snapshot sig sid view tmp now
    plan_id bs fuel : forall next fs con sts fs' con' sts' status,
  log_inv base c0 con ->
  process_batches CAS_ROOT fuel get_doc alive snapshot sig sid view tmp now
    plan_id bs next (fs, con, sts) = Some (fs', con', sts', status) ->
  log_inv base c0 con'.
Proof.
  induction fuel as [|f IH]; intros next fs con sts fs' con' sts' status H; [done|].
  cbn [process_batches].
  destruct (length snapshot <=? next)%nat; [by intros [= <- <- <- <-]|].
  destruct (negb (alive next)); [by intros [= <- <- <- <-]|].
  pose proof (log_inv_batch base c0 get_doc sid view tmp now
    (take (Nat.min (next + bs) (length snapshot) - next) (drop next snapshot))
    fs con sts H) as H'.
  destruct (foldl _ (fs, con, sts) _) as [[fs1 con1] sts1]. simpl in H'.
  apply IH. destruct plan_id as [pid|].
  - by apply log_inv_checkpoint.
  - by apply log_inv_commit.
Qed.

(** The loop ends: with batches of at least one entry, one round of fuel
    per entry left, and one more, are enough. *)
Lemma process_batches_returns get_doc alive snapshot sig sid view tmp now
    plan_id bs fuel : forall next acc,
  0 < bs -> length snapshot - next < fuel ->
  is_Some (process_batches CAS_ROOT fuel get_doc alive snapshot sig sid view tmp
             now plan_id bs next acc).
Proof.
  induction fuel as [|f IH]; intros next acc Hbs Hf; [lia|].
  cbn [process_batches].
  destruct (Nat.leb_spec (length snapshot) next); [by eexists|].
  destruct (negb (alive next)); [by eexists|].
  destruct (foldl _ acc _) as [[fs1 con1] sts1].
  apply IH; [done|lia].
Qed.


End WithRuntime.

End CheckpointFacts.

(** ** Closed runs on the stand-in runtime *)

Module DemoRuns.

Import Sink Checkpoint SinkFacts CheckpointFacts Demo.
Local Open Scope list_scope.

(** A document with a subject and a body that embeds one attachment. *)
Definition demo_doc (file : option bytes) : notes_doc (rt := Demo.runtime) :=
  NotesDoc (Some "A"%string) "1F2"%string PNone PNone
    [Item "Subject" (Tuple [PStr "hi"]) [] false None None;
     Item "Body" (Scalar PNone)
       [Embedded (Some "f.bin"%string) (Some 1454%Z) file]
       false (Some 1%Z) (Some "see f.bin"%string)].

Definition no_stats : stats := Stats 0 0 0 0.

(** The first pass extracts the attachment. *)
Definition first_pass :=
  upsert_document_from_notes (rt := Demo.runtime) "cas"
    (demo_doc (Some [Byte.x01])) 1 (connect empty_store) "tmp" no_stats ∅ 0%Z.

(** The same document again. *)
Definition second_pass :=
  upsert_document_from_notes (rt := Demo.runtime) "cas"
    (demo_doc (Some [Byte.x01])) 1 first_pass.1.1.2 "tmp" first_pass.1.2
    first_pass.1.1.1 5%Z.

(** A later pass in which ExtractFile raises. *)
Definition failing_pass :=
  upsert_document_from_notes (rt := Demo.runtime) "cas"
    (demo_doc None) 1 first_pass.1.1.2 "tmp" first_pass.1.2
    first_pass.1.1.1 5%Z.

Lemma first_pass_outcome : first_pass.2 = Returned "A".
Proof. by vm_compute. Qed.

Lemma first_pass_returns :
  first_pass = (first_pass.1.1.1, first_pass.1.1.2, first_pass.1.2, Returned "A").
Proof.
  generalize first_pass_outcome. generalize first_pass.
  intros [[[? ?] ?] ?]. simpl. by intros ->.
Qed.

Lemma upsert_twice_witness :
  committed second_pass.1.1.2 = committed first_pass.1.1.2
  /\ pending second_pass.1.1.2 = pending first_pass.1.1.2
  /\ documents (committed second_pass.1.1.2) = documents (committed first_pass.1.1.2)
  /\ item_values (committed second_pass.1.1.2) = item_values (committed first_pass.1.1.2)
  /\ doc_item_values (committed second_pass.1.1.2)
     = doc_item_values (committed first_pass.1.1.2)
  /\ attachments (committed second_pass.1.1.2) = attachments (committed first_pass.1.1.2)
  /\ size (documents (committed second_pass.1.1.2))
     = size (documents (committed first_pass.1.1.2))
  /\ length (item_values (committed second_pass.1.1.2))
     = length (item_values (committed first_pass.1.1.2))
  /\ size (doc_item_values (committed second_pass.1.1.2))
     = size (doc_item_values (committed first_pass.1.1.2))
  /\ length (attachments (committed second_pass.1.1.2))
     = length (attachments (committed first_pass.1.1.2)).
Proof.
  apply (upsert_twice (rt := Demo.runtime) "cas" (demo_doc (Some [Byte.x01])) 1 1
           (connect empty_store) "tmp" "tmp" no_stats ∅ 0%Z 5%Z
           first_pass.1.1.1 first_pass.1.1.2 first_pass.1.2 "A"
           second_pass.1.1.1 second_pass.1.1.2 second_pass.1.2 second_pass.2).
  - exact first_pass_returns.
  - reflexivity.
  - unfold second_pass. by destruct (upsert_document_from_notes _ _ _ _ _ _ _ _)
      as [[[? ?] ?] ?].
Defined.

Lemma upserted_text_hash_witness :
  (exists row body,
     documents (committed first_pass.1.1.2) !! "A"%string = Some row
     /\ text_body row = Some body
     /\ (Py.truthy body = true -> text_hash row = Some (sha256 (Py.utf8 body)))
     /\ (Py.truthy body = false -> text_hash row = None))
  /\ (map_Forall (fun _ r => text_hash_ok r) (documents (pending (connect empty_store))) ->
      map_Forall (fun _ r => text_hash_ok r) (documents (committed first_pass.1.1.2))).
Proof.
  apply (upserted_text_hash (rt := Demo.runtime) "cas" (demo_doc (Some [Byte.x01])) 1
           (connect empty_store) "tmp" no_stats ∅ 0%Z
           first_pass.1.1.1 first_pass.1.1.2 first_pass.1.2 "A").
  - exact first_pass_returns.
  - reflexivity.
Defined.

Lemma has_attachments_current_pass_witness :
  exists metas row,
    extract_embedded_attachments_from_doc "cas" (demo_doc (Some [Byte.x01]))
      "A" "tmp" ∅ = (first_pass.1.1.1, Some metas)
    /\ documents (committed first_pass.1.1.2) !! "A"%string = Some row
    /\ (has_attachments row = 1%Z <-> metas <> [])
    /\ (has_attachments row = 1%Z ->
        exists a, a ∈ attachments (committed first_pass.1.1.2) /\ a_unid a = "A"%string)
    /\ (attachments_witnessed (pending (connect empty_store)) ->
        attachments_witnessed (committed first_pass.1.1.2)).
Proof.
  apply (has_attachments_current_pass (rt := Demo.runtime) "cas"
           (demo_doc (Some [Byte.x01])) 1 (connect empty_store) "tmp" no_stats ∅ 0%Z
           first_pass.1.1.1 first_pass.1.1.2 first_pass.1.2 "A").
  - exact first_pass_returns.
  - reflexivity.
Defined.

(** C6 as stated fails.  The first pass stores the attachment of document
    A; in a later pass ExtractFile raises, the object is skipped, and the
    row of A is rewritten with [has_attachments = 0] although the Attachment
    row of the first pass is still there. *)
Lemma has_attachments_forgets_earlier_rows :
  (has_attachments <$> documents (committed first_pass.1.1.2) !! "A"%string) = Some 1%Z
  /\ (has_attachments <$> documents (committed failing_pass.1.1.2) !! "A"%string)
     = Some 0%Z
  /\ (a_unid <$> attachments (committed failing_pass.1.1.2) !! 0) = Some "A"%string.
Proof. split; [|split]; by vm_compute. Qed.

(** One view of one document, processed under plan 7. *)
Definition demo_get_doc (unid : string) : fetched (rt := Demo.runtime) :=
  if String.eqb unid "A" then Found (demo_doc None) else NotFound.

Definition demo_view :=
  process_view_into_db (rt := Demo.runtime) "cas" 2 demo_get_doc (fun _ => true)
    [("A"%string, None)] 1 "V" "tmp" 0%Z (Some 7) 50 (∅, connect empty_store, no_stats).


(** The states a run made durable, oldest first. *)
Definition durable_states
    (r : option (gmap string bytes * conn * stats * status)) : list store :=
  match r with
  | Some (_, con, _, _) => commits con
  | None => []
  end.


End DemoRuns.

(** ** Folder names: shape and fixed points *)

Module SanitizeShape.

Import Sanitize SanitizeFacts.
Local Open Scope list_scope.

(** No two underscores side by side. *)
Definition no_run (l : list ascii) : Prop :=
  forall l1 l2, l <> l1 ++ [underscore; underscore] ++ l2.

(** What the characters of a sanitised name look like. *)
Definition clean (c : ascii) : Prop := forbidden c = false /\ Py.isspace c = false.

Record shaped (l : list ascii) : Prop := Shaped {
  shaped_clean : Forall clean l;
  shaped_no_run : no_run l;
  shaped_head : head l <> Some underscore;
  shaped_last : last l <> Some underscore
}.

(** The part of [sanitize_folder_name] past the guard. *)
Definition body (max_len : nat) (l : list ascii) : list ascii :=
  Py.strip_by is_underscore (take max_len (collapse false (sub_forbidden l))).

Lemma chars_str (l : list ascii) : Py.chars (Py.str l) = l.
Proof. apply list_ascii_of_string_of_list_ascii. Qed.

Lemma str_chars (s : string) : Py.str (Py.chars s) = s.
Proof. apply string_of_list_ascii_of_string. Qed.

Lemma no_run_nil : no_run [].
Proof. intros [|? ?] l2 H; discriminate. Qed.

Lemma no_run_cons (c : ascii) (l : list ascii) :
  no_run l -> (c <> underscore \/ head l <> Some underscore) -> no_run (c :: l).
Proof.
  intros Hl Hc [|x l1] l2 H; simpl in H.
  - injection H as -> ->. destruct Hc as [Hc|Hc]; by apply Hc.
  - injection H as _ H. by apply (Hl l1 l2).
Qed.

Lemma no_run_app_r (l1 l2 : list ascii) : no_run (l1 ++ l2) -> no_run l2.
Proof.
  intros H a b ->. apply (H (l1 ++ a) b). by rewrite <- !app_assoc.
Qed.

Lemma no_run_app_l (l1 l2 : list ascii) : no_run (l1 ++ l2) -> no_run l1.
Proof.
  intros H a b ->. apply (H a (b ++ l2)). by rewrite <- !app_assoc.
Qed.

Lemma no_run_rev (l : list ascii) : no_run l -> no_run (rev l).
Proof.
  intros H a b Hr. apply (H (rev b) (rev a)).
  rewrite <- (rev_involutive l), Hr, !rev_app_distr. simpl.
  by rewrite <- !app_assoc.
Qed.

Lemma lstrip_by_suffix p (l : list ascii) :
  exists k, l = k ++ Py.lstrip_by p l.
Proof.
  induction l as [|c l [k IH]]; simpl; [by exists []|].
  destruct (p c); [|by exists []]. exists (c :: k). simpl. by f_equal.
Qed.

Lemma lstrip_by_head p (l : list ascii) c :
  head (Py.lstrip_by p l) = Some c -> p c = false.
Proof.
  induction l as [|d l IH]; simpl; [done|].
  destruct (p d) eqn:Hd; [done|]. simpl. by intros [= <-].
Qed.

Lemma lstrip_by_id p (l : list ascii) :
  (forall c, head l = Some c -> p c = false) -> Py.lstrip_by p l = l.
Proof.
  destruct l as [|c l]; simpl; [done|]. intros H. by rewrite (H c).
Qed.

Lemma head_rev (l : list ascii) : head (rev l) = last l.
Proof.
  induction l as [|c l IH] using rev_ind; [done|].
  by rewrite rev_app_distr, last_snoc.
Qed.

Lemma last_rev (l : list ascii) : last (rev l) = head l.
Proof. by rewrite <- head_rev, rev_involutive. Qed.

Lemma last_app_nonempty (k l : list ascii) : l <> [] -> last (k ++ l) = last l.
Proof.
  intros Hl. destruct l as [|c l] using rev_ind; [done|].
  by rewrite app_assoc, !last_snoc.
Qed.

Lemma strip_by_ends p (l : list ascii) c :
  (head (Py.strip_by p l) = Some c -> p c = false)
  /\ (last (Py.strip_by p l) = Some c -> p c = false).
Proof.
  unfold Py.strip_by. rewrite head_rev, last_rev. split.
  - set (m := rev (Py.lstrip_by p l)).
    destruct (lstrip_by_suffix p m) as [k Hk].
    destruct (Py.lstrip_by p m) as [|d r] eqn:Hm; [done|].
    intros Hlast.
    assert (last m = Some c) as Hc.
    { rewrite Hk. by rewrite last_app_nonempty. }
    unfold m in Hc. rewrite last_rev in Hc. by apply lstrip_by_head in Hc.
  - apply lstrip_by_head.
Qed.

Lemma strip_by_id p (l : list ascii) :
  (forall c, head l = Some c -> p c = false) ->
  (forall c, last l = Some c -> p c = false) ->
  Py.strip_by p l = l.
Proof.
  intros Hh Hl. unfold Py.strip_by. rewrite (lstrip_by_id p l) by done.
  rewrite lstrip_by_id; [apply rev_involutive|].
  intros c. rewrite head_rev. apply Hl.
Qed.

Lemma strip_by_no_run p (l : list ascii) : no_run l -> no_run (Py.strip_by p l).
Proof.
  intros H. unfold Py.strip_by. apply no_run_rev.
  destruct (lstrip_by_suffix p (rev (Py.lstrip_by p l))) as [k Hk].
  apply (no_run_app_r k). rewrite <- Hk. apply no_run_rev.
  destruct (lstrip_by_suffix p l) as [k' Hk'].
  apply (no_run_app_r k'). by rewrite <- Hk'.
Qed.

Lemma sep_underscore : sep underscore = true.
Proof. by vm_compute. Qed.

Lemma collapse_no_run (l : list ascii) :
  no_run (collapse false l) /\ no_run (collapse true l)
  /\ head (collapse true l) <> Some underscore.
Proof.
  induction l as [|c l (IH1 & IH2 & IH3)]; simpl.
  - split; [apply no_run_nil|]. split; [apply no_run_nil|done].
  - destruct (sep c) eqn:Hc.
    + split; [|done]. apply no_run_cons; [done|by right].
    + assert (c <> underscore) as Hne.
      { intros ->. by rewrite sep_underscore in Hc. }
      split; [apply no_run_cons; [done|by left]|].
      split; [apply no_run_cons; [done|by left]|].
      simpl. by intros [= ->].
Qed.

Lemma clean_underscore : clean underscore.
Proof. by vm_compute. Qed.

Lemma body_clean (n : nat) (l : list ascii) : Forall clean (body n l).
Proof.
  apply Forall_forall. intros c Hc. unfold body in Hc.
  apply elem_of_strip_by in Hc. apply elem_of_take in Hc as (i & Hc & _).
  apply list_elem_of_lookup_2 in Hc. apply collapse_clean in Hc as [->|[Hc Hs]].
  - apply clean_underscore.
  - unfold sub_forbidden in Hc. apply list_elem_of_fmap in Hc as (d & -> & _).
    unfold sep in Hs. apply orb_false_iff in Hs as [Hs _].
    split; [|done]. destruct (forbidden d) eqn:Hd; [by vm_compute|done].
Qed.

Lemma body_shaped (n : nat) (l : list ascii) : shaped (body n l).
Proof.
  split.
  - apply body_clean.
  - unfold body. apply strip_by_no_run.
    apply (no_run_app_l _ (drop n (collapse false (sub_forbidden l)))).
    rewrite take_drop. apply collapse_no_run.
  - intros H. by apply (strip_by_ends is_underscore) in H.
  - intros H. by apply (strip_by_ends is_underscore) in H.
Qed.

Lemma unnamed_shaped : shaped (Py.chars "Unnamed").
Proof.
  split; try done.
  - repeat constructor; by vm_compute.
  - change (Py.chars "Unnamed") with ("U" :: "n" :: "n" :: "a" :: "m" :: "e" :: "d" :: [])%char.
    repeat (apply no_run_cons; [|by left]). apply no_run_nil.
Qed.

Lemma sanitize_cases (name : string) (n : nat) :
  sanitize_folder_name name n = "Unnamed"%string
  \/ sanitize_folder_name name n = Py.str (body n (Py.chars name)).
Proof.
  unfold sanitize_folder_name, body. destruct (_ || _); [by left|by right].
Qed.

(** A shaped, non-empty list of at most [n] characters is left alone. *)
Lemma collapse_fixed (l : list ascii) :
  Forall clean l -> no_run l ->
  collapse false l = l
  /\ (head l <> Some underscore -> collapse true l = l).
Proof.
  induction l as [|c l IH]; intros Hc Hr; [done|].
  apply Forall_cons in Hc as [[_ Hsp] Hc].
  assert (no_run l) as Hr' by (by apply (no_run_app_r [c])).
  destruct (IH Hc Hr') as [IH1 IH2]. simpl.
  destruct (sep c) eqn:Hs.
  - assert (c = underscore) as ->.
    { unfold sep in Hs. rewrite Hsp in Hs. simpl in Hs.
      by apply Ascii.eqb_eq in Hs. }
    split; [|done]. f_equal. apply IH2. intros Hh.
    destruct l as [|d l]; [done|]. injection Hh as ->.
    by apply (Hr [] l).
  - by rewrite IH1.
Qed.

Lemma shaped_fixed (n : nat) (l : list ascii) :
  shaped l -> l <> [] -> length l <= n ->
  sanitize_folder_name (Py.str l) n = Py.str l.
Proof.
  intros [Hc Hr Hh Hl] Hne Hlen. unfold sanitize_folder_name.
  assert (Py.strip (Py.str l) = Py.str l) as Hstrip.
  { unfold Py.strip. rewrite chars_str. f_equal. apply strip_by_id.
    - intros c Hhead. destruct l as [|d l]; [done|]. injection Hhead as ->.
      apply Forall_cons in Hc as [[_ Hs] _]. done.
    - intros c Hlast. apply last_Some_elem_of in Hlast.
      rewrite Forall_forall in Hc. by destruct (Hc c Hlast). }
  assert (Py.truthy (Py.str l) = true) as Ht.
  { destruct l; [done|reflexivity]. }
  rewrite Hstrip, Ht. simpl. rewrite chars_str. f_equal.
  assert (sub_forbidden l = l) as ->.
  { unfold sub_forbidden. rewrite <- (map_id l) at 2.
    apply map_ext_Forall. eapply Forall_impl; [exact Hc|].
    intros c [Hf _]. by rewrite Hf. }
  destruct (collapse_fixed l Hc Hr) as [-> _].
  rewrite take_ge by done. apply strip_by_id.
  - intros c Hhead. unfold is_underscore. apply Ascii.eqb_neq. congruence.
  - intros c Hlast. unfold is_underscore. apply Ascii.eqb_neq. congruence.
Qed.

(** X1.  Whatever the name and the limit, the result of
    [sanitize_folder_name] has at most [max_len] characters, or is the
    seven-character fallback name. *)
Theorem sanitize_length_bound (name : string) (max_len : nat) :
  String.length (sanitize_folder_name name max_len) <= Nat.max max_len 7.
Proof.
  destruct (sanitize_cases name max_len) as [-> | ->].
  - simpl. lia.
  - rewrite length_str. unfold body. etrans; [apply length_strip_by|].
    rewrite length_take. lia.
Qed.

(** X2.  The result of [sanitize_folder_name] holds no forbidden character
    and no white space, neither starts nor ends with an underscore, and
    never has two underscores side by side. *)
Theorem sanitize_shape (name : string) (max_len : nat) :
  let r := Py.chars (sanitize_folder_name name max_len) in
  Forall (fun c => forbidden c = false /\ Py.isspace c = false) r
  /\ head r <> Some underscore
  /\ last r <> Some underscore
  /\ (forall l1 l2, r <> l1 ++ [underscore; underscore] ++ l2).
Proof.
  intros r. assert (shaped r) as [H1 H2 H3 H4]; [|done].
  unfold r. destruct (sanitize_cases name max_len) as [-> | ->].
  - apply unnamed_shaped.
  - rewrite chars_str. apply body_shaped.
Qed.

(** X3.  Sanitising is idempotent on what it produces, the empty result
    apart: a non-empty sanitised name, sanitised again with the same
    limit, comes back unchanged. *)
Theorem sanitize_idempotent (name : string) (max_len : nat) :
  7 <= max_len ->
  sanitize_folder_name name max_len <> ""%string ->
  sanitize_folder_name (sanitize_folder_name name max_len) max_len
  = sanitize_folder_name name max_len.
Proof.
  intros Hm Hne. destruct (sanitize_cases name max_len) as [Heq | Heq].
  - rewrite Heq. rewrite <- (str_chars "Unnamed").
    apply shaped_fixed; [apply unnamed_shaped|done|simpl; lia].
  - rewrite Heq in *. apply shaped_fixed; [apply body_shaped| |].
    + intros H. by rewrite H in Hne.
    + unfold body. etrans; [apply length_strip_by|]. rewrite length_take. lia.
Qed.

Lemma sanitize_idempotent_witness :
  sanitize_folder_name (sanitize_folder_name "Q3: plans / drafts" 100) 100
  = "Q3_plans_drafts"%string.
Proof.
  rewrite (sanitize_idempotent "Q3: plans / drafts" 100); [reflexivity|lia|].
  by vm_compute.
Defined.

End SanitizeShape.

(** ** The limiter's invariants *)

Module LimiterInvariants.

Import Limiter.
Local Open Scope Z_scope.

(** X4.  Started with its counter in 0..5 and a page size of at least 25,
    the limiter keeps both: the counter stays in 0..5, the page size never
    grows and never drops below 25, and a nap, when there is one, lasts 30
    seconds exactly and comes with the sixth error in a row (the part of
    the nap that grows with the counter never contributes). *)
Theorem limiter_invariant (l : limiter) :
  0 <= consec_service_errors l <= 5 ->
  25 <= page_size l ->
  let l' := (note_service_error l).1 in
  let nap := (note_service_error l).2 in
  0 <= consec_service_errors l' <= 5
  /\ 25 <= page_size l' <= page_size l
  /\ (nap = Some 30 /\ consec_service_errors l = 5
      \/ nap = None /\ consec_service_errors l < 5)
  /\ 0 <= consec_service_errors (note_success l) <= 5
  /\ page_size (note_success l) = page_size l.
Proof.
  intros Hc Hp. unfold note_service_error, note_success, MAX_CONSEC_SERVICE_ERRORS,
    MIN_PAGE_SIZE.
  destruct (Z.leb_spec 6 (consec_service_errors l + 1)) as [H6|H6]; simpl.
  - assert (consec_service_errors l = 5) as H5 by lia.
    assert (page_size l / 2 <= page_size l).
    { apply Z.div_le_upper_bound; lia. }
    repeat split; try lia. left. split; [|done]. rewrite H5. reflexivity.
  - repeat split; try lia. right. split; [done|lia].
Qed.

Lemma limiter_invariant_witness :
  25 <= page_size (note_service_error (Mk 5 INTER_PAGE_SLEEP 60)).1 <= 60
  /\ (note_service_error (Mk 5 INTER_PAGE_SLEEP 60)).2 = Some 30.
Proof.
  destruct (limiter_invariant (Mk 5 INTER_PAGE_SLEEP 60))
    as (_ & Hp & [[Hn _]|[_ Hc]] & _).
  - simpl. lia.
  - simpl. lia.
  - split; [exact Hp|exact Hn].
  - simpl in Hc. lia.
Defined.

(** X5.  A page size configured below the floor is raised by the step that
    is meant to reduce it: on the sixth error in a row a page size under 25
    becomes 25. *)
Theorem small_page_size_is_raised (l : limiter) :
  consec_service_errors l = 5 ->
  page_size l < 25 ->
  page_size (note_service_error l).1 = 25
  /\ page_size l < page_size (note_service_error l).1.
Proof.
  intros Hc Hp. unfold note_service_error, MAX_CONSEC_SERVICE_ERRORS, MIN_PAGE_SIZE.
  rewrite Hc. simpl.
  assert (page_size l / 2 < 25).
  { apply Z.div_lt_upper_bound; lia. }
  lia.
Qed.

Lemma small_page_size_is_raised_witness :
  page_size (note_service_error (Mk 5 INTER_PAGE_SLEEP 10)).1 = 25.
Proof.
  apply (small_page_size_is_raised (Mk 5 INTER_PAGE_SLEEP 10)); [reflexivity|simpl; lia].
Defined.

End LimiterInvariants.

(** ** The content-addressed store: what a call leaves behind *)

Module CasInvariants.

Import Cas CasFacts.
Local Open Scope list_scope.

Lemma chars_app (a b : string) : Py.chars (a ++ b)%string = Py.chars a ++ Py.chars b.
Proof.
  induction a as [|c a IH]; [done|].
  change (Py.chars (String c a ++ b)%string) with (c :: Py.chars (a ++ b)%string).
  by rewrite IH.
Qed.

Lemma chars_inj (a b : string) : Py.chars a = Py.chars b -> a = b.
Proof.
  intros H. rewrite <- (string_of_list_ascii_of_string a),
    <- (string_of_list_ascii_of_string b). unfold Py.chars in H. by rewrite H.
Qed.

Lemma chars_substring (n m : nat) (s : string) :
  Py.chars (substring n m s) = take m (drop n (Py.chars s)).
Proof.
  revert n m. induction s as [|c s IH]; intros n m.
  - destruct n, m; reflexivity.
  - destruct n as [|n].
    + destruct m as [|m]; [done|]. simpl. f_equal. apply (IH 0 m).
    + simpl. apply (IH n m).
Qed.

(** The characters of [relpath h]. *)
Definition rel_prefix (H : list ascii) : list ascii :=
  take 2 H ++ "/"%char :: take 2 (drop 2 H) ++ ["/"%char].

Lemma chars_relpath (h : string) :
  Py.chars (relpath h) = rel_prefix (Py.chars h) ++ Py.chars h ++ Py.chars ".bin".
Proof.
  unfold relpath, relpath_stem, rel_prefix.
  rewrite !chars_app, !chars_substring. simpl.
  rewrite drop_0. repeat (rewrite <- app_assoc; simpl). done.
Qed.

Lemma relpath_inj (h h' : string) : relpath h = relpath h' -> h = h'.
Proof.
  intros H. apply (f_equal Py.chars) in H. rewrite !chars_relpath in H.
  assert (length (Py.chars h) = length (Py.chars h')) as Hlen.
  { apply (f_equal length) in H. unfold rel_prefix in H.
    repeat (rewrite ?length_app, ?length_take, ?length_drop in H; cbn [length] in H).
    change (length (Py.chars ".bin")) with 4 in H. lia. }
  apply app_inj_2 in H as [_ H].
  - apply app_inv_tail in H. by apply chars_inj.
  - rewrite !length_app. change (length (Py.chars ".bin")) with 4. lia.
Qed.

Section WithHash.
Variable sha256 : bytes -> bytes.
Variable CAS_ROOT : string.

(** Two names of the store are the same file only when they are the same
    name. *)
Lemma dest_path_inj (h h' : string) :
  dest_path CAS_ROOT h = dest_path CAS_ROOT h' -> h = h'.
Proof.
  unfold dest_path. intros H. do 2 apply append_inj_l in H. by apply relpath_inj.
Qed.

End WithHash.

(** [bytes.hex] read back. *)
Definition digit_val (c : ascii) : nat :=
  default 0 (fst <$> list_find (fun d => d = c) (Py.chars "0123456789abcdef")).

Definition unhex_byte (l : list ascii) : option Byte.byte :=
  match l with
  | [c1; c2] => Byte.of_nat (16 * digit_val c1 + digit_val c2)
  | _ => None
  end.

Lemma unhex_hex_byte (b : Byte.byte) : unhex_byte (hex_byte b) = Some b.
Proof. destruct b; reflexivity. Qed.

Lemma hex_inj (d d' : bytes) : hex d = hex d' -> d = d'.
Proof.
  unfold hex. intros H. apply (f_equal Py.chars) in H.
  rewrite !SanitizeShape.chars_str in H.
  revert d' H. induction d as [|b d IH]; intros [|b' d'] H; try done.
  change (hex_byte b ++ concat (map hex_byte d)
          = hex_byte b' ++ concat (map hex_byte d')) in H.
  apply app_inj_1 in H as [Hb H]; [|done].
  f_equal; [|by apply IH].
  pose proof (unhex_hex_byte b) as H1. rewrite Hb, unhex_hex_byte in H1.
  by injection H1.
Qed.

Section Store.
Variable sha256 : bytes -> bytes.
Variable CAS_ROOT : string.

#[local] Abbreviation cas_store := (cas_store sha256 CAS_ROOT).
#[local] Abbreviation dest_path := (dest_path CAS_ROOT).
#[local] Abbreviation tmp_path := (tmp_path CAS_ROOT).

(** Every blob of the store is named by the digest of its content. *)
Definition well_named (fs : gmap string bytes) : Prop :=
  forall d c, fs !! dest_path (hex d) = Some c -> sha256 c = d.

(** X6.  A call of [cas_store] that returns never overwrites a blob that
    exists (it then changes nothing at all); when the blob is new it holds
    the content of [src], the temporary file is gone, and no other path of
    the file system has changed. *)
Theorem cas_store_frame (fs : gmap string bytes) (src : string)
    (fs1 : gmap string bytes) (r : put_result) :
  cas_store fs src = Some (fs1, r) ->
  let h := hex (put_digest r) in
  (is_Some (fs !! dest_path h) -> fs1 = fs /\ put_copied r = false)
  /\ (fs !! dest_path h = None ->
        fs1 !! dest_path h = fs !! src
        /\ fs1 !! tmp_path h = None
        /\ put_copied r = true)
  /\ (forall p, p <> dest_path h -> p <> tmp_path h -> fs1 !! p = fs !! p).
Proof.
  unfold Cas.cas_store. destruct (fs !! src) as [X|] eqn:Hsrc; [|done].
  destruct (fs !! dest_path (hex (sha256 X))) as [Y|] eqn:Hd.
  - intros [= <- <-]. simpl. rewrite Hd. split; [done|]. split; [done|done].
  - destruct (decide _) as [|Hne]; [done|]. intros [= <- <-]. simpl.
    rewrite Hd. split; [by intros [? ?]|]. split.
    + intros _. rewrite lookup_insert_eq. split; [done|]. split; [|done].
      rewrite lookup_insert_ne by apply dest_not_tmp.
      by rewrite lookup_delete_eq.
    + intros p Hp1 Hp2.
      by rewrite lookup_insert_ne, lookup_delete_ne, lookup_insert_ne.
Qed.

(** X7.  [cas_store] keeps the store well named: if every blob was named
    by the digest of its content before the call, so is every blob after
    it, and the blob at the path the call returns has the digest the call
    returns. *)
Theorem cas_store_well_named (fs : gmap string bytes) (src : string)
    (fs1 : gmap string bytes) (r : put_result) :
  well_named fs ->
  cas_store fs src = Some (fs1, r) ->
  well_named fs1
  /\ exists c, fs1 !! (CAS_ROOT ++ "/" ++ put_rel r)%string = Some c
               /\ sha256 c = put_digest r.
Proof.
  intros Hwn. unfold Cas.cas_store. destruct (fs !! src) as [X|] eqn:Hsrc; [|done].
  destruct (fs !! dest_path (hex (sha256 X))) as [Y|] eqn:Hd.
  - intros [= <- <-]. split; [done|]. exists Y. split; [done|]. by apply Hwn.
  - destruct (decide _) as [|Hne]; [done|]. intros [= <- <-]. split.
    + intros d c. destruct (decide (dest_path (hex d) = dest_path (hex (sha256 X))))
        as [Heq|Hneq].
      * rewrite Heq, lookup_insert_eq. intros [= <-].
        apply dest_path_inj, hex_inj in Heq. done.
      * rewrite lookup_insert_ne by done.
        destruct (decide (dest_path (hex d) = tmp_path (hex (sha256 X)))) as [->|Hnt].
        -- by rewrite lookup_delete_eq.
        -- rewrite lookup_delete_ne, lookup_insert_ne by done. apply Hwn.
    + exists X. simpl. split; [|done]. apply lookup_insert_eq.
Qed.

End Store.

(** The first blob of an empty store. *)
Lemma demo_store :
  Cas.cas_store (fun b => b) "cas" demo_fs "in.dat"
  = Some (<["cas/01/ff/01ff.bin"%string := [Byte.x01; Byte.xff]]>
            (delete "cas/01/ff/01ff.tmp"%string
               (<["cas/01/ff/01ff.tmp"%string := [Byte.x01; Byte.xff]]> demo_fs)),
          PutResult [Byte.x01; Byte.xff] "01/ff/01ff.bin" 2 true).
Proof.
  unfold Cas.cas_store.
  assert (demo_fs !! "in.dat"%string = Some [Byte.x01; Byte.xff]) as ->
    by reflexivity.
  cbv zeta.
  replace (hex [Byte.x01; Byte.xff]) with "01ff"%string by (by vm_compute).
  replace (Cas.dest_path "cas" "01ff") with "cas/01/ff/01ff.bin"%string
    by (by vm_compute).
  replace (Cas.tmp_path "cas" "01ff") with "cas/01/ff/01ff.tmp"%string
    by (by vm_compute).
  replace (relpath "01ff") with "01/ff/01ff.bin"%string by (by vm_compute).
  assert (demo_fs !! "cas/01/ff/01ff.bin"%string = None) as ->.
  { unfold demo_fs. by apply lookup_singleton_ne. }
  destruct (decide _) as [E|_]; [discriminate E|]. reflexivity.
Qed.

Lemma demo_store_new :
  demo_fs !! "cas/01/ff/01ff.bin"%string = None.
Proof. unfold demo_fs. by apply lookup_singleton_ne. Qed.

Lemma cas_store_frame_witness :
  exists fs1 r,
    Cas.cas_store (fun b => b) "cas" demo_fs "in.dat" = Some (fs1, r)
    /\ fs1 !! "cas/01/ff/01ff.bin"%string = Some [Byte.x01; Byte.xff]
    /\ fs1 !! "cas/01/ff/01ff.tmp"%string = None
    /\ fs1 !! "in.dat"%string = Some [Byte.x01; Byte.xff].
Proof.
  eexists _, _. split; [exact demo_store|].
  destruct (cas_store_frame _ _ _ _ _ _ demo_store) as (_ & Hnew & Hframe).
  destruct (Hnew demo_store_new) as (H1 & H2 & _).
  split; [exact H1|]. split; [exact H2|].
  exact (Hframe "in.dat"%string ltac:(discriminate) ltac:(discriminate)).
Defined.

Lemma cas_store_well_named_witness :
  exists fs1 r,
    Cas.cas_store (fun b => b) "cas" demo_fs "in.dat" = Some (fs1, r)
    /\ well_named (fun b => b) "cas" fs1.
Proof.
  eexists _, _. split; [exact demo_store|].
  refine (proj1 (cas_store_well_named (fun b => b) "cas" demo_fs "in.dat" _ _ _
                   demo_store)).
  intros d c Hl. unfold demo_fs in Hl.
  apply lookup_singleton_Some in Hl as [Hp _]. exfalso.
  apply (f_equal Py.chars) in Hp. unfold Cas.dest_path in Hp.
  rewrite !chars_app in Hp. discriminate Hp.
Defined.

End CasInvariants.

(** ** The sink: look-ups after inserts *)

Module SinkRoundTrips.

Import Sink SinkFacts.
Local Open Scope list_scope.

Section WithRuntime.
Context {rt : Runtime}.

Lemma name_matches_lower (name name' : string) (r : item_row) :
  Py.lower name' = Py.lower name -> name_matches name' r = name_matches name r.
Proof. unfold name_matches. by intros ->. Qed.

Lemma select_id_ext {A} (p q : A -> bool) (l : list A) :
  (forall x, p x = q x) -> select_id p l = select_id q l.
Proof.
  intros H. unfold select_id. f_equal. apply list_find_ext. intros x. by rewrite H.
Qed.




(** *** [document_views] *)

Definition dv_row (unid view_name : string) (cp : option string)
    : document_view_row :=
  DocumentViewRow unid view_name (_canon_category_path cp)
    ((fun c => List.last (Py.split backslash c) "") <$> _canon_category_path cp).

Lemma dv_conflicts_self (u v c : string) (leaf : option string) :
  dv_conflicts u v (Some c) (DocumentViewRow u v (Some c) leaf) = true.
Proof. unfold dv_conflicts. simpl. by rewrite !String.eqb_refl. Qed.

Lemma dv_conflicts_null (u v : string) (r : document_view_row) :
  dv_conflicts u v None r = false.
Proof. unfold dv_conflicts. by rewrite andb_false_r. Qed.

(** X11.  [insert_document_view] files a categorised entry once: with a
    category path that is not blank, inserting the same (UNID, view, path)
    again leaves the table as it was.  An entry without category is filed
    again on every call: the unique key never matches a null path, so two
    calls append two equal rows. *)
Theorem insert_document_view_twice (st : store) (unid view_name : string)
    (cp : option string) :
  let st1 := insert_document_view st unid view_name cp in
  (is_Some (_canon_category_path cp) ->
     insert_document_view st1 unid view_name cp = st1)
  /\ (_canon_category_path cp = None ->
     document_views (insert_document_view st1 unid view_name cp)
     = document_views st ++ [DocumentViewRow unid view_name None None;
                             DocumentViewRow unid view_name None None]).
Proof.
  cbv zeta. unfold insert_document_view.
  destruct (_canon_category_path cp) as [c|] eqn:Hc; simpl.
  - split; [|done]. intros _.
    set (row := DocumentViewRow unid view_name (Some c) _).
    destruct (list_find _ (document_views st)) as [[i r0]|] eqn:Hf; simpl.
    + apply list_find_Some in Hf as (Hi & _ & Hmin).
      assert (list_find (fun r => dv_conflicts unid view_name (Some c) r = true)
                (<[i := row]> (document_views st)) = Some (i, row)) as ->.
      { apply list_find_Some. split; [|split].
        - apply list_lookup_insert_eq. by apply lookup_lt_Some in Hi.
        - apply dv_conflicts_self.
        - intros j y Hj Hlt. rewrite list_lookup_insert_ne in Hj by lia.
          by apply (Hmin j y). }
      unfold with_document_views. simpl. by rewrite list_insert_insert_eq.
    + rewrite (list_find_app_new _ _ row [] Hf (dv_conflicts_self _ _ _ _)).
      unfold with_document_views. simpl. f_equal.
      by rewrite insert_app_r_alt, Nat.sub_diag.
  - split; [by intros [? ?]|]. intros _.
    assert (forall l, list_find (fun r => dv_conflicts unid view_name None r = true) l
                      = None) as Hnone.
    { intros l. apply list_find_None, Forall_forall. intros r _.
      by rewrite dv_conflicts_null. }
    rewrite !Hnone. simpl. by rewrite <- app_assoc.
Qed.

End WithRuntime.


Lemma insert_document_view_twice_witness :
  insert_document_view (rt := Demo.runtime)
    (insert_document_view (rt := Demo.runtime) empty_store "U1" "By Team"
       (Some "a\ b"))
    "U1" "By Team" (Some "a\ b")
  = insert_document_view (rt := Demo.runtime) empty_store "U1" "By Team"
      (Some "a\ b").
Proof.
  apply (insert_document_view_twice (rt := Demo.runtime) empty_store "U1"
           "By Team" (Some "a\ b")).
  eexists. by vm_compute.
Defined.

End SinkRoundTrips.

(** ** Category paths *)

Module CategoryPaths.

Import Sink SanitizeFacts SanitizeShape.
Local Open Scope list_scope.

Lemma split_chars_app (sep : ascii) (p : list ascii) : forall cur rest,
  sep ∉ p ->
  Py.split_chars sep cur (p ++ rest) = Py.split_chars sep (rev p ++ cur) rest.
Proof.
  induction p as [|c p IH]; intros cur rest Hp; [done|].
  apply not_elem_of_cons in Hp as [Hc Hp]. simpl.
  assert (Ascii.eqb c sep = false) as -> by (apply Ascii.eqb_neq; congruence).
  rewrite IH by done. by rewrite <- app_assoc.
Qed.

Lemma split_chars_no_sep (sep : ascii) (l : list ascii) : forall cur piece,
  sep ∉ cur -> piece ∈ Py.split_chars sep cur l -> sep ∉ piece.
Proof.
  induction l as [|c l IH]; intros cur piece Hcur; simpl.
  - intros ->%list_elem_of_singleton. by rewrite list_elem_of_In, <- in_rev, <- list_elem_of_In.
  - destruct (Ascii.eqb c sep) eqn:Hc.
    + intros [->|H]%elem_of_cons.
      * by rewrite list_elem_of_In, <- in_rev, <- list_elem_of_In.
      * apply (IH [] piece); [|done]. apply not_elem_of_nil.
    + apply IH. apply not_elem_of_cons. split; [|done].
      apply Ascii.eqb_neq in Hc. congruence.
Qed.

Lemma chars_join_cons (sep : ascii) (p q : string) (r : list string) :
  Py.chars (Py.join (String sep "") (p :: q :: r))
  = Py.chars p ++ sep :: Py.chars (Py.join (String sep "") (q :: r)).
Proof.
  change (Py.join (String sep "") (p :: q :: r))
    with (p ++ String sep "" ++ Py.join (String sep "") (q :: r))%string.
  by rewrite !CasInvariants.chars_app.
Qed.

Lemma split_join (sep : ascii) (parts : list string) :
  parts <> [] ->
  Forall (fun p => sep ∉ Py.chars p) parts ->
  Py.split sep (Py.join (String sep "") parts) = parts.
Proof.
  intros Hne Hall. unfold Py.split.
  assert (Py.split_chars sep [] (Py.chars (Py.join (String sep "") parts))
          = map Py.chars parts) as ->.
  { induction parts as [|p parts IH]; [done|].
    apply Forall_cons in Hall as [Hp Hall]. destruct parts as [|q r].
    - simpl. rewrite <- (app_nil_r (Py.chars p)), split_chars_app by done.
      simpl. by rewrite !app_nil_r, rev_involutive.
    - rewrite chars_join_cons, split_chars_app by done. simpl.
      rewrite Ascii.eqb_refl, app_nil_r, rev_involutive. f_equal.
      by apply IH. }
  rewrite map_map. rewrite <- (map_id parts) at 2. apply map_ext.
  intros p. apply str_chars.
Qed.

Lemma strip_idempotent (s : string) : Py.strip (Py.strip s) = Py.strip s.
Proof.
  unfold Py.strip. rewrite chars_str. f_equal. apply strip_by_id.
  - intros c H. by apply (strip_by_ends Py.isspace) in H.
  - intros c H. by apply (strip_by_ends Py.isspace) in H.
Qed.

Lemma truthy_join (sep p : string) (r : list string) :
  Py.truthy p = true -> Py.truthy (Py.join sep (p :: r)) = true.
Proof. destruct p; [done|]. by destruct r. Qed.

Lemma filter_Forall_id {A} (P : A -> Prop) `{forall x, Decision (P x)} (l : list A) :
  Forall P l -> filter P l = l.
Proof.
  induction 1 as [|x l Hx Hl IH]; [done|].
  rewrite filter_cons_True by done. by rewrite IH.
Qed.

(** The components of a canonical path. *)
Definition canon_parts (p : string) : list string :=
  filter (fun q => Py.truthy q = true) (map Py.strip (Py.split backslash p)).

Lemma canon_parts_spec (p : string) :
  Forall (fun x => Py.truthy x = true /\ Py.strip x = x
                   /\ backslash ∉ Py.chars x) (canon_parts p).
Proof.
  apply Forall_forall. intros x Hx. unfold canon_parts in Hx.
  apply list_elem_of_filter in Hx as [Ht Hx].
  apply list_elem_of_fmap in Hx as (y & -> & Hy).
  split; [done|]. split; [apply strip_idempotent|].
  unfold Py.split in Hy. apply list_elem_of_fmap in Hy as (l & -> & Hl).
  apply split_chars_no_sep in Hl; [|apply not_elem_of_nil].
  unfold Py.strip. rewrite !chars_str. intros Hin. apply Hl.
  by apply elem_of_strip_by in Hin.
Qed.

Lemma canon_some (p : string) :
  Py.truthy p = true -> canon_parts p <> [] ->
  _canon_category_path (Some p)
  = Some (Py.join (String backslash "") (canon_parts p)).
Proof.
  intros Ht Hne. unfold _canon_category_path. rewrite Ht. simpl.
  fold (canon_parts p). by destruct (canon_parts p).
Qed.

Lemma canon_cases (cp : option string) :
  _canon_category_path cp = None
  \/ exists p, cp = Some p /\ canon_parts p <> []
       /\ _canon_category_path cp
          = Some (Py.join (String backslash "") (canon_parts p)).
Proof.
  destruct cp as [p|]; [|by left]. unfold _canon_category_path.
  destruct (Py.truthy p); simpl; [|by left]. fold (canon_parts p).
  destruct (canon_parts p) as [|x r] eqn:Hp; [by left|]. right.
  exists p. by rewrite Hp.
Qed.

(** X12.  [_canon_category_path] is idempotent, and what it returns is in
    canonical form: split at the backslashes it gives back components
    that are not empty and carry no white space at either end, and joining
    them again gives the path itself. *)
Theorem canon_category_path_canonical (cp : option string) :
  _canon_category_path (_canon_category_path cp) = _canon_category_path cp
  /\ forall q, _canon_category_path cp = Some q ->
       q <> ""
       /\ Py.join (String backslash "") (Py.split backslash q) = q
       /\ Forall (fun x => x <> "" /\ Py.strip x = x) (Py.split backslash q).
Proof.
  destruct (canon_cases cp) as [-> | (p & -> & Hne & Hc)]; [done|].
  rewrite Hc. pose proof (canon_parts_spec p) as Hall.
  set (parts := canon_parts p) in *.
  assert (Py.split backslash (Py.join (String backslash "") parts) = parts) as Hsplit.
  { apply split_join; [done|]. eapply Forall_impl; [exact Hall|]. by intros x (_&_&?). }
  assert (Py.truthy (Py.join (String backslash "") parts) = true) as Htruthy.
  { destruct parts as [|x r]; [done|]. apply truthy_join.
    by apply Forall_cons in Hall as [[? _] _]. }
  assert (canon_parts (Py.join (String backslash "") parts) = parts) as Hfix.
  { unfold canon_parts. rewrite Hsplit.
    assert (map Py.strip parts = parts) as ->.
    { rewrite <- (map_id parts) at 2. apply map_ext_Forall.
      eapply Forall_impl; [exact Hall|]. by intros x (_&?&_). }
    apply filter_Forall_id. eapply Forall_impl; [exact Hall|]. by intros x (?&_). }
  split.
  - rewrite canon_some; rewrite ?Hfix; done.
  - intros q [= <-]. rewrite Hsplit. split; [|split; [done|]].
    + intros Hq. by rewrite Hq in Htruthy.
    + eapply Forall_impl; [exact Hall|]. intros x (Ht & Hs & _).
      split; [|done]. intros ->. done.
Qed.

End CategoryPaths.

(** ** The upserter: what a call can and cannot do *)

Module UpsertFacts.

Import Sink SinkFacts SanitizeFacts SanitizeShape.
Local Open Scope list_scope.

Section WithRuntime.
Context {rt : Runtime}.
Variable CAS_ROOT : string.

Lemma length_prefix (n : nat) (s : string) : String.length (Py.prefix n s) <= n.
Proof. unfold Py.prefix. rewrite length_str, length_take. lia. Qed.

Lemma safe_str_length (v : pyval) (n : nat) (s : string) :
  safe_str v n = Some s -> String.length s <= n.
Proof.
  unfold safe_str. destruct v; try done;
    (match goal with
     | |- context [(n <? ?x)%nat] => destruct (Nat.ltb_spec n x) as [H|H]
     end; intros [= <-]; [apply length_prefix|done]).
Qed.

(** X13.  The form, the subject and the author of the row
    [upsert_document_from_notes] writes always fit their columns: at most
    256, 1024 and 512 characters. *)
Theorem document_columns_fit (doc : notes_doc) (metas : list att_meta) :
  (forall s, d_form (doc_row_of doc metas) = Some s -> String.length s <= 256)
  /\ (forall s, d_subject (doc_row_of doc metas) = Some s -> String.length s <= 1024)
  /\ (forall s, d_author (doc_row_of doc metas) = Some s -> String.length s <= 512).
Proof.
  unfold doc_row_of. destruct (foldl scan_meta _ _) as [[subject form] author].
  destruct (get_doc_times doc). simpl.
  repeat split; intros s; apply safe_str_length.
Qed.

(** X14.  The value [coerce_insert_item_values] files for one Notes value
    never overflows [v_string]: the row linked to the document holds at
    most 1024 characters there, and when it also holds a [v_text], that is
    a string of more than 1024 characters of which [v_string] is the first
    1024. *)
Theorem item_value_string_fits (st : store) (u : string) (i idx : nat)
    (rich : bool) (v : pyval) :
  exists j row,
    doc_item_values (coerce_value st u i idx rich v) !! (u, i, idx)
      = Some (LinkRow (S j) 0)
    /\ item_values (coerce_value st u i idx rich v) !! j = Some row
    /\ (forall s, v_string row = Some s -> String.length s <= 1024)
    /\ (forall t, v_text row = Some t ->
          1024 < String.length t /\ v_string row = Some (Py.prefix 1024 t)).
Proof.
  destruct (coerce_value_links st u i idx rich v) as [(j & row & Hl & Hr & _ & Hc) _].
  exists j, row. split; [done|]. split; [done|].
  unfold classify in Hc.
  destruct v as [|b|n|x|d|s0]; cbv beta iota zeta in Hc.
  - destruct (as_dt PNone); injection Hc as _ -> -> _ _ _; by split.
  - injection Hc as _ -> -> _ _ _; by split.
  - injection Hc as _ -> -> _ _ _; by split.
  - injection Hc as _ -> -> _ _ _; by split.
  - injection Hc as _ -> -> _ _ _; by split.
  - destruct (as_dt (PStr s0)); [injection Hc as _ -> -> _ _ _; by split|].
    change (py_str (PStr s0)) with s0 in Hc.
    destruct (Nat.leb_spec (String.length s0) 1024) as [Hlen|Hlen];
      injection Hc as _ -> -> _ _ _.
    + split; [|done]. by intros s [= <-].
    + split.
      * intros s [= <-]. apply length_prefix.
      * intros t [= <-]. by split.
Qed.

(** *** The file system *)

Definition below (dir p : string) : Prop := exists rest, p = (dir ++ "/" ++ rest)%string.

(** What a step may do to a file outside the store: nothing, or remove it
    when it lies in the temporary directory. *)
Definition spares (tmp_dir : string) (fs fs1 : gmap string bytes) : Prop :=
  forall p, ~ below CAS_ROOT p ->
    fs1 !! p = fs !! p \/ (fs1 !! p = None /\ below tmp_dir p).

Lemma spares_refl tmp fs : spares tmp fs fs.
Proof. intros p _. by left. Qed.

Lemma spares_trans tmp a b c : spares tmp a b -> spares tmp b c -> spares tmp a c.
Proof.
  intros H1 H2 p Hp. destruct (H2 p Hp) as [Hc|[Hc Hb]]; [|by right].
  rewrite Hc. by apply H1.
Qed.

Lemma cas_store_outside fs src fs1 r p :
  Cas.cas_store sha256 CAS_ROOT fs src = Some (fs1, r) ->
  ~ below CAS_ROOT p -> fs1 !! p = fs !! p.
Proof.
  unfold Cas.cas_store. destruct (fs !! src) as [X|]; [|done].
  destruct (fs !! Cas.dest_path CAS_ROOT _); [by intros [= <- <-]|].
  destruct (decide _); [done|]. intros [= <- <-] Hp.
  assert (forall rest, (CAS_ROOT ++ "/" ++ rest)%string <> p) as Hne.
  { intros rest <-. apply Hp. by eexists. }
  rewrite lookup_insert_ne, lookup_delete_ne, lookup_insert_ne; try done;
    apply Hne.
Qed.

Lemma extract_objects_spares u name tmp eos : forall fs idx,
  spares tmp fs (extract_objects CAS_ROOT u name tmp fs idx eos).1.
Proof.
  induction eos as [|eo eos IH]; intros fs idx; simpl; [apply spares_refl|].
  destruct (negb (type_ok (eo_Type eo))); [apply IH|].
  destruct (eo_file eo) as [content|]; [|apply IH].
  set (dest := (tmp ++ "/" ++ _)%string).
  assert (below tmp dest) as Hdest by (by eexists).
  destruct (Cas.cas_store _ _ _ _) as [[fs2 r]|] eqn:Hcas.
  - pose proof (IH (delete dest fs2) (S idx)) as Hrest.
    destruct (extract_objects CAS_ROOT u name tmp (delete dest fs2) (S idx) eos)
      as [fs3 more]. simpl in *.
    eapply spares_trans; [|exact Hrest]. intros p Hp.
    destruct (decide (p = dest)) as [->|Hne].
    + right. by rewrite lookup_delete_eq.
    + left. rewrite lookup_delete_ne by done.
      rewrite (cas_store_outside _ _ _ _ _ Hcas Hp).
      by rewrite lookup_insert_ne.
  - simpl. intros p Hp. destruct (decide (p = dest)) as [->|Hne].
    + right. by rewrite lookup_delete_eq.
    + left. by rewrite lookup_delete_ne, lookup_insert_ne.
Qed.

Lemma extract_items_spares u tmp its : forall fs,
  spares tmp fs (extract_items CAS_ROOT u tmp fs its).1.
Proof.
  induction its as [|it its IH]; intros fs; simpl; [apply spares_refl|].
  pose proof (extract_objects_spares u (Name it) tmp (EmbeddedObjects it) fs 1) as H1.
  destruct (extract_objects CAS_ROOT u (Name it) tmp fs 1 (EmbeddedObjects it))
    as [fs1 [out|]]; [|done].
  pose proof (IH fs1) as H2.
  destruct (extract_items CAS_ROOT u tmp fs1 its) as [fs2 more]. simpl in *.
  by eapply spares_trans.
Qed.

(** X15.  Outside the store, [upsert_document_from_notes] creates no file
    and changes none: a path that does not lie below [CAS_ROOT] holds after
    the call what it held before, unless it lies in the temporary
    directory and the call has removed it. *)
Theorem upsert_spares_files (doc : notes_doc) (sid : nat) (con : conn)
    (tmp : string) (sts : stats) (fs : gmap string bytes) (now : datetime)
    (p : string) :
  (forall rest, p <> (CAS_ROOT ++ "/" ++ rest)%string) ->
  let fs1 := (upsert_document_from_notes CAS_ROOT doc sid con tmp sts fs now).1.1.1 in
  fs1 !! p = fs !! p
  \/ (fs1 !! p = None /\ exists rest, p = (tmp ++ "/" ++ rest)%string).
Proof.
  intros Hp. cbv zeta.
  assert (~ below CAS_ROOT p) as Hp' by (intros [rest ->]; by apply (Hp rest)).
  unfold upsert_document_from_notes.
  destruct (UniversalID doc) as [unid|]; [|by left].
  destruct (negb (Py.truthy unid)); [by left|].
  pose proof (extract_items_spares unid tmp (Items doc) fs p Hp') as H.
  unfold extract_embedded_attachments_from_doc.
  destruct (extract_items CAS_ROOT unid tmp fs (Items doc)) as [fs1 [metas|]];
    [|exact H].
  by destruct (upsert_statements _ _ _ _ _ _ _).
Qed.

(** *** The counters and the connection *)

Lemma save_attachments_stats now metas : forall st ids sts,
  (foldl (save_attachment now) (st, ids, sts) metas).2
  = Stats (scanned sts) (upserted sts) (atts sts + length metas) (errors sts).
Proof.
  induction metas as [|m metas IH]; intros st ids sts.
  - simpl. rewrite Nat.add_0_r. by destruct sts.
  - cbn [foldl]. rewrite save_attachment_eq, IH. simpl. f_equal. lia.
Qed.


(** X17.  A document keeps the source it was first filed under: whatever
    document is upserted next, and from whatever source, a row of
    [documents] that exists before the call exists after it with the same
    [source_id]. *)
Theorem document_keeps_its_source (doc : notes_doc) (sid : nat) (con : conn)
    (tmp : string) (sts : stats) (fs : gmap string bytes) (now : datetime)
    (u0 : string) (r0 : document_row) :
  documents (pending con) !! u0 = Some r0 ->
  let con1 := (upsert_document_from_notes CAS_ROOT doc sid con tmp sts fs now).1.1.2 in
  exists r1, documents (pending con1) !! u0 = Some r1
    /\ d_source_id r1 = d_source_id r0.
Proof.
  intros H0. cbv zeta. unfold upsert_document_from_notes.
  destruct (UniversalID doc) as [unid|]; [|by exists r0].
  destruct (negb (Py.truthy unid)); [by exists r0|].
  destruct (extract_embedded_attachments_from_doc CAS_ROOT doc unid tmp fs)
    as [fs1 [metas|]]; [|by exists r0].
  pose proof (upsert_statements_documents doc sid unid metas now (pending con) sts)
    as Hd.
  destruct (upsert_statements doc sid unid metas now (pending con) sts)
    as [st' sts']. simpl in *. rewrite Hd. unfold upsert_document. simpl.
  destruct (decide (u0 = unid)) as [->|Hne].
  - rewrite lookup_insert_eq, H0. by eexists.
  - rewrite lookup_insert_ne by done. by exists r0.
Qed.

End WithRuntime.

Import Demo.

Lemma upsert_spares_files_witness :
  (upsert_document_from_notes (rt := Demo.runtime) "cas"
     (DemoRuns.demo_doc (Some [Byte.x01])) 1 (connect empty_store) "tmp"
     DemoRuns.no_stats {[ "notes.ini" := [Byte.x02] ]} 0%Z).1.1.1 !! "notes.ini"
  = Some [Byte.x02].
Proof.
  destruct (upsert_spares_files (rt := Demo.runtime) "cas"
              (DemoRuns.demo_doc (Some [Byte.x01])) 1 (connect empty_store) "tmp"
              DemoRuns.no_stats {[ "notes.ini" := [Byte.x02] ]} 0%Z "notes.ini")
    as [H | [_ [rest H]]].
  - intros rest H. apply (f_equal Py.chars) in H.
    rewrite !CasInvariants.chars_app in H. discriminate H.
  - rewrite H. reflexivity.
  - apply (f_equal Py.chars) in H.
    rewrite !CasInvariants.chars_app in H. discriminate H.
Defined.

Lemma document_keeps_its_source_witness :
  exists r1,
    documents (pending (upsert_document_from_notes (rt := Demo.runtime) "cas"
       (DemoRuns.demo_doc (Some [Byte.x01])) 2 DemoRuns.first_pass.1.1.2 "tmp"
       DemoRuns.first_pass.1.2 DemoRuns.first_pass.1.1.1 5%Z).1.1.2) !! "A"
    = Some r1
    /\ d_source_id r1 = 1.
Proof.
  destruct (documents (pending DemoRuns.first_pass.1.1.2) !! "A") as [r0|] eqn:H0;
    [|by vm_compute in H0].
  assert (d_source_id r0 = 1) as Hs.
  { assert ((d_source_id <$> documents (pending DemoRuns.first_pass.1.1.2) !! "A")
            = Some 1) as H by (by vm_compute).
    rewrite H0 in H. by injection H. }
  destruct (document_keeps_its_source (rt := Demo.runtime) "cas"
              (DemoRuns.demo_doc (Some [Byte.x01])) 2 DemoRuns.first_pass.1.1.2 "tmp"
              DemoRuns.first_pass.1.2 DemoRuns.first_pass.1.1.1 5%Z "A" r0 H0)
    as (r1 & H1 & H2).
  exists r1. split; [exact H1|]. by rewrite H2.
Defined.

End UpsertFacts.

(** ** The view loop: resuming, counting, ending *)

Module ResumeFacts.

Import Sink Checkpoint SinkFacts CheckpointFacts UpsertFacts.
Local Open Scope list_scope.

Section WithRuntime.
Context {rt : Runtime}.
Variable CAS_ROOT : string.

#[local] Abbreviation entry := (string * option string)%type.

(** X18.  A view whose checkpoint carries the signature of the present
    snapshot and an index at its end is skipped: the call returns at once,
    fetches no document, commits nothing and leaves files, connection and
    counters as they were. *)
Theorem completed_view_is_skipped (fuel : nat) (get_doc : string -> fetched)
    (alive : nat -> bool) (snapshot : list entry) (sid : nat) (view tmp : string)
    (now : datetime) (pid bs : nat) (fs : gmap string bytes) (con : conn)
    (sts : stats) (ck : checkpoint_row) :
  load_checkpoint (pending con) pid sid view = Some ck ->
  snapshot_sig ck = _sig_for_snapshot snapshot ->
  length snapshot <= next_index ck ->
  process_view_into_db CAS_ROOT (S fuel) get_doc alive snapshot sid view tmp now
    (Some pid) bs (fs, con, sts) = Some (fs, con, sts, Done).
Proof.
  intros Hck Hsig Hlen. unfold process_view_into_db, start_index. simpl.
  rewrite Hck, Hsig, String.eqb_refl.
  by destruct (Nat.leb_spec (length snapshot) (next_index ck)); [|lia].
Qed.

Lemma process_entry_ext (get_doc get_doc' : string -> fetched) sid view tmp now acc
    (e : entry) :
  get_doc e.1 = get_doc' e.1 ->
  process_entry CAS_ROOT get_doc sid view tmp now acc e
  = process_entry CAS_ROOT get_doc' sid view tmp now acc e.
Proof.
  intros H. unfold process_entry. destruct acc as [[fs con] sts].
  destruct e as [unid cp]. simpl in H. by rewrite H.
Qed.

Lemma foldl_process_entry_ext (get_doc get_doc' : string -> fetched) sid view tmp now
    (batch : list entry) : forall acc,
  Forall (fun e => get_doc e.1 = get_doc' e.1) batch ->
  foldl (process_entry CAS_ROOT get_doc sid view tmp now) acc batch
  = foldl (process_entry CAS_ROOT get_doc' sid view tmp now) acc batch.
Proof.
  induction batch as [|e batch IH]; intros acc Hall; [done|].
  apply Forall_cons in Hall as [He Hall]. cbn [foldl].
  rewrite (process_entry_ext get_doc get_doc') by done. by apply IH.
Qed.

Lemma process_batches_ext (get_doc get_doc' : string -> fetched) alive
    (snapshot : list entry) sig sid view tmp now plan bs fuel : forall next acc,
  Forall (fun e => get_doc e.1 = get_doc' e.1) (drop next snapshot) ->
  process_batches CAS_ROOT fuel get_doc alive snapshot sig sid view tmp now plan bs
    next acc
  = process_batches CAS_ROOT fuel get_doc' alive snapshot sig sid view tmp now plan
      bs next acc.
Proof.
  induction fuel as [|f IH]; intros next acc Hall; [done|].
  cbn [process_batches].
  destruct (Nat.leb_spec (length snapshot) next) as [Hle|Hlt]; [done|].
  destruct (negb (alive next)); [done|].
  set (e := Nat.min (next + bs) (length snapshot)).
  rewrite (foldl_process_entry_ext get_doc get_doc').
  - destruct (foldl _ acc _) as [[fs1 con1] sts1]. apply IH.
    replace e with (next + (e - next)) by lia. rewrite <- drop_drop.
    by apply Forall_drop.
  - by apply Forall_take.
Qed.

(** X19.  A resumed view does not go back: the outcome of
    [process_view_into_db] depends on the documents from the starting
    index on only.  Two databases that answer alike for every entry of the
    snapshot at or after the index the checkpoint gives lead to the same
    result, whatever they answer for the entries before it. *)
Theorem resume_skips_processed (fuel : nat) (get_doc get_doc' : string -> fetched)
    (alive : nat -> bool) (snapshot : list entry) (sid : nat) (view tmp : string)
    (now : datetime) (plan : option nat) (bs : nat)
    (acc : gmap string bytes * conn * stats) :
  let k := start_index (pending acc.1.2) plan sid view (_sig_for_snapshot snapshot) in
  (forall i e, k <= i -> snapshot !! i = Some e -> get_doc e.1 = get_doc' e.1) ->
  process_view_into_db CAS_ROOT fuel get_doc alive snapshot sid view tmp now plan bs acc
  = process_view_into_db CAS_ROOT fuel get_doc' alive snapshot sid view tmp now plan
      bs acc.
Proof.
  intros k H. unfold process_view_into_db. fold k. apply process_batches_ext.
  apply Forall_lookup. intros i e Hi. rewrite lookup_drop in Hi.
  apply (H (k + i)); [lia|done].
Qed.

(** The counters a document leaves alone. *)
Definition seen (sts : stats) : nat := scanned sts + errors sts.

Lemma upsert_seen doc sid con tmp sts fs now :
  seen (upsert_document_from_notes CAS_ROOT doc sid con tmp sts fs now).1.2 = seen sts.
Proof.
  unfold upsert_document_from_notes.
  destruct (UniversalID doc) as [unid|]; [|done].
  destruct (negb (Py.truthy unid)); [done|].
  destruct (extract_embedded_attachments_from_doc CAS_ROOT doc unid tmp fs)
    as [fs1 [metas|]]; [|done].
  pose proof (upsert_statements_eq doc sid unid metas now (pending con) sts) as Hs.
  destruct (upsert_statements doc sid unid metas now (pending con) sts)
    as [st' sts']. simpl. injection Hs as _ ->.
  unfold phase_atts. by rewrite save_attachments_stats.
Qed.

Lemma process_entry_seen get_doc sid view tmp now acc (e : entry) :
  seen (process_entry CAS_ROOT get_doc sid view tmp now acc e).2 = S (seen acc.2).
Proof.
  unfold process_entry. destruct acc as [[fs con] sts]. destruct e as [unid cp].
  destruct (get_doc unid) as [| |doc]; simpl; [unfold seen; simpl; lia..|].
  pose proof (upsert_seen doc sid con tmp sts fs now) as H.
  destruct (upsert_document_from_notes CAS_ROOT doc sid con tmp sts fs now)
    as [[[fs1 con1] sts1] [|u]]; simpl in *; unfold seen in *; simpl; lia.
Qed.

Lemma foldl_process_entry_seen get_doc sid view tmp now (batch : list entry) :
  forall acc,
  seen (foldl (process_entry CAS_ROOT get_doc sid view tmp now) acc batch).2
  = seen acc.2 + length batch.
Proof.
  induction batch as [|e batch IH]; intros acc; simpl; [lia|].
  rewrite IH, process_entry_seen. lia.
Qed.

(** X20.  Every entry is counted once: when the loop over a snapshot runs
    to its end, [scanned] and [errors] together have grown by the number
    of entries from the starting index on, whatever happened to each of
    them. *)
Theorem every_entry_is_counted (fuel : nat) (get_doc : string -> fetched)
    (alive : nat -> bool) (snapshot : list entry) (sig : string) (sid : nat)
    (view tmp : string) (now : datetime) (plan : option nat) (bs next : nat)
    (acc acc' : gmap string bytes * conn * stats) :
  process_batches CAS_ROOT fuel get_doc alive snapshot sig sid view tmp now plan bs
    next acc = Some (acc', Done) ->
  scanned acc'.2 + errors acc'.2
  = scanned acc.2 + errors acc.2 + (length snapshot - next).
Proof.
  fold (seen acc'.2) (seen acc.2).
  revert next acc. induction fuel as [|f IH]; intros next acc; [done|].
  cbn [process_batches].
  destruct (Nat.leb_spec (length snapshot) next) as [Hle|Hlt].
  - intros [= <-]. lia.
  - destruct (negb (alive next)); [done|].
    pose proof (foldl_process_entry_seen get_doc sid view tmp now
      (take (Nat.min (next + bs) (length snapshot) - next) (drop next snapshot)) acc)
      as Hb.
    destruct (foldl _ acc _) as [[fs1 con1] sts1]. simpl in Hb.
    intros Hr. apply IH in Hr. simpl in Hr. rewrite Hr, Hb.
    rewrite length_take, length_drop. lia.
Qed.

(** X21.  With a batch size of 0 the loop makes no progress: from an index
    inside the snapshot, with the view handle alive, it has not returned
    after any number of rounds. *)
Theorem zero_batch_size_never_returns (fuel : nat) (get_doc : string -> fetched)
    (alive : nat -> bool) (snapshot : list entry) (sig : string) (sid : nat)
    (view tmp : string) (now : datetime) (plan : option nat) (next : nat)
    (acc : gmap string bytes * conn * stats) :
  next < length snapshot ->
  alive next = true ->
  process_batches CAS_ROOT fuel get_doc alive snapshot sig sid view tmp now plan 0
    next acc = None.
Proof.
  intros Hlt Ha. revert acc. induction fuel as [|f IH]; intros acc; [done|].
  cbn [process_batches].
  destruct (Nat.leb_spec (length snapshot) next) as [Hle|_]; [lia|].
  rewrite Ha. cbn [negb].
  replace (Nat.min (next + 0) (length snapshot)) with next by lia.
  rewrite Nat.sub_diag. cbn [take foldl].
  destruct acc as [[fs con] sts]. apply IH.
Qed.

Lemma last_drop {A} (l : list A) (n : nat) :
  n < length l -> last (drop n l) = last l.
Proof.
  intros Hn. rewrite <- (take_drop n l) at 2.
  destruct (drop n l) as [|x k] eqn:Hd.
  - apply (f_equal length) in Hd. rewrite length_drop in Hd. simpl in Hd. lia.
  - clear Hd. revert x. induction k as [|y k IH] using rev_ind; intros x.
    + by rewrite last_snoc.
    + by rewrite app_comm_cons, app_assoc, !last_snoc.
Qed.

(** X22.  When a planned view with entries left runs to its end, the
    checkpoint it leaves, durable and with nothing pending, carries the
    signature of the snapshot, the length of the snapshot as next index
    and the UNID of the last entry. *)
Theorem final_checkpoint (fuel : nat) (get_doc : string -> fetched)
    (alive : nat -> bool) (snapshot : list entry) (sig : string) (sid : nat)
    (view tmp : string) (now : datetime) (pid bs next : nat)
    (acc acc' : gmap string bytes * conn * stats) :
  next < length snapshot ->
  process_batches CAS_ROOT fuel get_doc alive snapshot sig sid view tmp now
    (Some pid) bs next acc = Some (acc', Done) ->
  load_checkpoint (committed acc'.1.2) pid sid view
    = Some (CheckpointRow sig (length snapshot) (fst <$> last snapshot))
  /\ pending acc'.1.2 = committed acc'.1.2.
Proof.
  revert next acc. induction fuel as [|f IH]; intros next acc Hlt; [done|].
  cbn [process_batches].
  destruct (Nat.leb_spec (length snapshot) next) as [Hle|_]; [lia|].
  destruct (negb (alive next)); [done|].
  set (e := Nat.min (next + bs) (length snapshot)).
  destruct (foldl _ acc _) as [[fs1 con1] sts1].
  destruct (decide (e < length snapshot)) as [He|He]; [by apply IH|].
  assert (e = length snapshot) as Hend by lia.
  destruct f as [|f]; [done|]. cbn [process_batches].
  destruct (Nat.leb_spec (length snapshot) e) as [_|Hlt']; [|lia].
  intros [= <-]. simpl. split; [|done].
  unfold load_checkpoint, upsert_checkpoint. simpl. rewrite lookup_insert_eq.
  rewrite Hend, take_ge by (rewrite length_drop; lia).
  by rewrite last_drop.
Qed.

End WithRuntime.

Import Demo.

Definition done_view : store (rt := Demo.runtime) :=
  upsert_checkpoint empty_store 7 1 "V"
    (_sig_for_snapshot (rt := Demo.runtime) [("A", None)]) 1 (Some "A").

Lemma completed_view_is_skipped_witness :
  process_view_into_db (rt := Demo.runtime) "cas" 1 DemoRuns.demo_get_doc
    (fun _ => true) [("A", None)] 1 "V" "tmp" 0%Z (Some 7) 50
    (∅, connect done_view, DemoRuns.no_stats)
  = Some (∅, connect done_view, DemoRuns.no_stats, Done).
Proof.
  apply (completed_view_is_skipped (rt := Demo.runtime) "cas" 0 DemoRuns.demo_get_doc
           (fun _ => true) [("A", None)] 1 "V" "tmp" 0%Z 7 50 ∅ (connect done_view)
           DemoRuns.no_stats
           (CheckpointRow (_sig_for_snapshot (rt := Demo.runtime) [("A", None)]) 1
              (Some "A"))).
  - by vm_compute.
  - reflexivity.
  - simpl. lia.
Defined.

Lemma resume_skips_processed_witness :
  process_view_into_db (rt := Demo.runtime) "cas" 1 DemoRuns.demo_get_doc
    (fun _ => true) [("A", None)] 1 "V" "tmp" 0%Z (Some 7) 50
    (∅, connect done_view, DemoRuns.no_stats)
  = process_view_into_db (rt := Demo.runtime) "cas" 1 (fun _ => FetchRaises)
      (fun _ => true) [("A", None)] 1 "V" "tmp" 0%Z (Some 7) 50
      (∅, connect done_view, DemoRuns.no_stats).
Proof.
  apply (resume_skips_processed (rt := Demo.runtime) "cas" 1 DemoRuns.demo_get_doc
           (fun _ => FetchRaises) (fun _ => true) [("A", None)] 1 "V" "tmp" 0%Z
           (Some 7) 50 (∅, connect done_view, DemoRuns.no_stats)).
  intros i e Hi He. vm_compute in Hi. destruct i as [|i]; [lia|done].
Defined.

Definition two_lost : list (string * option string) := [("B", None); ("C", Some "x")].

Lemma every_entry_is_counted_witness :
  exists acc',
    process_batches (rt := Demo.runtime) "cas" 3 DemoRuns.demo_get_doc (fun _ => true)
      two_lost "s" 1 "V" "tmp" 0%Z None 1 0 (∅, connect empty_store, DemoRuns.no_stats)
    = Some (acc', Done)
    /\ scanned acc'.2 + errors acc'.2 = 2.
Proof.
  destruct (process_batches_returns (rt := Demo.runtime) "cas" DemoRuns.demo_get_doc
              (fun _ => true) two_lost "s" 1 "V" "tmp" 0%Z None 1 3 0
              (∅, connect empty_store, DemoRuns.no_stats))
    as [[acc' status] H]; [lia|simpl; lia|].
  assert (status = Done) as ->.
  { assert (snd <$> process_batches (rt := Demo.runtime) "cas" 3 DemoRuns.demo_get_doc
              (fun _ => true) two_lost "s" 1 "V" "tmp" 0%Z None 1 0
              (∅, connect empty_store, DemoRuns.no_stats) = Some Done) as Hs
      by (by vm_compute).
    rewrite H in Hs. by injection Hs. }
  exists acc'. split; [done|].
  by rewrite (every_entry_is_counted (rt := Demo.runtime) _ _ _ _ _ _ _ _ _ _ _ _ _ _ _ H).
Defined.

Lemma zero_batch_size_never_returns_witness :
  process_batches (rt := Demo.runtime) "cas" 1000 DemoRuns.demo_get_doc (fun _ => true)
    two_lost "s" 1 "V" "tmp" 0%Z None 0 0 (∅, connect empty_store, DemoRuns.no_stats)
  = None.
Proof.
  apply (zero_batch_size_never_returns (rt := Demo.runtime)); [simpl; lia|reflexivity].
Defined.

Lemma final_checkpoint_witness :
  exists acc',
    process_batches (rt := Demo.runtime) "cas" 3 DemoRuns.demo_get_doc (fun _ => true)
      two_lost "s" 1 "V" "tmp" 0%Z (Some 7) 1 0
      (∅, connect empty_store, DemoRuns.no_stats)
    = Some (acc', Done)
    /\ load_checkpoint (committed acc'.1.2) 7 1 "V"
       = Some (CheckpointRow "s" 2 (Some "C")).
Proof.
  destruct (process_batches_returns (rt := Demo.runtime) "cas" DemoRuns.demo_get_doc
              (fun _ => true) two_lost "s" 1 "V" "tmp" 0%Z (Some 7) 1 3 0
              (∅, connect empty_store, DemoRuns.no_stats))
    as [[acc' status] H]; [lia|simpl; lia|].
  assert (status = Done) as ->.
  { assert (snd <$> process_batches (rt := Demo.runtime) "cas" 3 DemoRuns.demo_get_doc
              (fun _ => true) two_lost "s" 1 "V" "tmp" 0%Z (Some 7) 1 0
              (∅, connect empty_store, DemoRuns.no_stats) = Some Done) as Hs
      by (by vm_compute).
    rewrite H in Hs. by injection Hs. }
  exists acc'. split; [done|].
  apply (final_checkpoint (rt := Demo.runtime) "cas" 3 DemoRuns.demo_get_doc
           (fun _ => true) two_lost "s" 1 "V" "tmp" 0%Z 7 1 0
           (∅, connect empty_store, DemoRuns.no_stats) acc'); [simpl; lia|exact H].
Defined.

End ResumeFacts.

(** ** [build_hierarchy] on any input *)

Module HierarchyTotal.

Import Hierarchy HierarchyFacts.
Local Open Scope list_scope.

Section Build.
Variables (users : list user) (M : gmap string (option string)).

#[local] Abbreviation anc := (anc users M).
#[local] Abbreviation level := (level users M).
#[local] Abbreviation parent := (parent users M).
#[local] Abbreviation heap_of := (heap_of users M).
#[local] Abbreviation sorted_children := (sorted_children users M).

Lemma anc_prefix (m k i r : nat) :
  m <= k -> anc k i = Some r -> exists x, anc m i = Some x /\ anc (k - m) x = Some r.
Proof.
  intros Hm Hk. replace k with (m + (k - m)) in Hk by lia.
  rewrite anc_add in Hk. destruct (anc m i) as [x|]; [|done]. by exists x.
Qed.

(** A chain that ends at a root visits no user twice, so it is shorter
    than the list of users. *)
Lemma level_lt (k i : nat) : i < length users -> level k i -> k < length users.
Proof.
  intros Hi (r & Hr & Hroot).
  set (xs := (fun m => default 0 (anc m i)) <$> seq 0 (S k)).
  assert (forall m, m <= k -> exists x, xs !! m = Some x /\ anc m i = Some x
                                        /\ anc (k - m) x = Some r) as Hxs.
  { intros m Hm. destruct (anc_prefix m k i r Hm Hr) as (x & Hx & Hx').
    exists x. split; [|done]. unfold xs. rewrite list_lookup_fmap.
    rewrite lookup_seq_lt by lia. simpl. by rewrite Hx. }
  assert (NoDup xs) as Hnd.
  { apply NoDup_alt. intros a b x Ha Hb.
    assert (a <= k /\ b <= k) as [Hak Hbk].
    { apply lookup_lt_Some in Ha, Hb. unfold xs in Ha, Hb.
      rewrite length_fmap, length_seq in Ha, Hb. lia. }
    destruct (Hxs a Hak) as (xa & Ha' & _ & Hra).
    destruct (Hxs b Hbk) as (xb & Hb' & _ & Hrb).
    assert (xa = x) as -> by congruence. assert (xb = x) as -> by congruence.
    assert (k - a = k - b); [|lia].
    apply (level_unique users M _ _ x); by exists r. }
  assert (xs ⊆+ seq 0 (length users)) as Hsub.
  { apply NoDup_submseteq; [done|]. intros x Hx.
    apply list_elem_of_lookup in Hx as [m Hm].
    assert (m <= k) as Hmk.
    { apply lookup_lt_Some in Hm. unfold xs in Hm.
      rewrite length_fmap, length_seq in Hm. lia. }
    destruct (Hxs m Hmk) as (x' & Hx' & Hanc & _).
    assert (x' = x) as -> by congruence.
    apply elem_of_seq. pose proof (anc_lt users M m i x Hanc Hi). lia. }
  apply submseteq_length in Hsub. unfold xs in Hsub.
  rewrite length_fmap, !length_seq in Hsub. lia.
Qed.

Lemma unfold_agree (rep : nat -> list nat) :
  (forall j k, j < length users -> level k j -> rep j = sorted_children j) ->
  forall f i k, i < length users -> level k i ->
  unfold f (heap_of rep) i = unfold f (heap_of sorted_children) i.
Proof.
  intros Hrep. induction f as [|f IH]; intros i k Hi Hl; [done|]. simpl.
  rewrite !heap_of_lookup. destruct (users !! i) as [u|]; [|done]. simpl.
  rewrite (Hrep i k Hi Hl).
  rewrite (Forall_mapM_ext _ (unfold f (heap_of sorted_children))); [done|].
  apply Forall_forall. intros c Hc. apply elem_of_sorted_children in Hc.
  apply (IH c (S k)); [by apply parent_Some_lt in Hc as [? _]|].
  by apply (level_child users M k c i).
Qed.

End Build.


(** Ann is recorded as her own manager; Cy reports to Bob. *)
Definition looped : list user :=
  [User "A" (Some "Ann"); User "B" (Some "Bob"); User "C" (Some "Cy")].

Definition looped_map : gmap string (option string) :=
  <["A" := Some "A"]> (<["C" := Some "B"]> ∅).


End HierarchyTotal.

Module RetryFacts.

Import Retry.
Local Open Scope list_scope.

(** The delays of an exponential back-off: [d], [2d], [4d], ... *)
Fixpoint schedule (d : float) (n : nat) : list float :=
  match n with
  | O => []
  | S n' => d :: schedule (d * 2)%float n'
  end.

Ltac close_run :=
  repeat split;
  first [ done | lia | (intros ? ?; lia)
        | (intros (? & ? & ?); congruence) | idtac ].

Lemma schedule_snoc_app (d : float) (n : nat) (sl : list float) :
  (sl ++ [d]) ++ schedule (d * 2)%float n = sl ++ schedule d (S n).
Proof. by rewrite <- app_assoc. Qed.

Section WithCall.
Variables (A exn : Type).
Variable call : nat -> exn + A.
Variable sleep : float -> option exn.
Variable is_retryable : exn -> bool.

(** The call numbered [j] raised an exception worth a retry. *)
Definition retried (j : nat) : Prop :=
  exists e, call j = inl e /\ is_retryable e = true.

(** The result a call stands for. *)
Definition result_of (x : exn + A) : result A exn :=
  match x with inr a => Return a | inl e => Raise e end.

Lemma retry_loop_spec (left : nat) : forall attempt delay last sl,
  0 < left ->
  (forall d, sleep d = None) ->
  let r := retry_loop A exn call sleep is_retryable left attempt delay last sl in
  exists k, calls r = attempt + S k /\ k < left
    /\ slept r = sl ++ schedule delay k
    /\ (forall j, attempt <= j < attempt + k -> retried j)
    /\ outcome r = result_of (call (attempt + k))
    /\ (retried (attempt + k) -> S k = left).
Proof.
  induction left as [|left IH]; intros attempt delay last sl Hl Hs; [lia|].
  cbn [retry_loop]. destruct (call attempt) as [e|a] eqn:Hc.
  - destruct (is_retryable e) eqn:Hr; cbn [negb].
    + destruct (Nat.eqb_spec left 0) as [->|Hne].
      * exists 0. rewrite Nat.add_0_r, app_nil_r, Hc. simpl. close_run.
      * rewrite Hs.
        destruct (IH (S attempt) (delay * 2)%float (Some e) (sl ++ [delay])
                    ltac:(lia) Hs) as (k & Hk1 & Hk2 & Hk3 & Hk4 & Hk5 & Hk6).
        exists (S k). rewrite Hk1, Hk3, Hk5, schedule_snoc_app.
        replace (S attempt + k) with (attempt + S k) in * by lia.
        repeat split; try done; try lia.
        -- intros j Hj. destruct (decide (j = attempt)) as [->|Hne'].
           ++ by exists e.
           ++ apply Hk4. lia.
        -- intros H. apply Hk6 in H. lia.
    + exists 0. rewrite Nat.add_0_r, app_nil_r, Hc. simpl. close_run.
  - exists 0. rewrite Nat.add_0_r, app_nil_r, Hc. simpl. close_run.
Qed.

Lemma retry_loop_reopens (left : nat) : forall attempt d last sl,
  reopens (retry_loop A exn call sleep is_retryable left attempt d last sl) = 0.
Proof.
  induction left as [|n IH]; intros attempt d last sl; simpl; [done|].
  destruct (call attempt); [|done]. destruct (negb _); [done|].
  destruct (n =? 0)%nat; [done|]. destruct (sleep d); [done|]. apply IH.
Qed.

(** X24.  [retry_call] with at least one try, and delays [time.sleep]
    accepts, makes between one and [tries] calls and sleeps between two
    calls only, [backoff_sec] first and twice as long each time.  It ends
    with what its last call did, the value returned or the exception
    raised; every call before the last raised a retryable exception; and
    it stops on a retryable exception only when the tries are used up. *)
Theorem retry_call_spec (tries : Z) (backoff_sec : float) :
  (0 < tries)%Z ->
  (forall d, sleep d = None) ->
  let r := retry_call A exn call sleep is_retryable tries backoff_sec in
  exists k, calls r = S k /\ (Z.of_nat (S k) <= tries)%Z
    /\ slept r = schedule backoff_sec k
    /\ reopens r = 0
    /\ (forall j, j < k -> retried j)
    /\ outcome r = result_of (call k)
    /\ (retried k -> Z.of_nat (S k) = tries).
Proof.
  intros Ht Hs. cbv zeta. unfold retry_call.
  destruct (retry_loop_spec (Z.to_nat tries) 0 backoff_sec None [] ltac:(lia) Hs)
    as (k & H1 & H2 & H3 & H4 & H5 & H6).
  exists k. simpl in *. repeat split; try done; try lia.
  - apply retry_loop_reopens.
  - intros j Hj. apply H4. lia.
  - intros H. apply H6 in H. lia.
Qed.

(** X25.  With no try to make, [retry_call] does not call [fn] at all: the
    loop is skipped and the assertion on the last exception fails. *)
Theorem retry_call_without_tries (tries : Z) (backoff_sec : float) :
  (tries <= 0)%Z ->
  retry_call A exn call sleep is_retryable tries backoff_sec
  = Run 0 [] 0 AssertionError.
Proof.
  intros Ht. unfold retry_call. by replace (Z.to_nat tries) with 0 by lia.
Qed.

End WithCall.

Section Com.
Variable A : Type.
Variable call : nat -> com_exception + A.
Variable sleep : float -> option com_exception.

Definition transient (j : nat) : Prop :=
  exists e, call j = inl e /\ _is_transient_com_error e = true.

Lemma reopen_loop_spec (left : nat) : forall attempt delay last sl ro,
  (forall d, sleep d = None) ->
  let r := reopen_loop A call sleep left attempt delay last sl ro in
  exists k, k <= left
    /\ (forall j, attempt <= j < attempt + k -> transient j)
    /\ slept r = sl ++ schedule delay k
    /\ reopens r = ro + k
    /\ (k < left ->
          calls r = attempt + S k /\ ~ transient (attempt + k)
          /\ outcome r = result_of A com_exception (call (attempt + k)))
    /\ (k = left ->
          calls r = attempt + k
          /\ outcome r = match left with
                         | O => match last with Some e => Raise e | None => RaiseNone end
                         | S _ => result_of A com_exception (call (attempt + k - 1))
                         end).
Proof.
  induction left as [|left IH]; intros attempt delay last sl ro Hs; cbn [reopen_loop].
  - exists 0. simpl. rewrite app_nil_r, !Nat.add_0_r. close_run.
  - destruct (call attempt) as [e|a] eqn:Hc.
    + destruct (_is_transient_com_error e) eqn:Hr; cbn [negb].
      * rewrite Hs.
        destruct (IH (S attempt) (delay * 2)%float (Some e) (sl ++ [delay]) (S ro) Hs)
          as (k & Hk1 & Hk2 & Hk3 & Hk4 & Hk5 & Hk6).
        exists (S k). rewrite Hk3, Hk4, schedule_snoc_app.
        replace (S attempt + k) with (attempt + S k) in * by lia.
        split; [lia|]. split.
        { intros j Hj. destruct (decide (j = attempt)) as [->|Hne'].
          - by exists e.
          - apply Hk2. lia. }
        split; [done|]. split; [lia|]. split.
        { intros Hlt. destruct Hk5 as (H1 & H2 & H3); [lia|].
          rewrite H1, H3.
          replace (S attempt + S k) with (attempt + S (S k)) by lia. done. }
        { intros Heq. destruct Hk6 as (H1 & H2); [lia|].
          rewrite H1, H2. split; [lia|]. destruct left as [|left'].
          - assert (k = 0) as -> by lia. rewrite Nat.add_1_r. simpl.
            by rewrite Nat.sub_0_r, Hc.
          - replace (S attempt + k - 1) with (attempt + S k - 1) by lia. done. }
      * exists 0. simpl. rewrite app_nil_r, !Nat.add_0_r, Hc. close_run.
    + exists 0. simpl. rewrite app_nil_r, !Nat.add_0_r, Hc. close_run.
Qed.

(** X26.  [resilient_com_with_reopen] makes at most six calls and ends
    with what its last call did.  Unlike [retry_call] it sleeps and
    reopens after every transient failure, the last one included: a run
    that gives up after six transient failures has slept six times, 1.5
    seconds first and twice as long each time, and reopened six times. *)
Theorem resilient_com_with_reopen_spec :
  (forall d, sleep d = None) ->
  let r := resilient_com_with_reopen A call sleep in
  exists k, calls r = S k /\ k < 6
    /\ (forall j, j < k -> transient j)
    /\ outcome r = result_of A com_exception (call k)
    /\ (~ transient k -> slept r = schedule RETRY_COM_BACKOFF k /\ reopens r = k)
    /\ (transient k ->
          k = 5 /\ slept r = schedule RETRY_COM_BACKOFF 6 /\ reopens r = 6).
Proof.
  intros Hs. cbv zeta. unfold resilient_com_with_reopen.
  change (Z.to_nat RETRY_COM_TRIES) with 6.
  pose proof (reopen_loop_spec 6 0 RETRY_COM_BACKOFF None [] 0 Hs) as H.
  cbv zeta in H.
  set (r := reopen_loop A call sleep 6 0 RETRY_COM_BACKOFF None [] 0) in *.
  clearbody r. destruct H as (k & H1 & H2 & H3 & H4 & H5 & H6).
  simpl in H2, H3, H4, H5, H6.
  destruct (decide (k = 6)) as [->|Hne].
  - destruct (H6 eq_refl) as [Hc Ho]. exists 5. rewrite Hc, Ho, H3, H4.
    assert (transient 5) as Ht by (apply H2; lia).
    split; [done|]. split; [lia|]. split; [intros j Hj; apply H2; lia|].
    split; [done|]. split; [by intros Hn|]. by intros _.
  - destruct H5 as (Hc & Hn & Ho); [lia|]. exists k. rewrite Hc, Ho, H3, H4.
    split; [done|]. split; [lia|]. split; [intros j Hj; apply H2; lia|].
    split; [done|]. split; [by intros _|]. by intros Ht.
Qed.

End Com.

(** A call that times out twice and then answers. *)
Definition flaky (n : nat) : com_exception + string :=
  if (n <? 2)%nat then inl (ComException "Notes error: Timed out" None) else inr "ok".

Lemma retry_call_spec_witness :
  calls (resilient_com string flaky (fun _ => None)) = 3
  /\ slept (resilient_com string flaky (fun _ => None)) = [1.5; 3.0]%float
  /\ outcome (resilient_com string flaky (fun _ => None)) = Return "ok".
Proof.
  destruct (retry_call_spec string com_exception flaky (fun _ => None)
              _is_transient_com_error RETRY_COM_TRIES RETRY_COM_BACKOFF)
    as (k & H1 & _); [reflexivity|done|].
  repeat split; by vm_compute.
Defined.

Lemma retry_call_without_tries_witness :
  retry_call string com_exception flaky (fun _ => None) _is_transient_com_error 0
    RETRY_DB_BACKOFF = Run 0 [] 0 AssertionError.
Proof. apply retry_call_without_tries. lia. Defined.

(** A call that never gets through. *)
Definition dead (n : nat) : com_exception + string :=
  inl (ComException "no network connection" None).

Lemma resilient_com_with_reopen_spec_witness :
  calls (resilient_com_with_reopen string dead (fun _ => None)) = 6
  /\ length (slept (resilient_com_with_reopen string dead (fun _ => None))) = 6
  /\ reopens (resilient_com_with_reopen string dead (fun _ => None)) = 6.
Proof.
  destruct (resilient_com_with_reopen_spec string dead (fun _ => None))
    as (k & H1 & _); [done|].
  repeat split; by vm_compute.
Defined.

End RetryFacts.

Module BackoffFacts.

Import Limiter Backoff.
Local Open Scope list_scope.

(** The limiter after [k] service errors in a row, and the naps taken. *)
Fixpoint throttled (k : nat) (l : limiter) : limiter * list Z :=
  match k with
  | O => (l, [])
  | S k' =>
      let '(l1, naps) := throttled k' l in
      ((note_service_error l1).1,
       naps ++ match (note_service_error l1).2 with Some s => [s] | None => [] end)
  end.

Definition naps_of (ps : list pause) : list Z :=
  omap (fun p => match p with Nap s => Some s | Wait _ => None end) ps.

Lemma naps_of_app (a b : list pause) : naps_of (a ++ b) = naps_of a ++ naps_of b.
Proof. apply omap_app. Qed.

Section WithSession.
Variable exn : Type.
Variable send : nat -> exn + response.
Variable float_of_str : string -> option float.
Variable uniform : nat -> float -> float -> float.
Variable sleep : float -> option exn.

#[local] Abbreviation backoff_loop := (backoff_loop exn send float_of_str uniform sleep).
#[local] Abbreviation with_backoff := (with_backoff exn send float_of_str uniform sleep).

(** Request [j] was answered with a throttling status. *)
Definition throttled_at (j : nat) : Prop :=
  exists r, send j = inr r /\ is_success r = false /\ is_throttle r = true.

(** What a call that started with limiter [l] and met [k] throttling
    answers left behind, [sent] being the requests made. *)
Definition left_behind (l : limiter) (k sent : nat) (st : state) : Prop :=
  requests st = sent
  /\ (forall j, j < k -> throttled_at j)
  /\ naps_of (pauses st) = (throttled k l).2.

Definition ended (l : limiter) (k : nat) (st : state) (out : outcome exn)
    : Prop :=
  match out with
  | Returned r =>
      send k = inr r /\ is_success r = true
      /\ left_behind l k (S k) st /\ lim st = note_success (throttled k l).1
  | HttpError r =>
      send k = inr r /\ is_success r = false /\ is_throttle r = false
      /\ left_behind l k (S k) st /\ lim st = (throttled k l).1
  | Exceeded =>
      k = MAX_ATTEMPTS /\ left_behind l k k st /\ lim st = (throttled k l).1
  | Raised e =>
      (send k = inl e /\ left_behind l k (S k) st /\ lim st = (throttled k l).1)
      \/ (0 < k /\ (exists d, sleep d = Some e)
          /\ left_behind l k k st /\ lim st = (throttled k l).1)
  end.

Lemma throttled_S (k : nat) (l : limiter) :
  throttled (S k) l
  = ((note_service_error (throttled k l).1).1,
     (throttled k l).2
     ++ match (note_service_error (throttled k l).1).2 with
        | Some s => [s] | None => [] end).
Proof. simpl. by destruct (throttled k l). Qed.

Lemma backoff_loop_spec (l : limiter) (left : nat) : forall k delay st,
  k + left = MAX_ATTEMPTS ->
  left_behind l k k st -> lim st = (throttled k l).1 ->
  exists k', k <= k' <= MAX_ATTEMPTS
    /\ ended l k' (backoff_loop left delay st).1 (backoff_loop left delay st).2.
Proof.
  induction left as [|left IH]; intros k delay st Hk (Hreq & Hthr & Hnaps) Hlim;
    cbn [Backoff.backoff_loop].
  - exists k. split; [lia|]. simpl. split; [lia|]. by repeat split.
  - rewrite Hreq. destruct (send k) as [e|resp] eqn:Hsend.
    + exists k. split; [lia|]. simpl. left. by repeat split.
    + destruct (is_success resp) eqn:Hok.
      * exists k. split; [lia|]. simpl. rewrite Hlim. by repeat split.
      * destruct (is_throttle resp) eqn:Hth.
        -- cbv zeta.
           set (st1 := State _ (S k) _).
           assert (left_behind l (S k) (S k) st1 /\ lim st1 = (throttled (S k) l).1)
             as [Hb1 Hl1].
           { unfold st1, left_behind. rewrite throttled_S.
             cbn [requests pauses lim fst snd]. rewrite Hlim.
             split; [|done]. split; [done|]. split.
             - intros j Hj. destruct (decide (j = k)) as [->|Hne].
               + by exists resp.
               + apply Hthr. lia.
             - rewrite !naps_of_app, Hnaps. f_equal.
               destruct (note_service_error (throttled k l).1).2; simpl; done. }
           destruct (sleep _) as [e|] eqn:Hsl.
           ++ exists (S k). split; [lia|]. simpl. right.
              split; [lia|]. split; [by eexists|]. done.
           ++ destruct (IH (S k) (fmin (delay * 2)%float 30%float) st1
                          ltac:(lia) Hb1 Hl1) as (k' & Hk' & He).
              exists k'. split; [lia|done].
        -- exists k. split; [lia|]. simpl. by repeat split.
Qed.


(** X28.  What a call that uses up its attempts costs.  Started with a
    fresh limiter, a call of [with_backoff] that ends with the attempts
    exceeded has sent eight requests, has napped once, for 30 seconds, has
    halved the page size (not below 25), and leaves the error counter
    at 2. *)
Theorem exhausted_backoff (PAGE_SIZE : Z) :
  (with_backoff (init PAGE_SIZE)).2 = Exceeded ->
  requests (with_backoff (init PAGE_SIZE)).1 = 8
  /\ naps_of (pauses (with_backoff (init PAGE_SIZE)).1) = [30%Z]
  /\ page_size (lim (with_backoff (init PAGE_SIZE)).1) = Z.max 25 (PAGE_SIZE / 2)
  /\ consec_service_errors (lim (with_backoff (init PAGE_SIZE)).1) = 2%Z.
Proof.
  unfold Backoff.with_backoff. intros Hex.
  destruct (backoff_loop_spec (init PAGE_SIZE) MAX_ATTEMPTS 0 1.0%float
              (State (init PAGE_SIZE) 0 [])) as (k & _ & He); [done| |done|].
  { split; [done|]. split; [intros j Hj; lia|done]. }
  rewrite Hex in He. destruct He as (-> & (Hr & _ & Hn) & Hl).
  rewrite Hr, Hn, Hl. by repeat split.
Qed.

End WithSession.

(** A service that answers 429 to everything. *)
Definition always_throttled (n : nat) : unit + response := inr (Response 429 None).

Lemma exhausted_backoff_witness :
  requests (with_backoff unit always_throttled (fun _ => None)
              (fun _ a _ => a) (fun _ => None) (init 100)).1 = 8
  /\ page_size (lim (with_backoff unit always_throttled (fun _ => None)
                       (fun _ a _ => a) (fun _ => None) (init 100)).1) = 50%Z.
Proof.
  destruct (exhausted_backoff unit always_throttled (fun _ => None)
              (fun _ a _ => a) (fun _ => None) 100) as (H1 & _ & H3 & _).
  - by vm_compute.
  - split; [exact H1|]. rewrite H3. by vm_compute.
Defined.

End BackoffFacts.

Module BatchManagersFacts.

Import Limiter Backoff BatchManagers.
Local Open Scope list_scope.

Lemma id2uid_of_snoc (chunk : list (string * nat)) (c : string * nat) :
  id2uid_of (chunk ++ [c]) = <[pretty (S (length chunk)) := c]> (id2uid_of chunk).
Proof.
  unfold id2uid_of. rewrite imap_app, foldl_app. simpl. by rewrite Nat.add_0_r.
Qed.

Lemma id2uid_lookup (chunk : list (string * nat)) (i : nat) :
  id2uid_of chunk !! pretty (S i) = chunk !! i.
Proof.
  induction chunk as [|c chunk IH] using rev_ind.
  - unfold id2uid_of. simpl. by rewrite lookup_empty.
  - rewrite id2uid_of_snoc. destruct (decide (i = length chunk)) as [->|Hne].
    + rewrite lookup_insert_eq. by rewrite lookup_app_r, Nat.sub_diag.
    + rewrite lookup_insert_ne.
      * rewrite IH. destruct (decide (i < length chunk)).
        -- by rewrite lookup_app_l.
        -- rewrite !lookup_ge_None_2; [done| |lia].
           rewrite length_app. simpl. lia.
      * intros H. apply (inj pretty) in H. lia.
Qed.

Lemma sum_list_with_fmap {A B} (f : B -> nat) (g : A -> B) (l : list A) :
  sum_list_with f (g <$> l) = sum_list_with (f ∘ g) l.
Proof. induction l as [|x l IH]; simpl; [done|]. f_equal. exact IH. Qed.

(** Attempts left in a queue. *)
Definition budget (q : list (string * nat)) : nat := sum_list_with snd q.

(** A user is accounted for: resolved, or waiting in the queue. *)
Definition covered (st : bstate) (uid : string) : Prop :=
  is_Some (manager_map st !! uid) \/ uid ∈ fst <$> queue st.

Section WithGraph.
Variable exn : Type.
Variable send : nat -> nat -> exn + response.
Variable answers : nat -> list string -> list sub_response.
Variable float_of_str : string -> option float.
Variable uniform : nat -> nat -> float -> float -> float.
Variable uniform_sub : nat -> nat -> float -> float -> float.
Variable sleep : float -> option exn.

#[local] Abbreviation handle := (handle exn float_of_str uniform_sub sleep).
#[local] Abbreviation handle_all := (handle_all exn float_of_str uniform_sub sleep).
#[local] Abbreviation batch_loop :=
  (batch_loop exn send answers float_of_str uniform uniform_sub sleep).

(** The queue entry a response entry is about. *)
Definition entry_of (id2uid : gmap string (string * nat)) (it : sub_response)
    : option (string * nat) :=
  rid it ≫= fun r => id2uid !! r.

Lemma handle_spec b id2uid k st it uid a :
  (forall d, sleep d = None) ->
  entry_of id2uid it = Some (uid, a) ->
  exists st',
    handle b id2uid k st it = (st', None)
    /\ batches st' = batches st
    /\ ((exists v, manager_map st' = <[uid := v]> (manager_map st))
          /\ queue st' = queue st
        \/ 1 < a /\ manager_map st' = manager_map st
           /\ queue st' = queue st ++ [(uid, a - 1)]).
Proof.
  intros Hs He. unfold BatchManagers.handle. unfold entry_of in He. rewrite He.
  destruct (_ && _).
  { eexists. split; [done|]. split; [done|]. left. split; [by eexists|done]. }
  destruct (_ || _).
  { eexists. split; [done|]. split; [done|]. left. split; [by eexists|done]. }
  destruct (_ || _); cbv zeta.
  - destruct (Nat.ltb_spec 1 a).
    + rewrite Hs. eexists. split; [done|]. split; [done|]. by right.
    + eexists. split; [done|]. split; [done|]. left. split; [by eexists|done].
  - eexists. split; [done|]. split; [done|]. left. split; [by eexists|done].
Qed.

Definition attempts_of (id2uid : gmap string (string * nat)) (it : sub_response)
    : nat :=
  (default (""%string, 0) (entry_of id2uid it)).2.

Definition uid_of (id2uid : gmap string (string * nat)) (it : sub_response)
    : string :=
  (default (""%string, 0) (entry_of id2uid it)).1.

Lemma handle_all_spec b id2uid (items : list sub_response) : forall k st,
  (forall d, sleep d = None) ->
  Forall (fun it => exists c, entry_of id2uid it = Some c /\ 1 <= c.2) items ->
  Forall (fun q => 1 <= q.2) (queue st) ->
  exists st',
    handle_all b id2uid k items st = (st', None)
    /\ batches st' = batches st
    /\ Forall (fun q => 1 <= q.2) (queue st')
    /\ budget (queue st') + length items
       <= budget (queue st) + sum_list_with (attempts_of id2uid) items
    /\ (forall uid, covered st uid -> covered st' uid)
    /\ (forall it, it ∈ items -> covered st' (uid_of id2uid it))
    /\ (forall uid, covered st' uid ->
          covered st uid \/ exists it, it ∈ items /\ uid = uid_of id2uid it).
Proof.
  induction items as [|it items IH]; intros k st Hs Hall Hq.
  - exists st. simpl. repeat split; try done; try lia.
    + intros it Hit. by apply elem_of_nil in Hit.
    + by left.
  - apply Forall_cons in Hall as [([uid a] & He & Ha) Hall]. simpl in Ha.
    destruct (handle_spec b id2uid k st it uid a Hs He)
      as (st1 & Hh & Hb1 & Hcase).
    assert (Forall (fun q => 1 <= q.2) (queue st1)
            /\ budget (queue st1) + 1 <= budget (queue st) + a
            /\ (forall u, covered st u -> covered st1 u)
            /\ covered st1 uid
            /\ (forall u, covered st1 u -> covered st u \/ u = uid))
      as (Hq1 & Hbud1 & Hmono1 & Hcov1 & Hback1).
    { destruct Hcase as [[[v Hm] Hqq] | (Hlt & Hm & Hqq)].
      - rewrite Hqq. split; [done|]. split; [lia|]. unfold covered.
        rewrite Hm, Hqq. split; [|split].
        + intros u [Hu|Hu]; [|by right]. left.
          destruct (decide (u = uid)) as [->|Hne];
            [by rewrite lookup_insert_eq|by rewrite lookup_insert_ne].
        + left. by rewrite lookup_insert_eq.
        + intros u [Hu|Hu]; [|by left; right].
          destruct (decide (u = uid)) as [->|Hne]; [by right|].
          rewrite lookup_insert_ne in Hu by done. by left; left.
      - rewrite Hqq. split; [|split; [|split; [|split]]].
        + apply Forall_app. split; [done|]. apply Forall_singleton. simpl. lia.
        + unfold budget. rewrite sum_list_with_app. simpl. lia.
        + unfold covered. rewrite Hm, Hqq, fmap_app.
          intros u [Hu|Hu]; [by left|]. right. apply elem_of_app. by left.
        + unfold covered. rewrite Hqq, fmap_app. right. apply elem_of_app.
          right. simpl. by apply list_elem_of_singleton.
        + unfold covered. rewrite Hm, Hqq, fmap_app.
          intros u [Hu|Hu]; [by left; left|].
          apply elem_of_app in Hu as [Hu|Hu]; [by left; right|].
          simpl in Hu. apply list_elem_of_singleton in Hu. by right. }
    destruct (IH (S k) st1 Hs Hall Hq1)
      as (st' & Hrun & Hb' & Hq' & Hbud' & Hmono' & Hcov' & Hback').
    exists st'. cbn [BatchManagers.handle_all]. rewrite Hh.
    split; [done|]. split; [congruence|]. split; [done|]. split.
    { cbn [sum_list_with length]. unfold attempts_of at 1. rewrite He. simpl. lia. }
    split; [intros u Hu; by apply Hmono', Hmono1|]. split.
    { intros it' [->|Hit]%elem_of_cons.
      - unfold uid_of. rewrite He. simpl. by apply Hmono'.
      - by apply Hcov'. }
    intros u Hu. destruct (Hback' u Hu) as [Hu1|(it' & Hit' & ->)].
    + destruct (Hback1 u Hu1) as [?| ->]; [by left|]. right. exists it.
      split; [by left|]. unfold uid_of. by rewrite He.
    + right. exists it'. split; [by right|done].
Qed.

(** The server answers every sub-request of a batch once: the ids of the
    entries that come back are the ids sent, in some order. *)
Definition answers_all : Prop :=
  forall b uids,
    rid <$> answers b uids
    ≡ₚ (fun i => Some (pretty (S i))) <$> seq 0 (length uids).

Lemma entries_perm (b : nat) (chunk : list (string * nat)) :
  answers_all ->
  entry_of (id2uid_of chunk) <$> answers b (fst <$> chunk) ≡ₚ Some <$> chunk.
Proof.
  intros Hans. specialize (Hans b (fst <$> chunk)). rewrite length_fmap in Hans.
  assert (entry_of (id2uid_of chunk) <$> answers b (fst <$> chunk)
          = (fun r => r ≫= fun s => id2uid_of chunk !! s)
              <$> (rid <$> answers b (fst <$> chunk))) as ->.
  { by rewrite <- list_fmap_compose. }
  rewrite Hans, <- list_fmap_compose.
  assert (((fun r => r ≫= fun s => id2uid_of chunk !! s)
             ∘ (fun i => Some (pretty (S i)))) <$> seq 0 (length chunk)
          = Some <$> chunk) as ->; [|done].
  apply list_eq. intros i. rewrite !list_lookup_fmap.
  destruct (decide (i < length chunk)) as [Hi|Hi].
  - rewrite lookup_seq_lt by done. simpl. rewrite id2uid_lookup.
    apply lookup_lt_is_Some in Hi as [c Hc]. by rewrite Hc.
  - rewrite lookup_seq_ge by lia. by rewrite lookup_ge_None_2 by lia.
Qed.

Lemma batch_loop_spec (fuel : nat) : forall st,
  (forall b l, exists r,
     (with_backoff exn (send b) float_of_str (uniform b) sleep l).2 = Returned r) ->
  answers_all ->
  (forall d, sleep d = None) ->
  Forall (fun q => 1 <= q.2) (queue st) ->
  budget (queue st) < fuel ->
  exists st',
    batch_loop fuel st = Some (st', None)
    /\ queue st' = []
    /\ (forall uid, covered st' uid <-> covered st uid)
    /\ batches st' <= batches st + budget (queue st).
Proof.
  induction fuel as [|fuel IH]; intros st Hpost Hans Hs Hq Hfuel; [lia|].
  cbn [BatchManagers.batch_loop]. destruct (queue st) as [|q0 qs] eqn:Hqueue.
  - exists st. split; [done|]. split; [done|]. split; [done|]. lia.
  - rewrite <- Hqueue in *. cbv zeta.
    set (chunk := take BATCH_LIMIT (queue st)).
    set (rest := drop BATCH_LIMIT (queue st)).
    destruct (Hpost (batches st) (blim st)) as [r Hr]. rewrite Hr.
    set (st0 := BState (manager_map st) rest _ (S (batches st)) _).
    assert (queue st = chunk ++ rest) as Hsplit
      by (symmetry; apply take_drop).
    assert (Forall (fun q => 1 <= q.2) chunk /\ Forall (fun q => 1 <= q.2) rest)
      as [Hchunk Hrest].
    { rewrite Hsplit in Hq. by apply Forall_app in Hq. }
    pose proof (entries_perm (batches st) chunk Hans) as Hperm.
    set (items := answers (batches st) (fst <$> chunk)) in *.
    assert (Forall (fun it => exists c, entry_of (id2uid_of chunk) it = Some c
                                       /\ 1 <= c.2) items) as Hitems.
    { apply Forall_forall. intros it Hit.
      assert (entry_of (id2uid_of chunk) it ∈ Some <$> chunk) as Hin.
      { rewrite <- Hperm. apply list_elem_of_fmap. by exists it. }
      apply list_elem_of_fmap in Hin as (c & Hc & Hcin). exists c.
      split; [done|]. rewrite Forall_forall in Hchunk. by apply Hchunk. }
    destruct (handle_all_spec (batches st) (id2uid_of chunk) items 0 st0 Hs Hitems
                Hrest)
      as (st1 & Hrun & Hb1 & Hq1 & Hbud1 & Hmono1 & Hcov1 & Hback1).
    rewrite Hrun, Hs.
    assert (sum_list_with (attempts_of (id2uid_of chunk)) items = budget chunk)
      as Hsum.
    { unfold budget.
      assert (sum_list_with (attempts_of (id2uid_of chunk)) items
              = sum_list_with (fun e => (default (""%string, 0) e).2)
                  (entry_of (id2uid_of chunk) <$> items)) as ->.
      { by rewrite sum_list_with_fmap. }
      rewrite Hperm, sum_list_with_fmap. done. }
    assert (length items = length chunk) as Hlen.
    { apply Permutation_length in Hperm. by rewrite !length_fmap in Hperm. }
    assert (1 <= length chunk) as Hne.
    { unfold chunk. rewrite length_take, Hqueue. simpl. unfold BATCH_LIMIT. lia. }
    assert (budget (queue st) = budget chunk + budget rest) as Hbsplit.
    { unfold budget. by rewrite Hsplit, sum_list_with_app. }
    change (queue st0) with rest in Hbud1.
    change (batches st0) with (S (batches st)) in Hb1.
    assert (budget (queue st1) < fuel) as Hfuel1 by lia.
    set (st2 := BState (manager_map st1) (queue st1) (blim st1) (batches st1) _).
    destruct (IH st2 Hpost Hans Hs Hq1 Hfuel1)
      as (st' & Hrun' & Hq' & Hcov' & Hb').
    exists st'. split; [done|]. split; [done|]. split; [|change (batches st2) with (batches st1) in Hb';
      change (queue st2) with (queue st1) in Hb'; lia].
    intros uid. rewrite Hcov'.
    assert (forall u, u ∈ fst <$> chunk
              <-> exists it, it ∈ items /\ u = uid_of (id2uid_of chunk) it) as Huids.
    { intros u. split.
      - intros (c & -> & Hc)%list_elem_of_fmap.
        assert (Some c ∈ entry_of (id2uid_of chunk) <$> items) as Hin.
        { rewrite Hperm. apply list_elem_of_fmap. by exists c. }
        apply list_elem_of_fmap in Hin as (it & Hit & Hitin). exists it.
        split; [done|]. unfold uid_of. by rewrite <- Hit.
      - intros (it & Hit & ->).
        assert (entry_of (id2uid_of chunk) it ∈ Some <$> chunk) as Hin.
        { rewrite <- Hperm. apply list_elem_of_fmap. by exists it. }
        apply list_elem_of_fmap in Hin as (c & Hc & Hcin).
        unfold uid_of. rewrite Hc. simpl. apply list_elem_of_fmap. by exists c. }
    change (covered st2 uid) with (covered st1 uid).
    unfold covered at 2. rewrite Hsplit, fmap_app, elem_of_app. split.
    + intros Hc. destruct (Hback1 uid Hc) as [[Hm|Hr']|Hit].
      * by left.
      * right. by right.
      * right. left. by apply Huids.
    + intros [Hm|[Hc|Hr']].
      * apply Hmono1. by left.
      * apply Huids in Hc as (it & Hit & ->). by apply Hcov1.
      * apply Hmono1. by right.
Qed.

(** X29.  [batch_get_managers] comes to an end and resolves everybody.
    If every POST of a batch gets through, the server answers each
    sub-request of a batch once, and [time.sleep] accepts the delays, then
    within eight batches per user the loop returns with an empty queue and
    a map whose keys are exactly the user ids asked for: each has a
    manager or null. *)
Theorem batch_get_managers_resolves_all (fuel : nat) (l : limiter)
    (user_ids : list string) :
  (forall b l', exists r,
     (with_backoff exn (send b) float_of_str (uniform b) sleep l').2 = Returned r) ->
  answers_all ->
  (forall d, sleep d = None) ->
  MAX_ATTEMPTS * length user_ids < fuel ->
  exists st,
    batch_get_managers exn send answers float_of_str uniform uniform_sub sleep
      fuel l user_ids = Some (st, None)
    /\ queue st = []
    /\ (forall uid, is_Some (manager_map st !! uid) <-> uid ∈ user_ids)
    /\ batches st <= MAX_ATTEMPTS * length user_ids.
Proof.
  intros Hpost Hans Hs Hfuel. unfold batch_get_managers.
  set (st0 := BState ∅ _ l 0 []).
  assert (budget (queue st0) = MAX_ATTEMPTS * length user_ids) as Hbud.
  { unfold budget, st0. cbn [queue]. rewrite sum_list_with_fmap.
    clear. induction user_ids as [|u us IH]; [done|].
    cbn [sum_list_with length]. rewrite IH. cbn [compose snd].
    unfold MAX_ATTEMPTS. lia. }
  destruct (batch_loop_spec fuel st0 Hpost Hans Hs) as (st & Hrun & Hq & Hcov & Hb).
  - simpl. apply Forall_fmap, Forall_forall. intros u _. simpl.
    unfold MAX_ATTEMPTS. lia.
  - lia.
  - exists st. split; [done|]. split; [done|]. split; [|change (batches st0) with 0 in Hb; lia].
    intros uid. specialize (Hcov uid). unfold covered in Hcov.
    rewrite Hq in Hcov. simpl in Hcov. rewrite lookup_empty in Hcov.
    rewrite <- list_fmap_compose in Hcov. simpl in Hcov.
    assert ((fst ∘ (fun uid0 : string => (uid0, MAX_ATTEMPTS))) <$> user_ids = user_ids)
      as Hid.
    { rewrite <- (list_fmap_id user_ids) at 2. by apply list_fmap_ext. }
    rewrite Hid in Hcov. split.
    + intros Hm. destruct (proj1 Hcov (or_introl Hm)) as [[? ?]|?]; done.
    + intros Hu. destruct (proj2 Hcov (or_intror Hu)) as [?|Hn]; [done|].
      by apply elem_of_nil in Hn.
Qed.

End WithGraph.

(** A directory service that throttles every entry of the first batch and
    then answers that [boss] is the manager. *)
Definition late_answers (b : nat) (uids : list string) : list sub_response :=
  imap (fun i _ =>
          if (b =? 0)%nat then SubResponse (Some (pretty (S i))) 429 None None
          else SubResponse (Some (pretty (S i))) 200 (Some "boss"%string) None)
    uids.

Lemma late_answers_all : answers_all late_answers.
Proof.
  intros b uids. unfold late_answers.
  assert (rid <$> imap (fun i (_ : string) =>
            if (b =? 0)%nat then SubResponse (Some (pretty (S i))) 429 None None
            else SubResponse (Some (pretty (S i))) 200 (Some "boss"%string) None)
            uids
          = (fun i => Some (pretty (S i))) <$> seq 0 (length uids)) as ->; [|done].
  apply list_eq. intros i. rewrite !list_lookup_fmap, list_lookup_imap.
  destruct (decide (i < length uids)) as [Hi|Hi].
  - rewrite lookup_seq_lt by done. apply lookup_lt_is_Some in Hi as [u Hu].
    rewrite Hu. simpl. by destruct (b =? 0)%nat.
  - rewrite lookup_seq_ge by lia. by rewrite lookup_ge_None_2 by lia.
Qed.

Definition always_ok (b n : nat) : unit + response := inr (Response 200 None).

Lemma batch_get_managers_resolves_all_witness :
  exists st,
    batch_get_managers unit always_ok late_answers (fun _ => None)
      (fun _ _ a _ => a) (fun _ _ a _ => a) (fun _ => None)
      17 (init 100) ["a"; "b"]%string = Some (st, None)
    /\ queue st = []
    /\ (forall uid, is_Some (manager_map st !! uid) <-> uid ∈ ["a"; "b"]%string)
    /\ batches st <= MAX_ATTEMPTS * 2.
Proof.
  apply (batch_get_managers_resolves_all unit always_ok late_answers
           (fun _ => None) (fun _ _ a _ => a) (fun _ _ a _ => a) (fun _ => None)
           17 (init 100) ["a"; "b"]%string).
  - intros b l'. by eexists.
  - exact late_answers_all.
  - done.
  - by vm_compute.
Defined.

End BatchManagersFacts.
